(** * NodeVFS: a jailed filesystem backend (workspaces/vfs-node/src/index.ts)

    Shallow embedding of the path resolver ([_locOK], [_validatePath],
    [_fsPath]), the error normalizer ([wrapVFSErr]), the operations that
    sit on top of them ([_exists], [_removeFile], [_readSymlink],
    [_realPath], [_symlink]) and the watch multiplexer ([_onWatchEvent],
    [_watch]).

    Conventions.
    - JavaScript strings are [string]; [path.sep] is one character.
    - A host call either resolves with a value or rejects with a thrown
      JavaScript value ([HostResult]).
    - Every operation returns, next to its outcome, the list of host
      filesystem calls it issued, in order ([HostCall]).
    - Node's [path] module and the host filesystem are interfaces
      ([PathLib], [PathExtra], [HostFS]); [Posix] instantiates the first
      for concrete runs. *)

From Stdlib Require Import String Ascii List Arith Bool Lia.
Import ListNotations.
Local Open Scope string_scope.
Local Open Scope list_scope.

(* ===================================================================== *)
(** ** JavaScript string and array primitives used by the source *)
(* ===================================================================== *)

Module JS.

(** [s.startsWith(pre)] *)
Fixpoint startsWith (s pre : string) {struct pre} : bool :=
  match pre, s with
  | EmptyString, _ => true
  | String a pre', String b s' => Ascii.eqb a b && startsWith s' pre'
  | String _ _, EmptyString => false
  end.

(** [s.slice(n)] for [0 <= n] *)
Fixpoint slice (s : string) (n : nat) {struct n} : string :=
  match n, s with
  | O, _ => s
  | S n', String _ s' => slice s' n'
  | S _, EmptyString => EmptyString
  end.

(** [s[n]]: the character at index [n], or [undefined] *)
Definition charAt (s : string) (n : nat) : option ascii := String.get n s.

(** [s.split(sep)] for a one-character separator; never the empty array *)
Fixpoint split (sep : ascii) (s : string) : list string :=
  match s with
  | EmptyString => [EmptyString]
  | String c s' =>
      if Ascii.eqb c sep then EmptyString :: split sep s'
      else match split sep s' with
           | [] => [String c EmptyString]
           | h :: t => String c h :: t
           end
  end.

(** [arr.join(sep)] *)
Definition join (sep : string) (arr : list string) : string :=
  String.concat sep arr.

(** [a === b] on strings *)
Definition seq (a b : string) : bool := String.eqb a b.

(** [a === b] where [a] may be [undefined] *)
Definition oseq (a : option string) (b : string) : bool :=
  match a with
  | Some x => String.eqb x b
  | None => false
  end.

End JS.

(* ===================================================================== *)
(** ** Errors *)
(* ===================================================================== *)

(** Modelled from the spec: the class [VFSError] is imported from
    [@socketsecurity/vfs] and is not part of this source file.  The
    specification describes it as the canonical error that carries a
    message, a code and, where there is one, the original error as cause;
    [VFSError message code cause] is [new VFSError(message, { code, cause })].
    Its [code] is [None] when the constructor is called without one; what
    the class stores then is not fixed here, and such an error compares
    equal to no code.  Its [name] is ["VFSError"], the name [wrapVFSErr]
    looks for.

    [HostError] is any other [Error]; its [code] is [None] when the object
    has no string [code] property. *)
#[warnings="-register-all"]
Inductive JsError : Type :=
| HostError (name message : string) (code : option string)
| VFSError (message : string) (code : option string) (cause : option JsError).

(** A thrown value ([unknown]): an [Error], or anything else, of which
    only its string conversion matters. *)
Inductive JsValue : Type :=
| NotAnError (text : string)
| AnError (e : JsError).

Definition err_name (e : JsError) : string :=
  match e with
  | HostError n _ _ => n
  | VFSError _ _ _ => "VFSError"
  end.

Definition err_message (e : JsError) : string :=
  match e with
  | HostError _ m _ => m
  | VFSError m _ _ => m
  end.

Definition err_code (e : JsError) : option string :=
  match e with
  | HostError _ _ c => c
  | VFSError _ c _ => c
  end.

Definition err_cause (e : JsError) : option JsError :=
  match e with
  | HostError _ _ _ => None
  | VFSError _ _ c => c
  end.

(** [err instanceof VFSError] *)
Definition instanceofVFSError (e : JsError) : bool :=
  match e with
  | VFSError _ _ _ => true
  | HostError _ _ _ => false
  end.

(** [(err as { code?: unknown } | undefined)?.code] *)
Definition thrown_code (v : JsValue) : option string :=
  match v with
  | AnError e => err_code e
  | NotAnError _ => None
  end.

Definition allowedErrorTypes : list string :=
  [ "ENOENT"; "ENOSYS"; "EISDIR"; "ENOTDIR"; "ENOTEMPTY"; "EPERM";
    "EMFILE"; "ENFILE"; "EBADF"; "EINVAL"; "EEXIST"; "EUNKNOWN" ].

(** [allowedErrorTypes.has(c)] *)
Definition allowed (c : string) : bool :=
  existsb (String.eqb c) allowedErrorTypes.

Definition wrapVFSErr (err : JsValue) : JsError :=
  match err with
  | NotAnError text => VFSError text None None
  | AnError e =>
      if JS.seq (err_name e) "AbortError" then e
      else if JS.seq (err_name e) "VFSError" then e
      else
        match err_code e with
        | Some c =>
            if allowed c then
              if JS.startsWith (err_message e) (c ++ ": ")
              then VFSError (JS.slice (err_message e) (String.length c + 2))
                            (Some c) (Some e)
              else VFSError (err_message e) (Some c) (Some e)
            else VFSError (err_message e) (Some "EUNKNOWN") (Some e)
        | None => VFSError (err_message e) (Some "EUNKNOWN") (Some e)
        end
  end.

(* ===================================================================== *)
(** ** Outcomes and the log of host calls *)
(* ===================================================================== *)

(** A settled host promise. *)
Inductive HostResult (A : Type) : Type :=
| Resolved (a : A)
| Rejected (v : JsValue).
Arguments Resolved {A} a.
Arguments Rejected {A} v.

(** The outcome of an operation of this module: a value, or a thrown
    [Error]. *)
Inductive Outcome (A : Type) : Type :=
| Ok (a : A)
| Throw (e : JsError).
Arguments Ok {A} a.
Arguments Throw {A} e.

Inductive HostCall : Type :=
| CallReadlink (path : string)
| CallStat (path : string)
| CallUnlink (path : string)
| CallSymlink (target path : string)
| CallRealpath (path : string).

(** [withVFSErr(promise)] *)
Definition withVFSErr {A} (r : HostResult A) : Outcome A :=
  match r with
  | Resolved a => Ok a
  | Rejected v => Throw (wrapVFSErr v)
  end.

(** Operations: the host calls issued, then the outcome. *)
Definition Op (A : Type) : Type := (list HostCall * Outcome A)%type.

Definition ret {A} (a : A) : Op A := ([], Ok a).

Definition throw {A} (e : JsError) : Op A := ([], Throw e).

Definition bind {A B} (m : Op A) (k : A -> Op B) : Op B :=
  match m with
  | (t, Ok a) => let (t', r) := k a in (t ++ t', r)
  | (t, Throw e) => (t, Throw e)
  end.

(** [try { m } catch (err) { h err }] *)
Definition try_catch {A} (m : Op A) (h : JsError -> Op A) : Op A :=
  match m with
  | (t, Ok a) => (t, Ok a)
  | (t, Throw e) => let (t', r) := h e in (t ++ t', r)
  end.

Definition calls {A} (m : Op A) : list HostCall := fst m.

Definition outcome {A} (m : Op A) : Outcome A := snd m.

Notation "x <- m ;; k" := (bind m (fun x => k))
  (at level 61, m at next level, right associativity).

(* ===================================================================== *)
(** ** Interfaces: Node's path module and the host filesystem *)
(* ===================================================================== *)

(** The result of [path.parse]; only these three fields are read. *)
Record ParsedPath : Type := mkParsed {
  root : string;
  dir : string;
  base : string
}.

(** The part of [node:path] that path resolution uses. *)
Class PathLib : Type := {
  sep : ascii;                              (* path.sep *)
  path_join : list string -> string;        (* path.join(...) *)
  isAbsolute : string -> bool;              (* path.isAbsolute *)
  parse : string -> ParsedPath              (* path.parse *)
}.

(** What only the virtual-path conversion and [_readSymlink] use:
    [path.dirname], [path.resolve], [path.relative], and [join] of the
    [path] export of [@socketsecurity/vfs]. *)
Class PathExtra : Type := {
  dirname : string -> string;
  resolve : string -> string -> string;
  relative : string -> string -> string;
  vfsPath_join : string -> list string -> string
}.

(** [stat] results: only the entry kind is observed here. *)
Inductive Stats : Type := StatFile | StatDir | StatSymlink | StatOther.

(** The host filesystem, as [fs.promises] presents it. *)
Class HostFS : Type := {
  readlink : string -> HostResult string;
  stat : string -> HostResult Stats;
  unlink : string -> HostResult unit;
  symlink : string -> string -> HostResult unit;
  realpath : string -> HostResult string
}.

(* ===================================================================== *)
(** ** Path resolution under jail *)
(* ===================================================================== *)

(** The local variables of one [_validatePath] call, together with the
    host calls issued so far. *)
Module Vars.
Record t : Type := mk {
  p : string;
  strict : bool;
  depth : nat;
  src : list string;
  i : nat;
  log : list HostCall
}.
End Vars.

(** How one pass through the body of the [for] loop ends. *)
Inductive Flow : Type :=
| Next (st : Vars.t)          (* end of body or [continue]: [++i] follows *)
| Break (st : Vars.t)         (* [break] *)
| ReturnNull (st : Vars.t)    (* [return null] *)
| Raise (e : JsError) (st : Vars.t).   (* [throw] *)

(** How the whole loop ends. *)
Inductive Completion : Type :=
| Exit                        (* loop left by its test or by [break] *)
| Null                        (* [return null] inside the loop *)
| Thrown (e : JsError).

Section Resolver.

Context {PL : PathLib} {FS : HostFS}.
Variable _base : string.

Definition sepStr : string := String sep EmptyString.

Definition _locOK (p : string) : bool :=
  JS.startsWith p _base &&
  (Nat.eqb (String.length p) (String.length _base) ||
   match JS.charAt p (String.length _base) with
   | Some c => Ascii.eqb c sep
   | None => false
   end).

(** [src[i] && src[i] !== '.' ? p + path.sep + src[i] : p] *)
Definition childOf (p seg : string) : string :=
  if negb (JS.seq seg "") && negb (JS.seq seg ".")
  then p ++ sepStr ++ seg
  else p.

Definition tooManySymlinks : JsError :=
  VFSError "too many symlinks" (Some "EINVAL") None.

(** One pass through the loop body, entered with [i < src.length]. *)
Definition body (thruLast : bool) (st : Vars.t) : Flow :=
  let p := Vars.p st in
  let src := Vars.src st in
  let i := Vars.i st in
  let seg := nth i src "" in
  if JS.seq seg ".." then
    let p' := path_join [p; ".."] in
    let st' := Vars.mk p' (Vars.strict st) (Vars.depth st) src i (Vars.log st) in
    if Vars.strict st && negb (_locOK p') then ReturnNull st' else Next st'
  else
    let child := childOf p seg in
    let log' := Vars.log st ++ [CallReadlink child] in
    match readlink child with
    | Resolved linkPath =>
        let depth' := S (Vars.depth st) in
        if (40 <? depth')%nat then
          Raise tooManySymlinks
                (Vars.mk child (Vars.strict st) depth' src i log')
        else if negb thruLast && Nat.eqb i (List.length src - 1)%nat then
          Break (Vars.mk child (Vars.strict st) depth' src i log')
        else if isAbsolute linkPath then
          let parsed := parse linkPath in
          let newSrc :=
            JS.split sep (dir parsed) ++ [base parsed] ++ skipn (S i) src in
          Next (Vars.mk (root parsed) false depth' newSrc 0 log')
        else
          let newSrc := JS.split sep linkPath ++ skipn (S i) src in
          Next (Vars.mk p true depth' newSrc 0 log')
    | Rejected err =>
        let st' :=
          Vars.mk child (Vars.strict st) (Vars.depth st) src i log' in
        match err with
        | AnError (VFSError m c k) => Raise (VFSError m c k) st'
        | _ =>
            if JS.oseq (thrown_code err) "EINVAL" then Next st'
            else if JS.oseq (thrown_code err) "ENOENT"
                    && Nat.eqb i (List.length src - 1)%nat then Next st'
            else Raise (wrapVFSErr err) st'
        end
    end.

(** The update expression [++i] of the [for] statement. *)
Definition incr (st : Vars.t) : Vars.t :=
  Vars.mk (Vars.p st) (Vars.strict st) (Vars.depth st) (Vars.src st)
          (S (Vars.i st)) (Vars.log st).

(** The [for] loop.  Two things bound it, and the recursion is on them in
    this order: [hops], the symlinks that may still be followed, and
    [todo], the number of segments from [i] to the end of [src].  A pass
    that follows no link leaves [src] alone and moves [i] by one; a pass
    that follows a link has replaced [src] and starts over with one hop
    less.  The case of a followed link with no hop left does not arise,
    since [body] throws before; [loop_eq] below states the loop in the
    usual way, for every state. *)
Fixpoint walk (thruLast : bool) (hops : nat) : nat -> Vars.t -> Completion * Vars.t :=
  fix pass (todo : nat) (st : Vars.t) {struct todo} : Completion * Vars.t :=
    match todo with
    | O => (Exit, st)
    | S todo' =>
        match body thruLast st with
        | Next st' =>
            if Nat.eqb (Vars.depth st') (Vars.depth st)
            then pass todo' (incr st')
            else
              match hops with
              | O => (Exit, st')
              | S hops' =>
                  walk thruLast hops'
                       (List.length (Vars.src st') - 1)%nat (incr st')
              end
        | Break st' => (Exit, st')
        | ReturnNull st' => (Null, st')
        | Raise e st' => (Thrown e, st')
        end
    end.

Definition loop (thruLast : bool) (st : Vars.t) : Completion * Vars.t :=
  walk thruLast (41 - Vars.depth st)%nat
       (List.length (Vars.src st) - Vars.i st)%nat st.

(** [return this._locOK(p) ? p : null] and the earlier exits. *)
Definition _validatePath (src : list string) (thruLast : bool)
  : Op (option string) :=
  let (c, st) := loop thruLast (Vars.mk _base true 0 src 0 []) in
  match c with
  | Exit =>
      (Vars.log st,
       Ok (if _locOK (Vars.p st) then Some (Vars.p st) else None))
  | Null => (Vars.log st, Ok None)
  | Thrown e => (Vars.log st, Throw e)
  end.

Definition outsideBase : JsError :=
  VFSError "path outside base directory" (Some "EINVAL") None.

Definition _fsPath (src : list string) (throughLast : bool) : Op string :=
  match src with
  | [] => ret _base
  | _ :: _ =>
      loc <- _validatePath src throughLast ;;
      match loc with
      | None => throw outsideBase
      | Some EmptyString => throw outsideBase
      | Some l => ret l
      end
  end.

End Resolver.

(* ===================================================================== *)
(** ** Operations built on the resolver *)
(* ===================================================================== *)

Section Operations.

Context {PL : PathLib} {PE : PathExtra} {FS : HostFS}.
Variable _base : string.

(** [this._root], set by the constructor to [path.parse(this._base).root] *)
Definition _root : string := root (parse _base).

(** [withVFSErr(fs.promises.f(args))], recorded in the log *)
Definition host {A} (c : HostCall) (r : HostResult A) : Op A :=
  ([c], withVFSErr r).

(** A step that touches no file *)
Definition pure {A} (o : Outcome A) : Op A := ([], o).

Definition outsideRoot : JsError :=
  VFSError "cannot resolve filepath outside filesystem root"
           (Some "ENOSYS") None.

Definition _relPath (src : string) (absolute : bool) : Outcome string :=
  if negb (JS.seq (root (parse src)) _root) then Throw outsideRoot
  else Ok (vfsPath_join (if absolute then "/" else ".")
                        (JS.split sep (relative _base src))).

Definition _exists (file : list string) : Op bool :=
  try_catch
    (path <- _fsPath _base file true ;;
     _ <- host (CallStat path) (stat path) ;;
     ret true)
    (fun err =>
       if instanceofVFSError err && JS.oseq (err_code err) "ENOENT"
       then ret false
       else throw err).

Definition _removeFile (file : list string) : Op unit :=
  path <- _fsPath _base file false ;;
  host (CallUnlink path) (unlink path).

Definition _symlink (target link : list string) (relative : bool) : Op unit :=
  let stored : string :=
    ((if relative then "" else _base ++ sepStr) ++ JS.join sepStr target)%string in
  path <- _fsPath _base link true ;;
  host (CallSymlink stored path) (symlink stored path).

Definition _realPath (link : list string) : Op string :=
  path <- _fsPath _base link true ;;
  result <- host (CallRealpath path) (realpath path) ;;
  pure (_relPath result true).

Definition _readSymlink (link : list string) : Op string :=
  fsLoc <- _fsPath _base link false ;;
  result <- host (CallReadlink fsLoc) (readlink fsLoc) ;;
  let targetPath := resolve (dirname fsLoc) result in
  pure (_relPath targetPath true).

End Operations.

(* ===================================================================== *)
(** ** The watch multiplexer *)
(* ===================================================================== *)

(** An event of the native notifier: the changed real path and the kind
    of change.  The same record carries the virtual path handed to a
    listener. *)
Record WatchEvent : Type := mkEvent {
  ev_path : string;
  ev_type : string
}.

(** A registration.  [cb_id] stands for the identity of the entry object
    in the [Set]; [isMatch] is the compiled glob.  Its [fire] and [err]
    functions belong to the listener: calling one is recorded as a
    [Delivery]. *)
Record WatchCallback : Type := mkCallback {
  cb_id : nat;
  isMatch : string -> bool
}.

Inductive Delivery : Type :=
| Fire (cb : nat) (evt : WatchEvent)
| Err (cb : nat) (e : JsError).

Section FanOut.

Context {PL : PathLib} {PE : PathExtra}.
Variable _base : string.

(** The body of the inner loop: one registration, one event. *)
Definition notify (cb : WatchCallback) (absEvt relEvt : WatchEvent)
  : list Delivery :=
  if isMatch cb (ev_path absEvt) then [Fire (cb_id cb) absEvt]
  else if isMatch cb (ev_path relEvt) then [Fire (cb_id cb) relEvt]
  else [].

(** [for (const event of events) { ... }] *)
Fixpoint fanOut (cbs : list WatchCallback) (events : list WatchEvent)
  : list Delivery * Outcome unit :=
  match events with
  | [] => ([], Ok tt)
  | event :: rest =>
      match _relPath _base (ev_path event) true with
      | Throw e => ([], Throw e)
      | Ok absPath =>
          match _relPath _base (ev_path event) false with
          | Throw e => ([], Throw e)
          | Ok relPath =>
              let absEvt := mkEvent absPath (ev_type event) in
              let relEvt := mkEvent relPath (ev_type event) in
              let here := flat_map (fun cb => notify cb absEvt relEvt) cbs in
              let (later, r) := fanOut cbs rest in
              (here ++ later, r)
          end
      end
  end.

(** The receiver of a call of [_onWatchEvent]: the backend, of which the
    method reads [_watchCallbacks] and, through [_relPath], [_base] and
    [_root]; or none, when the function is called on its own.  Class
    bodies are strict code, so [this] is then [undefined]. *)
Inductive Receiver : Type :=
| OnBackend (cbs : list WatchCallback)
| NoReceiver.

(** Reading a property of [undefined] *)
Definition undefinedThis (property : string) : JsError :=
  HostError "TypeError"
            ("Cannot read properties of undefined (reading '"
               ++ property ++ "')")
            None.

(** [_onWatchEvent].  For the receiver [OnBackend cbs], [cbs] is
    [this._watchCallbacks] in insertion order.  Without a receiver the
    first property read off [this] throws: [_watchCallbacks] when there is
    an error, [_relPath] at the first event otherwise; with no error and no
    event nothing is read. *)
Definition _onWatchEvent (this : Receiver) (err : option JsError)
           (events : list WatchEvent) : list Delivery * Outcome unit :=
  match this with
  | OnBackend cbs =>
      let errs :=
        match err with
        | Some e =>
            map (fun cb =>
                   Err (cb_id cb) (VFSError (err_message e) None (Some e)))
                cbs
        | None => []
        end in
      let (fired, r) := fanOut cbs events in
      (errs ++ fired, r)
  | NoReceiver =>
      match err, events with
      | Some _, _ => ([], Throw (undefinedThis "_watchCallbacks"))
      | None, _ :: _ => ([], Throw (undefinedThis "_relPath"))
      | None, [] => ([], Ok tt)
      end
  end.

(** The callback [_watch] hands to the notifier: [this._onWatchEvent], the
    method read off the instance and not bound to it.  The notifier calls
    it as a plain function, with the error and the events. *)
Definition notifierCallback (err : option JsError) (events : list WatchEvent)
  : list Delivery * Outcome unit :=
  _onWatchEvent NoReceiver err events.

End FanOut.

(** The watch state of one backend, and the native notifier next to it.
    [_watchCallbacks] is the [Set] in insertion order; [_watcher] is the
    subscription handle, if any.  [issued] counts the subscriptions the
    notifier has handed out, [live] lists those not yet unsubscribed, and
    [entries] counts the entry objects allocated by [_watch]. *)
Record WatchState : Type := mkWatch {
  _watchCallbacks : list WatchCallback;
  _watcher : option nat;
  issued : nat;
  live : list nat;
  entries : nat
}.

(** The state the constructor leaves. *)
Definition newWatchState : WatchState := mkWatch [] None 0 [] 0.

(** [Set.prototype.delete] by identity *)
Definition deleteEntry (entry : nat) (cbs : list WatchCallback)
  : list WatchCallback :=
  filter (fun cb => negb (Nat.eqb (cb_id cb) entry)) cbs.

(** [watcher!.unsubscribe()] with [watcher] undefined *)
Definition undefinedWatcher : JsError :=
  HostError "TypeError"
            "Cannot read properties of undefined (reading 'unsubscribe')" None.

(** Where a call of [_watch] stands when it first gives up control: it
    has returned the closure for its entry, or it waits at its [await] for
    the notifier's [subscribe] to settle. *)
Inductive WatchCall : Type :=
| Returned (entry : nat)
| Awaiting (entry : nat).

(** [_watch] up to its [await]; [glob] compiled to [matches].  The entry
    is added to the set, and [subscribe] is called when [_watcher] is not
    set. *)
Definition _watch_enter (matches : string -> bool) (w : WatchState)
  : WatchState * WatchCall :=
  let entry := mkCallback (entries w) matches in
  let cbs := _watchCallbacks w ++ [entry] in
  match _watcher w with
  | Some h =>
      (mkWatch cbs (Some h) (issued w) (live w) (S (entries w)),
       Returned (cb_id entry))
  | None =>
      (mkWatch cbs None (issued w) (live w) (S (entries w)),
       Awaiting (cb_id entry))
  end.

(** [_watch] from its [await] on, in the state it finds when it resumes;
    [native] is how [subscribe] settled.  The handle is stored in
    [_watcher] whatever is there by then.  The value returned is the entry
    the unsubscribe closure captures. *)
Definition _watch_resume (entry : nat) (native : HostResult unit)
           (w : WatchState) : WatchState * Outcome nat :=
  match native with
  | Resolved _ =>
      (mkWatch (_watchCallbacks w) (Some (issued w)) (S (issued w))
               (issued w :: live w) (entries w),
       Ok entry)
  | Rejected v => (w, Throw (wrapVFSErr v))
  end.

(** A call of [_watch] during whose [await] nothing else touches the
    backend. *)
Definition _watch (matches : string -> bool) (native : HostResult unit)
           (w : WatchState) : WatchState * Outcome nat :=
  match _watch_enter matches w with
  | (w', Returned entry) => (w', Ok entry)
  | (w', Awaiting entry) => _watch_resume entry native w'
  end.

(** The closure [_watch] returns, for the entry it captured; [native] is
    how the notifier's [unsubscribe] settles if it is called. *)
Definition unsubscribe (entry : nat) (native : HostResult unit)
           (w : WatchState) : WatchState * Outcome unit :=
  let cbs := deleteEntry entry (_watchCallbacks w) in
  match cbs with
  | [] =>
      match _watcher w with
      | None =>
          (mkWatch cbs None (issued w) (live w) (entries w),
           Throw undefinedWatcher)
      | Some h =>
          match native with
          | Resolved _ =>
              (mkWatch cbs None (issued w)
                       (filter (fun x => negb (Nat.eqb x h)) (live w))
                       (entries w),
               Ok tt)
          | Rejected v =>
              (mkWatch cbs None (issued w) (live w) (entries w),
               Throw (wrapVFSErr v))
          end
      end
  | _ :: _ =>
      (mkWatch cbs (_watcher w) (issued w) (live w) (entries w), Ok tt)
  end.

(** A caller's request, with the way the native call it may trigger
    settles. *)
Inductive WatchCmd : Type :=
| DoWatch (matches : string -> bool) (native : HostResult unit)
| DoUnsubscribe (entry : nat) (native : HostResult unit).

(** One request, run to completion: the next state, and whether the
    request returned normally. *)
Definition step (w : WatchState) (c : WatchCmd) : WatchState * bool :=
  match c with
  | DoWatch m native =>
      match _watch m native w with
      | (w', Ok _) => (w', true)
      | (w', Throw _) => (w', false)
      end
  | DoUnsubscribe entry native =>
      match unsubscribe entry native w with
      | (w', Ok _) => (w', true)
      | (w', Throw _) => (w', false)
      end
  end.

(** Requests run one after the other, none overlapping another. *)
Fixpoint run (w : WatchState) (cs : list WatchCmd) : WatchState * bool :=
  match cs with
  | [] => (w, true)
  | c :: rest =>
      let (w', ok) := step w c in
      let (w'', ok') := run w' rest in
      (w'', ok && ok')
  end.

(** Calls that overlap.  A backend together with its callers: the calls of
    [_watch] that wait at their [await], by entry, and the entries whose
    call has returned, so that a caller holds the closure. *)
Record Machine : Type := mkMachine {
  backend : WatchState;
  waiting : list nat;
  closures : list nat
}.

Definition newMachine : Machine := mkMachine newWatchState [] [].

(** What can happen next: a caller calls [_watch], which runs to its
    [await] or to its return; the [subscribe] that a waiting call awaits
    settles, and that call resumes; a caller calls a closure it holds,
    with [native] for how the notifier's [unsubscribe] settles. *)
Inductive WatchAct : Type :=
| Invoke (matches : string -> bool)
| Settle (entry : nat) (native : HostResult unit)
| Release (entry : nat) (native : HostResult unit).

(** One such event.  An event that cannot happen (no call waits for that
    entry, no caller holds that closure) leaves everything as it is. *)
Definition act (m : Machine) (a : WatchAct) : Machine :=
  match a with
  | Invoke matches =>
      match _watch_enter matches (backend m) with
      | (w, Returned entry) =>
          mkMachine w (waiting m) (closures m ++ [entry])
      | (w, Awaiting entry) =>
          mkMachine w (waiting m ++ [entry]) (closures m)
      end
  | Settle entry native =>
      if existsb (Nat.eqb entry) (waiting m)
      then
        match _watch_resume entry native (backend m) with
        | (w, Ok _) =>
            mkMachine w (filter (fun e => negb (Nat.eqb e entry)) (waiting m))
                      (closures m ++ [entry])
        | (w, Throw _) =>
            mkMachine w (filter (fun e => negb (Nat.eqb e entry)) (waiting m))
                      (closures m)
        end
      else m
  | Release entry native =>
      if existsb (Nat.eqb entry) (closures m)
      then mkMachine (fst (unsubscribe entry native (backend m)))
                     (waiting m) (closures m)
      else m
  end.

Definition play (m : Machine) (acts : list WatchAct) : Machine :=
  fold_left act acts m.

(* ===================================================================== *)
(** ** POSIX [path] *)
(* ===================================================================== *)

(** Node's [path.posix], restricted to what the resolver calls, written
    after the behaviour Node documents for it: [normalize] drops empty and
    [.] segments and resolves [..] against the segment before it; [parse]
    ignores trailing separators and cuts at the last separator left. *)
Module Posix.

Definition slash : ascii := "/"%char.

Definition isAbsolute (s : string) : bool :=
  match s with
  | String c _ => Ascii.eqb c slash
  | EmptyString => false
  end.

Definition endsWithSlash (s : string) : bool :=
  match rev (list_ascii_of_string s) with
  | c :: _ => Ascii.eqb c slash
  | [] => false
  end.

(** The segment walk of [normalizeString]; [stack] holds the segments
    kept so far, last first. *)
Fixpoint normalizeSegs (allowAboveRoot : bool) (stack segs : list string)
  : list string :=
  match segs with
  | [] => rev stack
  | seg :: rest =>
      if String.eqb seg "" || String.eqb seg "." then
        normalizeSegs allowAboveRoot stack rest
      else if String.eqb seg ".." then
        match stack with
        | top :: below =>
            if String.eqb top ".."
            then normalizeSegs allowAboveRoot
                               (if allowAboveRoot then ".." :: stack else stack)
                               rest
            else normalizeSegs allowAboveRoot below rest
        | [] =>
            normalizeSegs allowAboveRoot
                          (if allowAboveRoot then [".."] else []) rest
        end
      else normalizeSegs allowAboveRoot (seg :: stack) rest
  end.

Definition normalize (path : string) : string :=
  match path with
  | EmptyString => "."
  | _ =>
      let isAbs := isAbsolute path in
      let trailing := endsWithSlash path in
      let inner :=
        String.concat "/" (normalizeSegs (negb isAbs) [] (JS.split slash path)) in
      match inner with
      | EmptyString => if isAbs then "/" else if trailing then "./" else "."
      | _ => ((if isAbs then "/" else "") ++ inner
              ++ (if trailing then "/" else ""))%string
      end
  end.

Definition join (args : list string) : string :=
  match filter (fun a => negb (String.eqb a "")) args with
  | [] => "."
  | parts => normalize (String.concat "/" parts)
  end.

Fixpoint dropWhile (f : ascii -> bool) (l : list ascii) : list ascii :=
  match l with
  | [] => []
  | c :: l' => if f c then dropWhile f l' else l
  end.

Fixpoint takeWhile (f : ascii -> bool) (l : list ascii) : list ascii :=
  match l with
  | [] => []
  | c :: l' => if f c then c :: takeWhile f l' else []
  end.

Definition parse (path : string) : ParsedPath :=
  match path with
  | EmptyString => mkParsed "" "" ""
  | String c0 tl =>
      let isAbs := Ascii.eqb c0 slash in
      let rootS := if isAbs then "/" else "" in
      let chars := list_ascii_of_string (if isAbs then tl else path) in
      let isSlash := fun c => Ascii.eqb c slash in
      let notSlash := fun c => negb (Ascii.eqb c slash) in
      let trimmed := dropWhile isSlash (rev chars) in
      let baseS := string_of_list_ascii (rev (takeWhile notSlash trimmed)) in
      match dropWhile notSlash trimmed with
      | [] => mkParsed rootS rootS baseS
      | _ :: before =>
          mkParsed rootS (rootS ++ string_of_list_ascii (rev before))%string
                   baseS
      end
  end.

#[global] Instance pathLib : PathLib :=
  Build_PathLib slash join isAbsolute parse.

End Posix.

(** Example hosts and an example [PathExtra], for running the operations.
    A host is a table: its symbolic links with their stored targets, and
    the paths of its other entries.  Paths are looked up as written. *)
Module Sample.

Definition notALink : JsValue :=
  AnError (HostError "Error" "EINVAL: invalid argument, readlink"
                     (Some "EINVAL")).

Definition missing : JsValue :=
  AnError (HostError "Error" "ENOENT: no such file or directory"
                     (Some "ENOENT")).

Fixpoint lookup (path : string) (links : list (string * string))
  : option string :=
  match links with
  | [] => None
  | (l, target) :: rest =>
      if String.eqb l path then Some target else lookup path rest
  end.

Definition known (path : string) (others : list string) : bool :=
  existsb (String.eqb path) others.

Definition hostOf (links : list (string * string)) (others : list string)
  : HostFS :=
  {| readlink := fun path =>
       match lookup path links with
       | Some target => Resolved target
       | None =>
           if known path others then Rejected notALink else Rejected missing
       end;
     stat := fun path =>
       match lookup path links with
       | Some _ => Resolved StatSymlink
       | None =>
           if known path others then Resolved StatDir else Rejected missing
       end;
     unlink := fun path =>
       match lookup path links with
       | Some _ => Resolved tt
       | None =>
           if known path others then Resolved tt else Rejected missing
       end;
     symlink := fun _ _ => Resolved tt;
     realpath := fun path =>
       match lookup path links with
       | Some _ => Resolved path
       | None =>
           if known path others then Resolved path else Rejected missing
       end |}.

(** [/root/link -> sub], with [/root/sub/file.txt] behind it. *)
Definition linkToSub : HostFS :=
  hostOf [("/root/link", "sub")]
         ["/root"; "/root/sub"; "/root/sub/file.txt"].

(** [/root/l -> t], with the file [/root/t]. *)
Definition linkToFile : HostFS :=
  hostOf [("/root/l", "t")] ["/root"; "/root/t"].

(** [/root/a -> ./a]: a link to itself. *)
Definition selfLoop : HostFS :=
  hostOf [("/root/a", "./a")] ["/root"].

(** [/root/a -> ./b] and [/root/b -> ./a]: a pair of links to each other. *)
Definition mutualPair : HostFS :=
  hostOf [("/root/a", "./b"); ("/root/b", "./a")] ["/root"].

(** [n] letters [x]. *)
Fixpoint xs (n : nat) : string :=
  match n with
  | O => EmptyString
  | S n' => String "x"%char (xs n')
  end.

(** A chain of [n] links, [/root/x -> ./xx -> ./xxx -> ...], that ends at
    a file. *)
Definition chain (n : nat) : HostFS :=
  hostOf (map (fun k => ("/root/" ++ xs k, "./" ++ xs (S k))%string)
              (List.seq 1 n))
         ["/root"; ("/root/" ++ xs (S n))%string].

(** [/root/out -> /etc]: an absolute link that leaves the base. *)
Definition escape : HostFS :=
  hostOf [("/root/out", "/etc")] ["/"; "/root"; "/etc"].

(** Nothing but [/root] and the directory [/root/d]. *)
Definition plain : HostFS := hostOf [] ["/root"; "/root/d"].

(** A stand-in for [path.dirname], [path.resolve], [path.relative] and the
    virtual [join], good for paths under the base directory. *)
Definition stripBase (from to : string) : string :=
  if JS.startsWith to (from ++ "/") then JS.slice to (String.length from + 1)
  else if String.eqb to from then "" else to.

#[global] Instance pathExtra : PathExtra :=
  {| dirname := fun path => dir (Posix.parse path);
     resolve := fun from to =>
       if Posix.isAbsolute to then Posix.normalize to
       else Posix.normalize (from ++ "/" ++ to);
     relative := stripBase;
     vfsPath_join := fun first rest => Posix.join (first :: rest) |}.

End Sample.

(* ===================================================================== *)
(** ** Vocabulary of the statements *)
(* ===================================================================== *)

Section Vocabulary.

Context {PL : PathLib} {FS : HostFS}.
Variable _base : string.

(** A path is inside the jail when it is the base directory or continues
    it with a separator. *)
Definition in_jail (R : string) : Prop :=
  R = _base \/ exists rest, R = (_base ++ sepStr ++ rest)%string.

(** The variables with which [_validatePath] enters its loop. *)
Definition entry (src : list string) : Vars.t :=
  Vars.mk _base true 0 src 0 [].

(** The state a pass through the body leaves. *)
Definition flowState (f : Flow) : Vars.t :=
  match f with
  | Next st | Break st | ReturnNull st | Raise _ st => st
  end.

(** A logged call that read a symbolic link: a [readlink] the host
    answered with a target. *)
Definition readsLink (c : HostCall) : bool :=
  match c with
  | CallReadlink path =>
      match readlink path with
      | Resolved _ => true
      | Rejected _ => false
      end
  | _ => false
  end.

(** The symbolic links read in a log. *)
Definition symlinksRead (log : list HostCall) : nat :=
  List.length (filter readsLink log).

(** What [_exists] tries: full resolution, then [stat]. *)
Definition resolveAndStat (file : list string) : Op bool :=
  path <- _fsPath _base file true ;;
  _ <- host (CallStat path) (stat path) ;;
  ret true.

(** What [_symlink] hands to the host as the target of the link. *)
Definition storedTarget (target : list string) (relative : bool) : string :=
  if relative then JS.join sepStr target
  else (_base ++ sepStr ++ JS.join sepStr target)%string.

(** An error of the canonical vocabulary with the given code. *)
Definition canonical (code : string) (e : JsError) : Prop :=
  instanceofVFSError e = true /\ err_code e = Some code.

End Vocabulary.

Section WatchVocabulary.

Context {PL : PathLib} {PE : PathExtra}.
Variable _base : string.

(** The events a log of deliveries hands to the [fire] of one
    registration, in order. *)
Definition firedAt (id : nat) (ds : list Delivery) : list WatchEvent :=
  flat_map (fun d =>
              match d with
              | Fire cb evt => if Nat.eqb cb id then [evt] else []
              | Err _ _ => []
              end) ds.

(** The virtual presentation of a real path of the same volume. *)
Definition presentation (absolute : bool) (src : string) : string :=
  vfsPath_join (if absolute then "/" else ".")
               (JS.split sep (relative _base src)).

(** What one registration is to receive for one native event, in the
    words of the specification: the absolute form if the predicate
    matches it; failing that, the relative form if the predicate matches
    it; failing that, nothing. *)
Definition owed (cb : WatchCallback) (event : WatchEvent) : list WatchEvent :=
  let absPath := presentation true (ev_path event) in
  let relPath := presentation false (ev_path event) in
  if isMatch cb absPath then [mkEvent absPath (ev_type event)]
  else if isMatch cb relPath then [mkEvent relPath (ev_type event)]
  else [].

End WatchVocabulary.

(** The native subscriptions a handle stands for. *)
Definition held (watcher : option nat) : list nat :=
  match watcher with
  | Some h => [h]
  | None => []
  end.

(* ===================================================================== *)
(** * Properties *)
(* ===================================================================== *)

(** ** Strings *)

Lemma startsWith_app pre rest : JS.startsWith (pre ++ rest) pre = true.
Proof.
  induction pre as [|a pre IH]; simpl; [reflexivity|].
  rewrite Ascii.eqb_refl. exact IH.
Qed.

Lemma startsWith_split s pre :
  JS.startsWith s pre = true ->
  s = (pre ++ JS.slice s (String.length pre))%string.
Proof.
  revert s. induction pre as [|a pre IH]; intros s H; simpl in *.
  - reflexivity.
  - destruct s as [|b s]; [discriminate|].
    apply andb_true_iff in H as [Hab Hs].
    apply Ascii.eqb_eq in Hab. subst b. simpl.
    f_equal. apply IH, Hs.
Qed.

Lemma slice_app pre rest :
  JS.slice (pre ++ rest) (String.length pre) = rest.
Proof.
  induction pre as [|a pre IH]; simpl; [reflexivity|exact IH].
Qed.

Lemma strlen_app (a b : string) :
  String.length (a ++ b) = String.length a + String.length b.
Proof. induction a as [|c a IH]; simpl; [reflexivity|]. now rewrite IH. Qed.

Lemma app_empty_r (a : string) : (a ++ "")%string = a.
Proof. induction a as [|c a IH]; simpl; [reflexivity|]. now rewrite IH. Qed.

Lemma app_assoc_s (a b c : string) :
  ((a ++ b) ++ c)%string = (a ++ b ++ c)%string.
Proof. induction a as [|x a IH]; simpl; [reflexivity|]. now rewrite IH. Qed.

Lemma charAt_app pre rest :
  JS.charAt (pre ++ rest) (String.length pre) = JS.charAt rest 0.
Proof.
  unfold JS.charAt. induction pre as [|a pre IH]; simpl; [reflexivity|].
  exact IH.
Qed.

(** ** The jail *)

Section Jail.

Context {PL : PathLib}.
Variable _base : string.

Lemma locOK_in_jail p : _locOK _base p = true <-> in_jail _base p.
Proof.
  unfold _locOK, in_jail. split.
  - intros H. apply andb_true_iff in H as [Hpre Hnext].
    apply startsWith_split in Hpre.
    set (rest := JS.slice p (String.length _base)) in *.
    apply orb_true_iff in Hnext as [Hlen|Hch].
    + left. apply Nat.eqb_eq in Hlen.
      rewrite Hpre, strlen_app in Hlen.
      destruct rest; simpl in Hlen; [|lia].
      now rewrite app_empty_r in Hpre.
    + right. rewrite Hpre, charAt_app in Hch.
      destruct rest as [|c rest']; [discriminate|]. simpl in Hch.
      apply Ascii.eqb_eq in Hch. subst c.
      exists rest'. exact Hpre.
  - intros [->|[rest ->]]; apply andb_true_iff; split.
    + rewrite <- (app_empty_r _base) at 1. apply startsWith_app.
    + now rewrite Nat.eqb_refl.
    + apply startsWith_app.
    + apply orb_true_iff. right. rewrite charAt_app. simpl.
      apply Ascii.eqb_refl.
Qed.

End Jail.

(** ** The loop *)

Section LoopFacts.

Context {PL : PathLib} {FS : HostFS}.
Variable _base : string.
Variable thruLast : bool.

(** Case analysis of [body] in a hypothesis. *)
Ltac body_cases H :=
  unfold body in H;
  repeat match type of H with
         | context [match ?x with _ => _ end] =>
             match x with
             | readlink _ => destruct x as [?linkPath|[?text|[?n ?m ?c|?m ?c ?k]]]
             | _ => destruct x eqn:?
             end
         end.

Lemma body_Next_cases st st' :
  body _base thruLast st = Next st' ->
  (Vars.depth st' = Vars.depth st /\ Vars.src st' = Vars.src st /\
   Vars.i st' = Vars.i st) \/
  (Vars.depth st' = S (Vars.depth st) /\ Vars.depth st' <= 40 /\
   Vars.i st' = 0).
Proof.
  intros H. body_cases H; inversion H; subst; clear H; simpl;
    try (left; repeat split; reflexivity);
    right; repeat split;
    match goal with
    | E : (40 <? _)%nat = false |- _ => apply Nat.ltb_ge in E; exact E
    end.
Qed.

Lemma walk_O hops st : walk _base thruLast hops 0 st = (Exit, st).
Proof. destruct hops; reflexivity. Qed.

Lemma walk_S hops todo st :
  walk _base thruLast hops (S todo) st =
  match body _base thruLast st with
  | Next st' =>
      if Nat.eqb (Vars.depth st') (Vars.depth st)
      then walk _base thruLast hops todo (incr st')
      else
        match hops with
        | O => (Exit, st')
        | S hops' =>
            walk _base thruLast hops'
                 (List.length (Vars.src st') - 1) (incr st')
        end
  | Break st' => (Exit, st')
  | ReturnNull st' => (Null, st')
  | Raise e st' => (Thrown e, st')
  end.
Proof. destruct hops; reflexivity. Qed.

(** The loop, as the [for] statement reads. *)
Lemma loop_eq st :
  loop _base thruLast st =
  if (Vars.i st <? List.length (Vars.src st))%nat then
    match body _base thruLast st with
    | Next st' => loop _base thruLast (incr st')
    | Break st' => (Exit, st')
    | ReturnNull st' => (Null, st')
    | Raise e st' => (Thrown e, st')
    end
  else (Exit, st).
Proof.
  unfold loop at 1.
  destruct (List.length (Vars.src st) - Vars.i st) as [|todo'] eqn:Htodo.
  - assert (Hge : (Vars.i st <? List.length (Vars.src st))%nat = false)
      by (apply Nat.ltb_ge; lia).
    rewrite Hge. apply walk_O.
  - assert (Hlt : (Vars.i st <? List.length (Vars.src st))%nat = true)
      by (apply Nat.ltb_lt; lia).
    rewrite Hlt, walk_S.
    destruct (body _base thruLast st) as [st'|st'|st'|e st'] eqn:Hb;
      try reflexivity.
    destruct (body_Next_cases _ _ Hb) as [(Hd & Hs & Hi)|(Hd & Hle & Hi)].
    + rewrite Hd, Nat.eqb_refl. unfold loop, incr.
      cbn [Vars.depth Vars.src Vars.i]. rewrite Hd, Hs, Hi.
      replace (List.length (Vars.src st) - S (Vars.i st)) with todo' by lia.
      reflexivity.
    + replace (Vars.depth st' =? Vars.depth st)%nat with false
        by (symmetry; apply Nat.eqb_neq; lia).
      replace (41 - Vars.depth st) with (S (41 - Vars.depth st')) by lia.
      unfold loop, incr. cbn [Vars.depth Vars.src Vars.i].
      rewrite Hi. reflexivity.
Qed.

(** Induction along the passes of the loop. *)
Lemma loop_ind (P : Vars.t -> Completion * Vars.t -> Prop) :
  (forall st, List.length (Vars.src st) <= Vars.i st -> P st (Exit, st)) ->
  (forall st st', Vars.i st < List.length (Vars.src st) ->
                  body _base thruLast st = Next st' ->
                  P (incr st') (loop _base thruLast (incr st')) ->
                  P st (loop _base thruLast (incr st'))) ->
  (forall st st', Vars.i st < List.length (Vars.src st) ->
                  body _base thruLast st = Break st' -> P st (Exit, st')) ->
  (forall st st', Vars.i st < List.length (Vars.src st) ->
                  body _base thruLast st = ReturnNull st' ->
                  P st (Null, st')) ->
  (forall st e st', Vars.i st < List.length (Vars.src st) ->
                    body _base thruLast st = Raise e st' ->
                    P st (Thrown e, st')) ->
  forall st, P st (loop _base thruLast st).
Proof.
  intros Hexit Hnext Hbreak Hnull Hraise.
  assert (G : forall hops todo st,
             41 - Vars.depth st = hops ->
             List.length (Vars.src st) - Vars.i st = todo ->
             P st (loop _base thruLast st)).
  { induction hops as [|hops IHh]; induction todo as [|todo IHt];
      intros st Hh Ht; rewrite loop_eq.
    all: destruct (Vars.i st <? List.length (Vars.src st))%nat eqn:Hlt;
      [apply Nat.ltb_lt in Hlt | apply Nat.ltb_ge in Hlt; now apply Hexit].
    all: try lia.
    all: destruct (body _base thruLast st) as [st'|st'|st'|e st'] eqn:Hb;
      [ | now apply Hbreak | now apply Hnull | now apply Hraise ].
    all: apply Hnext; [assumption|assumption|].
    all: destruct (body_Next_cases _ _ Hb) as [(Hd & Hs & Hi)|(Hd & Hle & Hi)].
    all: first
      [ lia
      | apply IHt; unfold incr; cbn [Vars.depth Vars.src Vars.i];
        rewrite ?Hs; lia
      | eapply IHh;
        [ unfold incr; cbn [Vars.depth Vars.src Vars.i]; lia | reflexivity ] ]. }
  intros st. eapply G; reflexivity.
Qed.

End LoopFacts.

(** ** C1: what the resolver returns lies in the jail *)

Section Containment.

Context {PL : PathLib} {FS : HostFS}.
Variable _base : string.

Lemma validatePath_unfold src thruLast :
  _validatePath _base src thruLast =
  match loop _base thruLast (entry _base src) with
  | (Exit, st) =>
      (Vars.log st,
       Ok (if _locOK _base (Vars.p st) then Some (Vars.p st) else None))
  | (Null, st) => (Vars.log st, Ok None)
  | (Thrown e, st) => (Vars.log st, Throw e)
  end.
Proof.
  unfold _validatePath, entry.
  destruct (loop _ _ _) as [[| |e] st]; reflexivity.
Qed.

(** C1.  Whatever list of segments is resolved, and whether or not the
    last symlink is to be followed: a path that [_validatePath] or
    [_fsPath] returns is the base directory or continues it with a
    separator; and when the loop of [_validatePath] ends without a throw
    and with its running path outside of that set, [_fsPath] throws the
    error with code [EINVAL] instead. *)
Theorem fsPath_stays_in_jail (src : list string) (thruLast : bool) :
  (forall R, outcome (_validatePath _base src thruLast) = Ok (Some R) ->
             in_jail _base R) /\
  (forall R, outcome (_fsPath _base src thruLast) = Ok R ->
             in_jail _base R) /\
  (forall c st, src <> [] ->
                loop _base thruLast (entry _base src) = (c, st) ->
                (forall e, c <> Thrown e) ->
                ~ in_jail _base (Vars.p st) ->
                outcome (_fsPath _base src thruLast) = Throw outsideBase) /\
  err_code outsideBase = Some "EINVAL".
Proof.
  split; [|split; [|split; [|reflexivity]]].
  - intros R. rewrite validatePath_unfold.
    destruct (loop _ _ _) as [[| |e] st]; simpl; try discriminate.
    destruct (_locOK _base (Vars.p st)) eqn:Hok; [|discriminate].
    intros H. inversion H; subst. now apply locOK_in_jail.
  - intros R. destruct src as [|s src'].
    + simpl. intros H. inversion H. now left.
    + unfold _fsPath, bind. rewrite validatePath_unfold.
      destruct (loop _ _ _) as [[| |e] st]; simpl.
      * destruct (_locOK _base (Vars.p st)) eqn:Hok; simpl.
        -- destruct (Vars.p st) eqn:Hp; simpl; [discriminate|].
           intros H. inversion H; subst. now apply locOK_in_jail.
        -- discriminate.
      * discriminate.
      * discriminate.
  - intros c st Hne Hloop Hc Hout. destruct src as [|s src']; [congruence|].
    unfold _fsPath, bind. rewrite validatePath_unfold, Hloop.
    destruct c as [| |e]; [| reflexivity | now elim (Hc e)].
    destruct (_locOK _base (Vars.p st)) eqn:Hok.
    + apply locOK_in_jail in Hok. contradiction.
    + reflexivity.
Qed.

End Containment.

Lemma fsPath_stays_in_jail_witness :
  in_jail "/root" "/root/file.txt" /\
  outcome (_fsPath (FS := Sample.escape) "/root" ["out"] true)
  = Throw outsideBase.
Proof.
  split.
  - apply (proj1 (proj2 (fsPath_stays_in_jail (FS := Sample.linkToSub)
                           "/root" ["link"; "file.txt"] true))).
    vm_compute. reflexivity.
  - eapply (proj1 (proj2 (proj2 (fsPath_stays_in_jail (FS := Sample.escape)
                                   "/root" ["out"] true)))).
    + discriminate.
    + vm_compute. reflexivity.
    + discriminate.
    + intros H. apply locOK_in_jail in H. vm_compute in H. discriminate.
Defined.

(** ** C10: the empty segment list *)

Section EmptyPath.

Context {PL : PathLib} {FS : HostFS}.
Variable _base : string.

(** C10.  Resolving the empty list of segments returns the base directory
    itself, in either mode, without a single call to the host filesystem:
    no link is read and no hop is counted. *)
Theorem fsPath_empty (throughLast : bool) :
  outcome (_fsPath _base [] throughLast) = Ok _base /\
  calls (_fsPath _base [] throughLast) = [] /\
  symlinksRead (calls (_fsPath _base [] throughLast)) = 0.
Proof. repeat split. Qed.

End EmptyPath.

(** ** C4: error normalization *)

Lemma slice_code_prefix c rest :
  JS.slice (c ++ ": " ++ rest) (String.length c + 2) = rest.
Proof.
  rewrite <- app_assoc_s.
  replace (String.length c + 2) with (String.length (c ++ ": ")%string)
    by (rewrite strlen_app; reflexivity).
  apply slice_app.
Qed.

Lemma startsWith_code_prefix c rest :
  JS.startsWith (c ++ ": " ++ rest) (c ++ ": ") = true.
Proof. rewrite <- app_assoc_s. apply startsWith_app. Qed.

(** C4.  [wrapVFSErr] returns an [AbortError] and a [VFSError] as they
    are.  Of any other error whose code is one of the canonical codes it
    keeps the code, drops a leading ["<code>: "] from the message (and
    leaves a message without that prefix alone), and chains the error as
    cause.  Any other error becomes [EUNKNOWN] with its message kept and
    itself as cause.  The [ENOENT] example of the specification comes out
    as stated. *)
Theorem wrapVFSErr_normalizes :
  (forall e, err_name e = "AbortError" -> wrapVFSErr (AnError e) = e) /\
  (forall e, err_name e = "VFSError" -> wrapVFSErr (AnError e) = e) /\
  (forall e c rest,
      err_name e <> "AbortError" -> err_name e <> "VFSError" ->
      err_code e = Some c -> allowed c = true ->
      err_message e = (c ++ ": " ++ rest)%string ->
      wrapVFSErr (AnError e) = VFSError rest (Some c) (Some e)) /\
  (forall e c,
      err_name e <> "AbortError" -> err_name e <> "VFSError" ->
      err_code e = Some c -> allowed c = true ->
      JS.startsWith (err_message e) (c ++ ": ") = false ->
      wrapVFSErr (AnError e) = VFSError (err_message e) (Some c) (Some e)) /\
  (forall e,
      err_name e <> "AbortError" -> err_name e <> "VFSError" ->
      (forall c, err_code e = Some c -> allowed c = false) ->
      wrapVFSErr (AnError e)
      = VFSError (err_message e) (Some "EUNKNOWN") (Some e)) /\
  wrapVFSErr
    (AnError (HostError "Error"
       "ENOENT: no such file or directory, stat '/root/x'" (Some "ENOENT")))
  = VFSError "no such file or directory, stat '/root/x'" (Some "ENOENT")
      (Some (HostError "Error"
         "ENOENT: no such file or directory, stat '/root/x'"
         (Some "ENOENT"))).
Proof.
  repeat split.
  - intros e H. unfold wrapVFSErr, JS.seq. rewrite H. reflexivity.
  - intros e H. unfold wrapVFSErr, JS.seq. rewrite H.
    destruct ("VFSError" =? "AbortError")%string; reflexivity.
  - intros e c rest Ha Hv Hc Hal Hm. unfold wrapVFSErr, JS.seq.
    apply String.eqb_neq in Ha, Hv. rewrite Ha, Hv, Hc, Hal, Hm.
    rewrite startsWith_code_prefix, slice_code_prefix. reflexivity.
  - intros e c Ha Hv Hc Hal Hm. unfold wrapVFSErr, JS.seq.
    apply String.eqb_neq in Ha, Hv. rewrite Ha, Hv, Hc, Hal, Hm. reflexivity.
  - intros e Ha Hv Hc. unfold wrapVFSErr, JS.seq.
    apply String.eqb_neq in Ha, Hv. rewrite Ha, Hv.
    destruct (err_code e) as [c|]; [|reflexivity].
    rewrite (Hc c eq_refl). reflexivity.
Qed.

Lemma wrapVFSErr_normalizes_witness :
  wrapVFSErr (AnError (HostError "AbortError" "aborted" (Some "ABORT_ERR")))
  = HostError "AbortError" "aborted" (Some "ABORT_ERR") /\
  wrapVFSErr (AnError (VFSError "too many symlinks" (Some "EINVAL") None))
  = VFSError "too many symlinks" (Some "EINVAL") None /\
  wrapVFSErr (AnError (HostError "Error" "EPERM: denied" (Some "EPERM")))
  = VFSError "denied" (Some "EPERM")
             (Some (HostError "Error" "EPERM: denied" (Some "EPERM"))) /\
  wrapVFSErr (AnError (HostError "Error" "denied" (Some "EPERM")))
  = VFSError "denied" (Some "EPERM")
             (Some (HostError "Error" "denied" (Some "EPERM"))) /\
  wrapVFSErr (AnError (HostError "Error" "EIO: i/o error" (Some "EIO")))
  = VFSError "EIO: i/o error" (Some "EUNKNOWN")
             (Some (HostError "Error" "EIO: i/o error" (Some "EIO"))).
Proof.
  destruct wrapVFSErr_normalizes as (Ha & Hv & Hstrip & Hkeep & Hunk & _).
  refine (conj _ (conj _ (conj _ (conj _ _)))).
  - apply Ha. reflexivity.
  - apply Hv. reflexivity.
  - apply (Hstrip (HostError "Error" "EPERM: denied" (Some "EPERM"))
                  "EPERM" "denied"); try reflexivity; discriminate.
  - apply (Hkeep (HostError "Error" "denied" (Some "EPERM")) "EPERM");
      try reflexivity; discriminate.
  - apply (Hunk (HostError "Error" "EIO: i/o error" (Some "EIO")));
      try discriminate.
    intros c H. inversion H. reflexivity.
Defined.

(** ** C3: the hop counter *)

Section Hops.

Context {PL : PathLib} {FS : HostFS}.
Variable _base : string.
Variable thruLast : bool.

Lemma symlinksRead_app l1 l2 :
  symlinksRead (l1 ++ l2) = symlinksRead l1 + symlinksRead l2.
Proof. unfold symlinksRead. now rewrite filter_app, List.length_app. Qed.

(** What one pass does to the log and to the counter. *)
Lemma body_effect st :
  let f := body _base thruLast st in
  exists l,
    Vars.log (flowState f) = Vars.log st ++ l /\
    Vars.depth (flowState f) = Vars.depth st + symlinksRead l /\
    (Vars.depth st <= 40 ->
     Vars.depth (flowState f) <= 41 /\
     (40 < Vars.depth (flowState f) ->
      f = Raise tooManySymlinks (flowState f))).
Proof.
  unfold body.
  destruct (JS.seq (nth (Vars.i st) (Vars.src st) "") "..").
  - exists []. change (symlinksRead []) with 0.
    destruct (_ && _); simpl; rewrite app_nil_r; repeat split; lia.
  - set (child := childOf (Vars.p st) (nth (Vars.i st) (Vars.src st) "")).
    exists [CallReadlink child].
    assert (Hone : symlinksRead [CallReadlink child] =
                   match readlink child with
                   | Resolved _ => 1
                   | Rejected _ => 0
                   end).
    { unfold symlinksRead. simpl. destruct (readlink child); reflexivity. }
    rewrite Hone.
    destruct (readlink child) as [linkPath|err].
    + destruct (40 <? S (Vars.depth st))%nat eqn:Hd.
      * simpl. repeat split; lia.
      * apply Nat.ltb_ge in Hd.
        destruct (negb thruLast && _); [simpl; repeat split; lia|].
        destruct (isAbsolute linkPath); simpl; repeat split; lia.
    + destruct err as [text|[n m c|m c k]]; simpl;
        repeat match goal with
               | |- context [if ?b then _ else _] => destruct b
               end; simpl; repeat split; lia.
Qed.

(** The counter over the whole loop: it grows by the links read, stops at
    41, and reaching 41 is the throw of [tooManySymlinks]. *)
Lemma loop_counts st :
  Vars.depth st <= 40 ->
  (exists l, Vars.log (snd (loop _base thruLast st)) = Vars.log st ++ l /\
             Vars.depth (snd (loop _base thruLast st))
             = Vars.depth st + symlinksRead l) /\
  Vars.depth (snd (loop _base thruLast st)) <= 41 /\
  (40 < Vars.depth (snd (loop _base thruLast st)) ->
   fst (loop _base thruLast st) = Thrown tooManySymlinks).
Proof.
  set (P := fun (st : Vars.t) (r : Completion * Vars.t) =>
              Vars.depth st <= 40 ->
              (exists l, Vars.log (snd r) = Vars.log st ++ l /\
                         Vars.depth (snd r) = Vars.depth st + symlinksRead l) /\
              Vars.depth (snd r) <= 41 /\
              (40 < Vars.depth (snd r) -> fst r = Thrown tooManySymlinks)).
  change (P st (loop _base thruLast st)).
  apply loop_ind; clear st; unfold P; clear P.
  - intros st _ Hd. cbn [fst snd]. split; [|split; [lia|lia]].
    exists []. rewrite app_nil_r. split; [reflexivity|].
    change (symlinksRead []) with 0. lia.
  - intros st st' Hlt Hb IH Hd.
    destruct (body_effect st) as (l1 & Hl1 & Hd1 & Hbound).
    rewrite Hb in Hl1, Hd1. cbn [flowState] in Hl1, Hd1.
    assert (Hd' : Vars.depth (incr st') <= 40).
    { destruct (body_Next_cases _ _ _ _ Hb) as [(E & _)|(_ & E & _)];
        unfold incr; cbn [Vars.depth]; lia. }
    destruct (IH Hd') as ((l2 & Hl2 & Hd2) & Hle & Hthrow).
    change (Vars.log (incr st')) with (Vars.log st') in Hl2.
    change (Vars.depth (incr st')) with (Vars.depth st') in Hd2.
    split; [|split; assumption].
    exists (l1 ++ l2).
    split.
    + rewrite Hl2, Hl1. symmetry. apply app_assoc.
    + rewrite Hd2, Hd1, symlinksRead_app. lia.
  - intros st st' Hlt Hb Hd.
    destruct (body_effect st) as (l1 & Hl1 & Hd1 & Hbound).
    rewrite Hb in Hl1, Hd1, Hbound. cbn [flowState fst snd] in *.
    destruct (Hbound Hd) as [Hle Hthrow].
    split; [exists l1; now split|]. split; [exact Hle|].
    intros H. specialize (Hthrow H). discriminate.
  - intros st st' Hlt Hb Hd.
    destruct (body_effect st) as (l1 & Hl1 & Hd1 & Hbound).
    rewrite Hb in Hl1, Hd1, Hbound. cbn [flowState fst snd] in *.
    destruct (Hbound Hd) as [Hle Hthrow].
    split; [exists l1; now split|]. split; [exact Hle|].
    intros H. specialize (Hthrow H). discriminate.
  - intros st e st' Hlt Hb Hd.
    destruct (body_effect st) as (l1 & Hl1 & Hd1 & Hbound).
    rewrite Hb in Hl1, Hd1, Hbound. cbn [flowState fst snd] in *.
    destruct (Hbound Hd) as [Hle Hthrow].
    split; [exists l1; now split|]. split; [exact Hle|].
    intros H. specialize (Hthrow H). inversion Hthrow. reflexivity.
Qed.

End Hops.

Section HopLimit.

Context {PL : PathLib} {FS : HostFS}.
Variable _base : string.

Lemma fsPath_of_loop s src thruLast :
  calls (_fsPath _base (s :: src) thruLast)
  = Vars.log (snd (loop _base thruLast (entry _base (s :: src)))) /\
  (forall e, fst (loop _base thruLast (entry _base (s :: src))) = Thrown e ->
             outcome (_fsPath _base (s :: src) thruLast) = Throw e).
Proof.
  unfold _fsPath, bind. rewrite validatePath_unfold.
  destruct (loop _ _ _) as [[| |e] st]; cbn [fst snd].
  - destruct (_locOK _base (Vars.p st)); [destruct (Vars.p st)|];
      simpl; rewrite app_nil_r; split; try reflexivity; discriminate.
  - simpl. rewrite app_nil_r. split; [reflexivity|discriminate].
  - simpl. split; [reflexivity|]. intros e' H. inversion H. reflexivity.
Qed.

(** C3.  [loop] is a total function that unfolds as the [for] statement
    does, so every resolution ends.  The counter [depth] starts at 0 in
    each call and ends as the number of symbolic links the call has read;
    a call never reads more than 41, and a call that reads more than 40
    throws [tooManySymlinks], whose code is [EINVAL], whatever the links
    look like. *)
Theorem hop_limit (src : list string) (thruLast : bool) :
  (forall st,
      loop _base thruLast st =
      if (Vars.i st <? List.length (Vars.src st))%nat then
        match body _base thruLast st with
        | Next st' => loop _base thruLast (incr st')
        | Break st' => (Exit, st')
        | ReturnNull st' => (Null, st')
        | Raise e st' => (Thrown e, st')
        end
      else (Exit, st)) /\
  Vars.depth (entry _base src) = 0 /\
  Vars.depth (snd (loop _base thruLast (entry _base src)))
  = symlinksRead (Vars.log (snd (loop _base thruLast (entry _base src)))) /\
  symlinksRead (calls (_fsPath _base src thruLast)) <= 41 /\
  (40 < symlinksRead (calls (_fsPath _base src thruLast)) ->
   outcome (_fsPath _base src thruLast) = Throw tooManySymlinks) /\
  err_code tooManySymlinks = Some "EINVAL".
Proof.
  assert (H0 : Vars.depth (entry _base src) <= 40) by (simpl; lia).
  destruct (loop_counts _base thruLast (entry _base src) H0)
    as ((l & Hl & Hd) & Hle & Hthrow).
  cbn [entry Vars.log Vars.depth app] in Hl, Hd.
  assert (Hcount : Vars.depth (snd (loop _base thruLast (entry _base src)))
                   = symlinksRead
                       (Vars.log (snd (loop _base thruLast (entry _base src)))))
    by (rewrite Hl, Hd; reflexivity).
  split; [apply loop_eq|]. split; [reflexivity|]. split; [exact Hcount|].
  destruct src as [|s src'].
  - split; [simpl; unfold symlinksRead; simpl; lia|].
    split; [|reflexivity]. simpl. unfold symlinksRead. simpl. lia.
  - destruct (fsPath_of_loop s src' thruLast) as [Hcalls Hout].
    rewrite Hcalls, <- Hcount.
    split; [exact Hle|]. split; [|reflexivity].
    intros H. apply Hout, Hthrow, H.
Qed.

End HopLimit.

(** A link to itself, a pair of links to each other and a chain of 41
    links all end in [tooManySymlinks]. *)
Lemma hop_limit_witness :
  outcome (_fsPath (FS := Sample.selfLoop) "/root" ["a"] true)
  = Throw tooManySymlinks /\
  outcome (_fsPath (FS := Sample.mutualPair) "/root" ["a"; "f"] false)
  = Throw tooManySymlinks /\
  outcome (_fsPath (FS := Sample.chain 41) "/root" ["x"] true)
  = Throw tooManySymlinks.
Proof.
  refine (conj _ (conj _ _)).
  - apply (hop_limit (FS := Sample.selfLoop) "/root" ["a"] true).
    apply Nat.ltb_lt. vm_compute. reflexivity.
  - apply (hop_limit (FS := Sample.mutualPair) "/root" ["a"; "f"] false).
    apply Nat.ltb_lt. vm_compute. reflexivity.
  - apply (hop_limit (FS := Sample.chain 41) "/root" ["x"] true).
    apply Nat.ltb_lt. vm_compute. reflexivity.
Defined.

(** A chain of exactly 40 links is still followed to its end. *)
Example chain_of_40_resolves :
  outcome (_fsPath (FS := Sample.chain 40) "/root" ["x"] true)
  = Ok ("/root/" ++ Sample.xs 41)%string.
Proof. vm_compute. reflexivity. Qed.

(** ** C2: a relative link target *)

Section RelativeLink.

Context {PL : PathLib} {FS : HostFS}.
Variable _base : string.
Variable thruLast : bool.

(** Following a relative link: the target's segments are put in front of
    the pending ones and [i] is set to 0; the [++i] of the [for] statement
    then moves past the first of them, so the loop goes on at index 1 with
    the running path unchanged. *)
Lemma relative_link_resumes_at_1 st seg target :
  Vars.i st < List.length (Vars.src st) ->
  nth (Vars.i st) (Vars.src st) "" = seg ->
  JS.seq seg ".." = false ->
  readlink (childOf (Vars.p st) seg) = Resolved target ->
  Vars.depth st < 40 ->
  negb thruLast && Nat.eqb (Vars.i st) (List.length (Vars.src st) - 1)
  = false ->
  isAbsolute target = false ->
  loop _base thruLast st =
  loop _base thruLast
       (Vars.mk (Vars.p st) true (S (Vars.depth st))
                (JS.split sep target ++ skipn (S (Vars.i st)) (Vars.src st))
                1
                (Vars.log st ++ [CallReadlink (childOf (Vars.p st) seg)])).
Proof.
  intros Hlt Hseg Hdots Hlink Hd Hlast Habs.
  rewrite loop_eq. apply Nat.ltb_lt in Hlt. rewrite Hlt.
  unfold body. rewrite Hseg, Hdots, Hlink.
  replace (40 <? S (Vars.depth st))%nat with false
    by (symmetry; apply Nat.ltb_ge; lia).
  rewrite Hlast, Habs. reflexivity.
Qed.

End RelativeLink.

(** C2, at the input of the claim.  With base [/root] and the link
    [/root/link -> sub], resolving [link, file.txt] reads the link, skips
    the segment [sub] of its target and returns [/root/file.txt], not
    [/root/sub/file.txt]. *)
Theorem relative_link_scenario :
  _fsPath (FS := Sample.linkToSub) "/root" ["link"; "file.txt"] true
  = ([CallReadlink "/root/link"; CallReadlink "/root/file.txt"],
     Ok "/root/file.txt") /\
  outcome (_fsPath (FS := Sample.linkToSub) "/root" ["link"; "file.txt"] true)
  <> Ok "/root/sub/file.txt".
Proof. split; [vm_compute; reflexivity | vm_compute; discriminate]. Qed.

(** The same skip makes a link to its own name end the resolution at the
    base directory after one hop. *)
Example link_to_own_name :
  _fsPath (FS := Sample.hostOf [("/root/a", "a")] ["/root"]) "/root" ["a"] true
  = ([CallReadlink "/root/a"], Ok "/root").
Proof. vm_compute. reflexivity. Qed.

(** A link whose target starts with [./] loses only that segment and is
    followed to where it points. *)
Example dotted_relative_link :
  outcome (_fsPath (FS := Sample.hostOf [("/root/link", "./sub")]
                                        ["/root"; "/root/sub";
                                         "/root/sub/file.txt"])
                   "/root" ["link"; "file.txt"] true)
  = Ok "/root/sub/file.txt".
Proof. vm_compute. reflexivity. Qed.

(** [/root/a -> ../../etc]: resolving [a, b] is refused. *)
Example escaping_relative_link :
  outcome (_fsPath (FS := Sample.hostOf [("/root/a", "../../etc")] ["/root"])
                   "/root" ["a"; "b"] true)
  = Throw outsideBase.
Proof. vm_compute. reflexivity. Qed.

(** ** C6: acting on the link or on its target *)

(** C6, on the host with [/root/l -> t] and the file [/root/t].
    [_removeFile] and [_readSymlink] stop at the link: the first unlinks
    [/root/l], the second reads [/root/l] and returns its target as the
    virtual path [/t].  [_realPath] resolves through the link but hands
    the host [/root], the directory of the link, not [/root/t], and
    returns [/]. *)
Theorem link_or_target_scenario :
  _removeFile (FS := Sample.linkToFile) "/root" ["l"]
  = ([CallReadlink "/root/l"; CallUnlink "/root/l"], Ok tt) /\
  _readSymlink (FS := Sample.linkToFile) "/root" ["l"]
  = ([CallReadlink "/root/l"; CallReadlink "/root/l"], Ok "/t") /\
  _realPath (FS := Sample.linkToFile) "/root" ["l"]
  = ([CallReadlink "/root/l"; CallRealpath "/root"], Ok "/") /\
  _realPath (FS := Sample.linkToFile) "/root" ["t"]
  = ([CallReadlink "/root/t"; CallRealpath "/root/t"], Ok "/t").
Proof. repeat split. Qed.

Section LinkItself.

Context {PL : PathLib} {PE : PathExtra} {FS : HostFS}.
Variable _base : string.

(** A last segment that is a link, not followed: the resolver returns the
    path of the link. *)
Lemma fsPath_final_link seg target :
  JS.seq seg ".." = false ->
  readlink (childOf _base seg) = Resolved target ->
  _fsPath _base [seg] false
  = ([CallReadlink (childOf _base seg)],
     if _locOK _base (childOf _base seg)
     then match childOf _base seg with
          | EmptyString => Throw outsideBase
          | _ => Ok (childOf _base seg)
          end
     else Throw outsideBase).
Proof.
  intros Hdots Hlink.
  unfold _fsPath, bind. rewrite validatePath_unfold, loop_eq.
  unfold entry, body.
  cbn [Vars.i Vars.src Vars.p Vars.depth Vars.log Vars.strict nth].
  rewrite Hdots, Hlink. cbn.
  destruct (_locOK _base (childOf _base seg)); [|reflexivity].
  destruct (childOf _base seg); reflexivity.
Qed.

(** A link whose target is one relative segment, followed: the resolver
    returns the base directory, whatever the target is. *)
Lemma fsPath_through_link seg target :
  JS.seq seg ".." = false ->
  readlink (childOf _base seg) = Resolved target ->
  isAbsolute target = false ->
  JS.split sep target = [target] ->
  _base <> EmptyString ->
  _fsPath _base [seg] true = ([CallReadlink (childOf _base seg)], Ok _base).
Proof.
  intros Hdots Hlink Habs Hone Hbase.
  unfold _fsPath, bind. rewrite validatePath_unfold.
  unfold entry.
  rewrite (relative_link_resumes_at_1 _base true _ seg target);
    cbn [Vars.i Vars.src Vars.p Vars.depth Vars.log Vars.strict
         List.length nth skipn app];
    try reflexivity; try assumption; try lia.
  rewrite Hone, loop_eq. cbn.
  assert (Hok : _locOK _base _base = true)
    by (apply locOK_in_jail; now left).
  rewrite Hok. destruct _base; [congruence|reflexivity].
Qed.

End LinkItself.

(** ** C5: [_exists] *)

Section Exists.

Context {PL : PathLib} {FS : HostFS}.
Variable _base : string.

Lemma canonical_test code e :
  instanceofVFSError e && JS.oseq (err_code e) code = true <->
  canonical code e.
Proof.
  unfold canonical, JS.oseq. split.
  - intros H. apply andb_true_iff in H as [Hv Hc]. split; [exact Hv|].
    destruct (err_code e) as [c|]; [|discriminate].
    apply String.eqb_eq in Hc. now subst.
  - intros [Hv Hc]. rewrite Hv, Hc, String.eqb_refl. reflexivity.
Qed.

Lemma exists_of_attempt file :
  outcome (_exists _base file) =
  match outcome (resolveAndStat _base file) with
  | Ok b => Ok b
  | Throw e =>
      if instanceofVFSError e && JS.oseq (err_code e) "ENOENT"
      then Ok false else Throw e
  end.
Proof.
  unfold _exists, try_catch, outcome.
  change (path <- _fsPath _base file true;;
          _ <- host (CallStat path) (stat path);; ret true)
    with (resolveAndStat _base file).
  destruct (resolveAndStat _base file) as [t [b|e]]; [reflexivity|].
  cbn [snd].
  destruct (instanceofVFSError e && JS.oseq (err_code e) "ENOENT");
    reflexivity.
Qed.

Lemma attempt_value file b :
  outcome (resolveAndStat _base file) = Ok b -> b = true.
Proof.
  unfold resolveAndStat, bind, host, outcome.
  destruct (_fsPath _base file true) as [t [path|e]]; [|discriminate].
  destruct (withVFSErr (stat path)); simpl; [|discriminate].
  intros H. now inversion H.
Qed.

(** C5.  [_exists] answers [false] exactly when resolving the path in full
    and then calling [stat] throws a canonical error with code [ENOENT].
    Any other error thrown there, the [EINVAL] of a path outside the base
    directory among them, reaches the caller as it was thrown. *)
Theorem exists_false_iff_not_found (file : list string) :
  (outcome (_exists _base file) = Ok false <->
   exists e, outcome (resolveAndStat _base file) = Throw e /\
             canonical "ENOENT" e) /\
  (forall e, outcome (resolveAndStat _base file) = Throw e ->
             ~ canonical "ENOENT" e ->
             outcome (_exists _base file) = Throw e) /\
  (outcome (_fsPath _base file true) = Throw outsideBase ->
   outcome (_exists _base file) = Throw outsideBase).
Proof.
  rewrite exists_of_attempt. split; [|split].
  - split.
    + destruct (outcome (resolveAndStat _base file)) as [b|e] eqn:Ha.
      * intros H. inversion H; subst.
        apply attempt_value in Ha. discriminate.
      * destruct (_ && _) eqn:Ht; [|discriminate].
        intros _. exists e. split; [reflexivity|].
        now apply canonical_test.
    + intros (e & -> & Hc). apply canonical_test in Hc. now rewrite Hc.
  - intros e -> Hn.
    destruct (_ && _) eqn:Ht; [|reflexivity].
    apply canonical_test in Ht. contradiction.
  - intros H.
    assert (Ha : outcome (resolveAndStat _base file) = Throw outsideBase).
    { unfold resolveAndStat, bind, outcome in *.
      destruct (_fsPath _base file true) as [t [path|e]]; simpl in *;
        [discriminate|]. inversion H. reflexivity. }
    rewrite Ha. reflexivity.
Qed.

End Exists.

Lemma exists_false_iff_not_found_witness :
  outcome (_exists (FS := Sample.plain) "/root" ["nope"]) = Ok false /\
  outcome (_exists (FS := Sample.plain) "/root" ["d"; ".."; ".."])
  = Throw outsideBase /\
  outcome (_exists (FS := Sample.escape) "/root" ["out"]) = Throw outsideBase.
Proof.
  refine (conj _ (conj _ _)).
  - apply (proj1 (exists_false_iff_not_found (FS := Sample.plain)
                    "/root" ["nope"])).
    eexists. split; [vm_compute; reflexivity|]. split; reflexivity.
  - apply (proj1 (proj2 (exists_false_iff_not_found (FS := Sample.plain)
                           "/root" ["d"; ".."; ".."]))).
    + vm_compute. reflexivity.
    + intros [_ H]. discriminate.
  - apply (proj2 (proj2 (exists_false_iff_not_found (FS := Sample.escape)
                           "/root" ["out"]))).
    vm_compute. reflexivity.
Defined.

(** ** C9: [_symlink] *)

Section Symlink.

Context {PL : PathLib} {FS : HostFS}.
Variable _base : string.

(** C9.  When the path of the link resolves, [_symlink] makes one more
    host call: [symlink] with the target segments joined by the separator,
    as given for a relative target and after the base directory and a
    separator otherwise, and with the resolved path of the link.  The
    target is never resolved or checked: the outcome is the host's answer
    to that call, so the operation succeeds whenever the host accepts the
    link, wherever the target points. *)
Theorem symlink_stores_target (target link : list string) (relative : bool)
        (L : string) :
  outcome (_fsPath _base link true) = Ok L ->
  calls (_symlink _base target link relative)
  = calls (_fsPath _base link true)
    ++ [CallSymlink (storedTarget _base target relative) L] /\
  outcome (_symlink _base target link relative)
  = withVFSErr (symlink (storedTarget _base target relative) L) /\
  (symlink (storedTarget _base target relative) L = Resolved tt ->
   outcome (_symlink _base target link relative) = Ok tt).
Proof.
  intros HL.
  assert (Hstored :
            ((if relative then "" else _base ++ sepStr)
             ++ JS.join sepStr target)%string
            = storedTarget _base target relative).
  { unfold storedTarget. destruct relative; [reflexivity|].
    apply app_assoc_s. }
  unfold _symlink, bind, host, calls, outcome in *. rewrite Hstored.
  destruct (_fsPath _base link true) as [t [path|e]]; simpl in HL;
    [|discriminate].
  inversion HL; subst. simpl.
  split; [reflexivity|]. split; [reflexivity|].
  intros ->. reflexivity.
Qed.

End Symlink.

(** A link to [../../etc] is created; resolving through it later is
    refused. *)
Lemma symlink_stores_target_witness :
  (calls (_symlink (FS := Sample.plain) "/root" [".."; ".."; "etc"] ["esc"]
                   true)
   = [CallReadlink "/root/esc"; CallSymlink "../../etc" "/root/esc"] /\
   outcome (_symlink (FS := Sample.plain) "/root" [".."; ".."; "etc"] ["esc"]
                     true)
   = Ok tt) /\
  calls (_symlink (FS := Sample.plain) "/root" ["d"; "f"] ["esc"] false)
  = [CallReadlink "/root/esc"; CallSymlink "/root/d/f" "/root/esc"] /\
  outcome (_fsPath (FS := Sample.hostOf [("/root/esc", "../../etc")] ["/root"])
                   "/root" ["esc"; "passwd"] true)
  = Throw outsideBase.
Proof.
  assert (HL : outcome (_fsPath (FS := Sample.plain) "/root" ["esc"] true)
               = Ok "/root/esc") by (vm_compute; reflexivity).
  destruct (symlink_stores_target (FS := Sample.plain) "/root"
              [".."; ".."; "etc"] ["esc"] true "/root/esc" HL)
    as (Hcalls & _ & Hok).
  destruct (symlink_stores_target (FS := Sample.plain) "/root"
              ["d"; "f"] ["esc"] false "/root/esc" HL)
    as (Hcalls' & _ & _).
  refine (conj (conj _ _) (conj _ _)).
  - exact Hcalls.
  - apply Hok. reflexivity.
  - exact Hcalls'.
  - vm_compute. reflexivity.
Defined.

(** ** C7: the fan-out *)

Section FanOutFacts.

Context {PL : PathLib} {PE : PathExtra}.
Variable _base : string.

Lemma firedAt_app id ds1 ds2 :
  firedAt id (ds1 ++ ds2) = firedAt id ds1 ++ firedAt id ds2.
Proof. unfold firedAt. apply flat_map_app. Qed.

Lemma firedAt_notify id cb absEvt relEvt :
  firedAt id (notify cb absEvt relEvt) =
  if Nat.eqb (cb_id cb) id then
    if isMatch cb (ev_path absEvt) then [absEvt]
    else if isMatch cb (ev_path relEvt) then [relEvt] else []
  else [].
Proof.
  unfold notify.
  destruct (isMatch cb (ev_path absEvt)); [|destruct (isMatch cb (ev_path relEvt))];
    simpl; destruct (Nat.eqb (cb_id cb) id); reflexivity.
Qed.

(** Of the deliveries of the inner loop, a registration gets its own. *)
Lemma firedAt_inner cbs cb absEvt relEvt :
  NoDup (map cb_id cbs) -> In cb cbs ->
  firedAt (cb_id cb) (flat_map (fun c => notify c absEvt relEvt) cbs) =
  if isMatch cb (ev_path absEvt) then [absEvt]
  else if isMatch cb (ev_path relEvt) then [relEvt] else [].
Proof.
  induction cbs as [|c cbs IH]; intros Hnd Hin; [contradiction|].
  simpl in Hnd. inversion Hnd as [|x l Hnotin Hnd']; subst.
  simpl. rewrite firedAt_app, firedAt_notify.
  destruct Hin as [->|Hin].
  - rewrite Nat.eqb_refl.
    assert (Hrest : firedAt (cb_id cb)
                      (flat_map (fun c => notify c absEvt relEvt) cbs) = []).
    { clear IH Hnd Hnd'. induction cbs as [|c' cbs IH']; [reflexivity|].
      simpl. rewrite firedAt_app, firedAt_notify.
      destruct (Nat.eqb (cb_id c') (cb_id cb)) eqn:E.
      - apply Nat.eqb_eq in E. exfalso. apply Hnotin. simpl. now left.
      - simpl. apply IH'. intros H. apply Hnotin. simpl. now right. }
    rewrite Hrest, app_nil_r. reflexivity.
  - destruct (Nat.eqb (cb_id c) (cb_id cb)) eqn:E.
    + apply Nat.eqb_eq in E. exfalso. apply Hnotin. rewrite E.
      now apply in_map.
    + simpl. now apply IH.
Qed.

Lemma relPath_same_root src absolute :
  root (parse src) = _root _base ->
  _relPath _base src absolute = Ok (presentation _base absolute src).
Proof.
  intros H. unfold _relPath, JS.seq. rewrite H, String.eqb_refl. reflexivity.
Qed.

(** The method as such, called on the backend.  Take any registrations
    with distinct identities, one of them [cb], any native error, and any
    batch of events on the volume of the base directory.  The fan-out ends
    normally, and what it hands to the [fire] of [cb] is, event by event
    and in order, what [owed] says: the absolute form if [cb]'s predicate
    matches it, else the relative form if the predicate matches that, else
    nothing; never more than one delivery for one event. *)
Lemma method_first_matching_form
      (cbs : list WatchCallback) (cb : WatchCallback)
      (err : option JsError) (events : list WatchEvent) :
  NoDup (map cb_id cbs) ->
  In cb cbs ->
  Forall (fun event => root (parse (ev_path event)) = _root _base) events ->
  snd (_onWatchEvent _base (OnBackend cbs) err events) = Ok tt /\
  firedAt (cb_id cb) (fst (_onWatchEvent _base (OnBackend cbs) err events))
  = flat_map (owed _base cb) events /\
  (forall event, List.length (owed _base cb event) <= 1).
Proof.
  intros Hnd Hin Hvol.
  assert (Hfan : snd (fanOut _base cbs events) = Ok tt /\
                 firedAt (cb_id cb) (fst (fanOut _base cbs events))
                 = flat_map (owed _base cb) events).
  { induction Hvol as [|event rest Hroot Hrest IH]; [split; reflexivity|].
    simpl. rewrite !relPath_same_root by assumption.
    destruct (fanOut _base cbs rest) as [later r]. simpl in IH |- *.
    destruct IH as [-> IH]. split; [reflexivity|].
    rewrite firedAt_app, IH, firedAt_inner by assumption. reflexivity. }
  destruct Hfan as [Hok Hfired].
  unfold _onWatchEvent.
  destruct (fanOut _base cbs events) as [fired r]. simpl in *.
  split; [exact Hok|]. split.
  - rewrite firedAt_app, Hfired.
    assert (Herrs : forall l,
               firedAt (cb_id cb)
                 (match err with
                  | Some e =>
                      map (fun c => Err (cb_id c)
                                        (VFSError (err_message e) None (Some e)))
                          l
                  | None => []
                  end) = []).
    { intros l. destruct err as [e|]; [|reflexivity].
      induction l as [|c l IH]; [reflexivity|exact IH]. }
    rewrite Herrs. reflexivity.
  - intros event. unfold owed.
    destruct (isMatch cb _); [simpl; lia|].
    destruct (isMatch cb _); simpl; lia.
Qed.

End FanOutFacts.

(** C7, at an input of the claim.  Base [/root], one registration whose
    predicate matches [/a.txt], and the notifier reporting an update of
    [/root/a.txt].  The registration is owed the event in its absolute
    form, and the method called on the backend would fire it.  The
    notifier calls the function that [_watch] gave it, which has no
    receiver: that call throws the [TypeError] of reading [_relPath] off
    [undefined], and the registration gets nothing. *)
Theorem notifier_callback_scenario :
  owed "/root" (mkCallback 0 (String.eqb "/a.txt"))
       (mkEvent "/root/a.txt" "update")
  = [mkEvent "/a.txt" "update"] /\
  firedAt 0 (fst (_onWatchEvent "/root"
                    (OnBackend [mkCallback 0 (String.eqb "/a.txt")])
                    None [mkEvent "/root/a.txt" "update"]))
  = [mkEvent "/a.txt" "update"] /\
  notifierCallback "/root" None [mkEvent "/root/a.txt" "update"]
  = ([], Throw (undefinedThis "_relPath")) /\
  firedAt 0 (fst (notifierCallback "/root" None
                    [mkEvent "/root/a.txt" "update"]))
  = [].
Proof. repeat split; vm_compute; reflexivity. Qed.

(** ** C8: one shared subscription *)

(** What holds between requests as long as they do not overlap and each
    returns normally: there is a subscription exactly when there is a
    registration, the notifier has that subscription live and no other,
    and every live subscription is one the notifier has handed out. *)
Definition watchInv (w : WatchState) : Prop :=
  (_watcher w <> None <-> _watchCallbacks w <> []) /\
  live w = held (_watcher w) /\
  (forall h, In h (live w) -> h < issued w).

Lemma watchInv_new : watchInv newWatchState.
Proof.
  unfold watchInv, newWatchState. simpl. repeat split; tauto.
Qed.

Lemma snoc_not_nil {A} (l : list A) (x : A) : l ++ [x] <> [].
Proof. intros H. apply app_eq_nil in H as [_ H]. discriminate. Qed.

Lemma watchInv_step w c w' :
  watchInv w -> step w c = (w', true) -> watchInv w'.
Proof.
  intros (Hiff & Hlive & Hfresh) Hstep.
  destruct c as [m native|entry native]; simpl in Hstep.
  - unfold _watch, _watch_enter, _watch_resume in Hstep.
    destruct (_watcher w) as [h|] eqn:Hw.
    + inversion Hstep; subst; clear Hstep.
      refine (conj _ (conj _ _)); cbn.
      * split; intros _; [apply snoc_not_nil|discriminate].
      * exact Hlive.
      * exact Hfresh.
    + destruct native as [u|v]; inversion Hstep; subst; clear Hstep.
      refine (conj _ (conj _ _)); cbn.
      * split; intros _; [apply snoc_not_nil|discriminate].
      * rewrite Hlive. reflexivity.
      * rewrite Hlive. cbn. intros h [<-|[]]. lia.
  - unfold unsubscribe in Hstep.
    destruct (deleteEntry entry (_watchCallbacks w)) as [|cb cbs] eqn:Hdel.
    + destruct (_watcher w) as [h|] eqn:Hw; [|discriminate].
      destruct native as [u|v]; inversion Hstep; subst; clear Hstep.
      refine (conj _ (conj _ _)); cbn.
      * split; intros H; now elim H.
      * rewrite Hlive. cbn. rewrite Nat.eqb_refl. reflexivity.
      * rewrite Hlive. cbn. rewrite Nat.eqb_refl. intros h' [].
    + inversion Hstep; subst; clear Hstep.
      refine (conj _ (conj _ _)); cbn.
      * split; intros _; [discriminate|].
        apply Hiff. intros Hnil.
        unfold deleteEntry in Hdel. rewrite Hnil in Hdel. discriminate.
      * exact Hlive.
      * exact Hfresh.
Qed.

Lemma watchInv_run cs : forall w w',
  watchInv w -> run w cs = (w', true) -> watchInv w'.
Proof.
  induction cs as [|c cs IH]; intros w w' Hinv Hrun; simpl in Hrun.
  - inversion Hrun; subst. exact Hinv.
  - destruct (step w c) as [w1 ok1] eqn:Hstep.
    destruct (run w1 cs) as [w2 ok2] eqn:Hrest.
    inversion Hrun; subst; clear Hrun.
    match goal with H : _ && _ = true |- _ =>
      apply andb_true_iff in H as [-> ->] end.
    eapply IH; [|exact Hrest]. eapply watchInv_step; eassumption.
Qed.

(** C8, at two inputs of the claim.

    Two calls of [_watch] that overlap, on a new backend: the second is
    made while the first waits for [subscribe].  Both find [_watcher]
    unset, both subscribe, and the handle that settles last replaces the
    other in [_watcher]: the notifier holds two live subscriptions.  When
    both closures have been called the set is empty and [_watcher] is
    unset, and the first subscription is still live: nothing holds its
    handle any more.

    One call of [_watch] whose [subscribe] the notifier refuses, on a new
    backend: the call throws, its entry stays in the set, and there is no
    subscription. *)
Theorem overlapping_watch_scenario :
  let both :=
    play newMachine
         [Invoke (String.eqb "/a"); Invoke (String.eqb "/b");
          Settle 0 (Resolved tt); Settle 1 (Resolved tt)] in
  let done := play both [Release 0 (Resolved tt); Release 1 (Resolved tt)] in
  let refused :=
    play newMachine
         [Invoke (String.eqb "/a");
          Settle 0 (Rejected (AnError (HostError "Error" "no watcher" None)))]
  in
  (live (backend both) = [1; 0] /\ _watcher (backend both) = Some 1 /\
   map cb_id (_watchCallbacks (backend both)) = [0; 1] /\
   closures both = [0; 1]) /\
  (_watchCallbacks (backend done) = [] /\ _watcher (backend done) = None /\
   live (backend done) = [0]) /\
  (map cb_id (_watchCallbacks (backend refused)) = [0] /\
   _watcher (backend refused) = None /\ live (backend refused) = [] /\
   waiting refused = [] /\ closures refused = []).
Proof. vm_compute. repeat split. Qed.

(** When the notifier refuses the first subscription, the registration
    stays in the set although there is no subscription; the request did
    not return normally. *)
Example refused_subscription_keeps_entry :
  let r := _watch (String.eqb "/a")
                  (Rejected (AnError (HostError "Error" "no watcher" None)))
                  newWatchState in
  List.length (_watchCallbacks (fst r)) = 1 /\
  _watcher (fst r) = None /\
  snd r = Throw (VFSError "no watcher" (Some "EUNKNOWN")
                          (Some (HostError "Error" "no watcher" None))).
Proof. repeat split. Qed.

(* ===================================================================== *)
(** * Further properties *)
(* ===================================================================== *)

(** ** Error normalization, continued *)

(** An error in the form [wrapVFSErr] leaves it: a [VFSError], or an error
    that goes by the name [AbortError] or [VFSError]. *)
Definition normalized (e : JsError) : Prop :=
  instanceofVFSError e = true \/
  err_name e = "AbortError" \/ err_name e = "VFSError".

Lemma wrapVFSErr_shape e :
  wrapVFSErr (AnError e) = e /\
  (err_name e = "AbortError" \/ err_name e = "VFSError") \/
  exists message c,
    wrapVFSErr (AnError e) = VFSError message (Some c) (Some e) /\
    allowed c = true /\
    (exists dropped, err_message e = (dropped ++ message)%string).
Proof.
  unfold wrapVFSErr, JS.seq.
  destruct (err_name e =? "AbortError")%string eqn:Ha.
  { left. split; [reflexivity|]. left. now apply String.eqb_eq. }
  destruct (err_name e =? "VFSError")%string eqn:Hv.
  { left. split; [reflexivity|]. right. now apply String.eqb_eq. }
  right.
  assert (Hunk : exists message c,
             VFSError (err_message e) (Some "EUNKNOWN") (Some e)
             = VFSError message (Some c) (Some e) /\
             allowed c = true /\
             (exists dropped, err_message e = (dropped ++ message)%string)).
  { exists (err_message e), "EUNKNOWN". repeat split. now exists "". }
  destruct (err_code e) as [c|]; [|exact Hunk].
  destruct (allowed c) eqn:Hal; [|exact Hunk].
  destruct (JS.startsWith (err_message e) (c ++ ": ")) eqn:Hpre.
  - exists (JS.slice (err_message e) (String.length c + 2)), c.
    repeat split; [assumption|].
    exists (c ++ ": ")%string.
    apply startsWith_split in Hpre.
    rewrite strlen_app in Hpre. exact Hpre.
  - exists (err_message e), c. repeat split; [assumption|]. now exists "".
Qed.

Lemma wrapVFSErr_normalized v : normalized (wrapVFSErr v).
Proof.
  destruct v as [text|e]; [now left|].
  destruct (wrapVFSErr_shape e) as [[-> Hn]|(m & c & -> & _)].
  - right. exact Hn.
  - now left.
Qed.

(** Normalizing twice is normalizing once: what [wrapVFSErr] returns, it
    returns unchanged when given it again, so an error that crosses two
    layers of [withVFSErr] is wrapped once. *)
Theorem wrapVFSErr_idempotent (v : JsValue) :
  wrapVFSErr (AnError (wrapVFSErr v)) = wrapVFSErr v.
Proof.
  assert (Hvfs : forall m c k,
             wrapVFSErr (AnError (VFSError m c k)) = VFSError m c k)
    by reflexivity.
  destruct v as [text|e]; [apply Hvfs|].
  destruct (wrapVFSErr_shape e) as [[Heq [Hn|Hn]]|(m & c & -> & _)].
  - rewrite Heq. exact Heq.
  - rewrite Heq. exact Heq.
  - apply Hvfs.
Qed.

(** Of an [Error] that is neither an [AbortError] nor a [VFSError],
    [wrapVFSErr] makes a [VFSError] whose code is one of the twelve
    canonical codes, whatever code the host gave, whose cause is the
    original, and whose message is the original message or the original
    with a prefix cut off. *)
Theorem wrapVFSErr_code_is_canonical (e : JsError) :
  err_name e <> "AbortError" ->
  err_name e <> "VFSError" ->
  exists message c,
    wrapVFSErr (AnError e) = VFSError message (Some c) (Some e) /\
    In c allowedErrorTypes /\
    (exists dropped, err_message e = (dropped ++ message)%string).
Proof.
  intros Ha Hv.
  destruct (wrapVFSErr_shape e) as [[_ [Hn|Hn]]|(m & c & Heq & Hal & Hm)];
    [contradiction|contradiction|].
  exists m, c. split; [exact Heq|]. split; [|exact Hm].
  unfold allowed in Hal. apply existsb_exists in Hal as (x & Hin & Hx).
  apply String.eqb_eq in Hx. now subst.
Qed.

Lemma wrapVFSErr_code_is_canonical_witness :
  exists message c,
    wrapVFSErr (AnError (HostError "Error" "EACCES: permission denied"
                                   (Some "EACCES")))
    = VFSError message (Some c)
               (Some (HostError "Error" "EACCES: permission denied"
                                (Some "EACCES"))) /\
    In c allowedErrorTypes /\
    (exists dropped,
        "EACCES: permission denied" = (dropped ++ message)%string).
Proof.
  apply (wrapVFSErr_code_is_canonical
           (HostError "Error" "EACCES: permission denied" (Some "EACCES")));
    discriminate.
Defined.

(** ** The containment test, continued *)

Section JailEdges.

Context {PL : PathLib}.
Variable _base : string.

(** A path that only shares the base directory as a prefix of its text,
    like [/rootx] for the base [/root], is outside: the character after
    the base has to be the separator. *)
Theorem locOK_rejects_sibling (c : ascii) (rest : string) :
  c <> sep ->
  _locOK _base (_base ++ String c rest) = false.
Proof.
  intros Hc. unfold _locOK.
  rewrite startsWith_app, strlen_app, charAt_app. simpl.
  replace (String.length _base + S (String.length rest)
           =? String.length _base)%nat with false
    by (symmetry; apply Nat.eqb_neq; lia).
  simpl. now apply Ascii.eqb_neq.
Qed.

Lemma locOK_child p seg :
  _locOK _base p = true -> _locOK _base (childOf p seg) = true.
Proof.
  intros H. unfold childOf.
  destruct (negb (JS.seq seg "") && negb (JS.seq seg ".")); [|exact H].
  apply locOK_in_jail. apply locOK_in_jail in H as [->|[rest ->]].
  - right. now exists seg.
  - right. exists (rest ++ sepStr ++ seg)%string.
    now rewrite !app_assoc_s.
Qed.

End JailEdges.

Lemma locOK_rejects_sibling_witness :
  _locOK (PL := Posix.pathLib) "/root" "/rootx/secret" = false.
Proof.
  apply (locOK_rejects_sibling (PL := Posix.pathLib) "/root" "x"%char
                               "/secret").
  discriminate.
Defined.

(** ** Resolution without links *)

Section Literal.

Context {PL : PathLib} {FS : HostFS}.
Variable _base : string.

(** A segment that names an entry: not empty, not [.], not [..]. *)
Definition properSeg (seg : string) : Prop :=
  seg <> "" /\ seg <> "." /\ seg <> "..".

(** The host rejects [readlink path] with an error of the given code that
    is not a [VFSError]. *)
Definition rejectedWith (code : string) (path : string) : Prop :=
  exists v, readlink path = Rejected v /\
            (forall m c k, v <> AnError (VFSError m c k)) /\
            thrown_code v = Some code.

(** The paths passed on the way down from [p] through [names]. *)
Fixpoint descend (p : string) (names : list string) : list string :=
  match names with
  | [] => []
  | n :: rest => (p ++ sepStr ++ n)%string :: descend (p ++ sepStr ++ n) rest
  end.

(** Where that way ends. *)
Definition under (p : string) (names : list string) : string :=
  fold_left (fun q n => (q ++ sepStr ++ n)%string) names p.

End Literal.

Section LiteralFacts.

Context {PL : PathLib} {FS : HostFS}.
Variable _base : string.
Variable thruLast : bool.

Lemma childOf_proper p seg :
  properSeg seg -> childOf p seg = (p ++ sepStr ++ seg)%string.
Proof.
  intros (He & Hd & _). unfold childOf, JS.seq.
  apply String.eqb_neq in He, Hd. now rewrite He, Hd.
Qed.

Lemma proper_not_dotdot seg : properSeg seg -> JS.seq seg ".." = false.
Proof. intros (_ & _ & H). now apply String.eqb_neq. Qed.

(** A pass whose [readlink] is rejected by the host. *)
Lemma body_rejected st v :
  JS.seq (nth (Vars.i st) (Vars.src st) "") ".." = false ->
  readlink (childOf (Vars.p st) (nth (Vars.i st) (Vars.src st) ""))
  = Rejected v ->
  (forall m c k, v <> AnError (VFSError m c k)) ->
  body _base thruLast st =
  let child := childOf (Vars.p st) (nth (Vars.i st) (Vars.src st) "") in
  let st' := Vars.mk child (Vars.strict st) (Vars.depth st) (Vars.src st)
                     (Vars.i st) (Vars.log st ++ [CallReadlink child]) in
  if JS.oseq (thrown_code v) "EINVAL" then Next st'
  else if JS.oseq (thrown_code v) "ENOENT"
          && Nat.eqb (Vars.i st) (List.length (Vars.src st) - 1)
       then Next st'
       else Raise (wrapVFSErr v) st'.
Proof.
  intros Hdots Hrej Hnot. unfold body. rewrite Hdots, Hrej.
  destruct v as [text|[n m c|m c k]]; try reflexivity.
  now elim (Hnot m c k).
Qed.

Lemma nth_middle_app (pre : list string) n rest :
  nth (List.length pre) (pre ++ n :: rest) "" = n.
Proof. induction pre; simpl; auto. Qed.

(** Down through entries that are not links: one [readlink] each, the
    running path grows by separator and name. *)
Lemma loop_descend names : forall pre rest p strict depth log,
  Forall properSeg names ->
  Forall (rejectedWith "EINVAL") (descend p names) ->
  loop _base thruLast
       (Vars.mk p strict depth (pre ++ names ++ rest) (List.length pre) log)
  = loop _base thruLast
         (Vars.mk (under p names) strict depth (pre ++ names ++ rest)
                  (List.length pre + List.length names)
                  (log ++ map CallReadlink (descend p names))).
Proof.
  induction names as [|n names IH]; intros pre rest p strict depth log Hp Hr.
  - simpl. now rewrite Nat.add_0_r, app_nil_r.
  - inversion Hp as [|? ? Hn Hp']; subst.
    simpl in Hr. inversion Hr as [|? ? (v & Hv & Hnot & Hcode) Hr']; subst.
    rewrite loop_eq. cbn [Vars.i Vars.src].
    replace (List.length pre <? List.length (pre ++ (n :: names) ++ rest))%nat
      with true
      by (symmetry; apply Nat.ltb_lt; rewrite List.length_app; simpl; lia).
    rewrite (body_rejected _ v);
      cbn [Vars.i Vars.src Vars.p Vars.strict Vars.depth Vars.log];
      change ((n :: names) ++ rest) with (n :: names ++ rest);
      rewrite ?nth_middle_app, ?childOf_proper by assumption;
      try assumption; [|now apply proper_not_dotdot].
    rewrite Hcode. cbn [JS.oseq String.eqb Ascii.eqb Bool.eqb].
    unfold incr. cbn [Vars.i Vars.src Vars.p Vars.strict Vars.depth Vars.log].
    specialize (IH (pre ++ [n]) rest (p ++ sepStr ++ n)%string strict depth
                   (log ++ [CallReadlink (p ++ sepStr ++ n)%string]) Hp' Hr').
    rewrite <- !app_assoc in IH.
    rewrite List.length_app in IH. cbn [List.length app] in IH.
    rewrite Nat.add_1_r in IH. rewrite IH.
    unfold under. cbn [fold_left descend map List.length].
    f_equal. f_equal. lia.
Qed.

(** The pass on a proper segment whose [readlink] the host rejects. *)
Lemma loop_at_rejected pre seg rest p strict depth log v :
  properSeg seg ->
  readlink (p ++ sepStr ++ seg) = Rejected v ->
  (forall m c k, v <> AnError (VFSError m c k)) ->
  loop _base thruLast
       (Vars.mk p strict depth (pre ++ seg :: rest) (List.length pre) log)
  = let st' := Vars.mk (p ++ sepStr ++ seg) strict depth (pre ++ seg :: rest)
                       (List.length pre)
                       (log ++ [CallReadlink (p ++ sepStr ++ seg)]) in
    if JS.oseq (thrown_code v) "EINVAL" then loop _base thruLast (incr st')
    else if JS.oseq (thrown_code v) "ENOENT"
            && match rest with [] => true | _ :: _ => false end
         then loop _base thruLast (incr st')
         else (Thrown (wrapVFSErr v), st').
Proof.
  intros Hs Hv Hnot.
  set (st := Vars.mk p strict depth (pre ++ seg :: rest) (List.length pre) log).
  assert (Hnth : nth (Vars.i st) (Vars.src st) "" = seg)
    by apply nth_middle_app.
  assert (Hchild : childOf (Vars.p st) (nth (Vars.i st) (Vars.src st) "")
                   = (p ++ sepStr ++ seg)%string)
    by (rewrite Hnth; now apply childOf_proper).
  assert (Hdots : JS.seq (nth (Vars.i st) (Vars.src st) "") ".." = false)
    by (rewrite Hnth; now apply proper_not_dotdot).
  assert (Hrej : readlink (childOf (Vars.p st)
                                   (nth (Vars.i st) (Vars.src st) ""))
                 = Rejected v) by now rewrite Hchild.
  assert (Hlt : (Vars.i st <? List.length (Vars.src st))%nat = true)
    by (apply Nat.ltb_lt; simpl; rewrite List.length_app; simpl; lia).
  assert (Hlast : (Vars.i st =? List.length (Vars.src st) - 1)%nat
                  = match rest with [] => true | _ :: _ => false end).
  { simpl. rewrite List.length_app. destruct rest; simpl.
    - apply Nat.eqb_eq. lia.
    - apply Nat.eqb_neq. lia. }
  rewrite loop_eq, Hlt, (body_rejected st v Hdots Hrej Hnot).
  cbv zeta. rewrite Hchild, Hlast.
  destruct (JS.oseq (thrown_code v) "EINVAL"); [reflexivity|].
  destruct (JS.oseq (thrown_code v) "ENOENT" && _); reflexivity.
Qed.

End LiteralFacts.

Section LiteralResults.

Context {PL : PathLib} {FS : HostFS}.
Variable _base : string.

Lemma under_snoc p names n :
  under p (names ++ [n]) = (under p names ++ sepStr ++ n)%string.
Proof. unfold under. now rewrite fold_left_app. Qed.

Lemma descend_snoc names : forall p n,
  descend p (names ++ [n])
  = descend p names ++ [(under p names ++ sepStr ++ n)%string].
Proof.
  induction names as [|m names IH]; intros p n; [reflexivity|].
  simpl. now rewrite IH.
Qed.

Lemma under_join names : forall p,
  names <> [] ->
  under p names = (p ++ sepStr ++ JS.join sepStr names)%string.
Proof.
  induction names as [|n names IH]; intros p Hne; [congruence|].
  destruct names as [|m names]; [reflexivity|].
  change (under p (n :: m :: names))
    with (under (p ++ sepStr ++ n) (m :: names)).
  rewrite IH by discriminate.
  change (JS.join sepStr (n :: m :: names))
    with (n ++ sepStr ++ JS.join sepStr (m :: names))%string.
  now rewrite !app_assoc_s.
Qed.

Lemma under_in_jail names : forall p,
  _locOK _base p = true -> _locOK _base (under p names) = true.
Proof.
  induction names as [|n names IH]; intros p H; [exact H|].
  apply IH. apply locOK_in_jail. apply locOK_in_jail in H as [->|[r ->]].
  - right. now exists n.
  - right. exists (r ++ sepStr ++ n)%string. now rewrite !app_assoc_s.
Qed.

Lemma under_not_empty names n p : under p (names ++ [n]) <> EmptyString.
Proof.
  rewrite under_snoc. intros H.
  apply (f_equal String.length) in H. rewrite strlen_app in H.
  simpl in H. lia.
Qed.

Lemma locOK_base : _locOK _base _base = true.
Proof. apply locOK_in_jail. now left. Qed.

(** What [_fsPath] makes of a loop that ends by its test at [p] inside
    the jail. *)
Lemma fsPath_of_exit s src thruLast st :
  loop _base thruLast (entry _base (s :: src)) = (Exit, st) ->
  _locOK _base (Vars.p st) = true ->
  Vars.p st <> EmptyString ->
  _fsPath _base (s :: src) thruLast = (Vars.log st, Ok (Vars.p st)).
Proof.
  intros Hloop Hok Hne. unfold _fsPath, bind.
  rewrite validatePath_unfold, Hloop, Hok.
  destruct (Vars.p st); [congruence|]. simpl. now rewrite app_nil_r.
Qed.

Lemma fsPath_of_thrown s src thruLast st e :
  loop _base thruLast (entry _base (s :: src)) = (Thrown e, st) ->
  _fsPath _base (s :: src) thruLast = (Vars.log st, Throw e).
Proof.
  intros Hloop. unfold _fsPath, bind.
  now rewrite validatePath_unfold, Hloop.
Qed.

Lemma loop_at_end thruLast p strict depth src log :
  loop _base thruLast (Vars.mk p strict depth src (List.length src) log)
  = (Exit, Vars.mk p strict depth src (List.length src) log).
Proof.
  rewrite loop_eq. cbn [Vars.i Vars.src]. now rewrite Nat.ltb_irrefl.
Qed.

(** Where no entry on the way is a symbolic link, resolution is
    concatenation: the segments are appended to the base directory one
    by one, each after one [readlink] that the host rejects as "not a
    link", and the result is the base directory, a separator, and the
    segments joined by the separator.  Both modes agree. *)
Theorem fsPath_without_links (names : list string) (thruLast : bool) :
  Forall properSeg names ->
  Forall (rejectedWith "EINVAL") (descend _base names) ->
  _fsPath _base names thruLast
  = (map CallReadlink (descend _base names), Ok (under _base names)) /\
  (names <> [] ->
   under _base names = (_base ++ sepStr ++ JS.join sepStr names)%string).
Proof.
  intros Hp Hr. split; [|apply under_join].
  destruct names as [|n names]; [reflexivity|].
  pose proof (loop_descend _base thruLast (n :: names) [] [] _base true 0 []
                           Hp Hr) as H.
  rewrite app_nil_r in H. cbn [app List.length Nat.add] in H.
  rewrite loop_at_end in H.
  destruct (exists_last (l := n :: names)) as (front & lst & Hsplit);
    [discriminate|].
  rewrite (fsPath_of_exit _ _ _ _ H); cbn [Vars.p Vars.log].
  - reflexivity.
  - apply under_in_jail, locOK_base.
  - rewrite Hsplit. apply under_not_empty.
Qed.

(** Past entries that are not links, a last segment that does not exist is
    accepted: the path is returned as if the entry were there. *)
Theorem fsPath_missing_last (names : list string) (last : string)
        (thruLast : bool) :
  Forall properSeg names -> properSeg last ->
  Forall (rejectedWith "EINVAL") (descend _base names) ->
  rejectedWith "ENOENT" (under _base names ++ sepStr ++ last) ->
  _fsPath _base (names ++ [last]) thruLast
  = (map CallReadlink (descend _base (names ++ [last])),
     Ok (under _base names ++ sepStr ++ last)%string).
Proof.
  intros Hp Hl Hr (v & Hv & Hnot & Hcode).
  pose proof (loop_descend _base thruLast names [] [last] _base true 0 []
                           Hp Hr) as H.
  cbn [app List.length Nat.add] in H.
  rewrite (loop_at_rejected _base thruLast names last [] _ _ _ _ v Hl Hv Hnot)
    in H.
  cbv zeta in H. rewrite Hcode in H.
  cbn [JS.oseq String.eqb Ascii.eqb Bool.eqb andb] in H.
  unfold incr in H.
  cbn [Vars.i Vars.src Vars.p Vars.strict Vars.depth Vars.log] in H.
  replace (S (List.length names)) with (List.length (names ++ [last])) in H
    by (rewrite List.length_app; simpl; lia).
  rewrite loop_at_end in H.
  assert (Hsrc : exists s src', names ++ [last] = s :: src').
  { destruct names; simpl; eauto. }
  destruct Hsrc as (s & src' & Hsrc).
  rewrite descend_snoc, map_app.
  revert H. rewrite Hsrc. intros H.
  rewrite (fsPath_of_exit _ _ _ _ H); cbn [Vars.p Vars.log].
  - reflexivity.
  - rewrite <- under_snoc. apply under_in_jail, locOK_base.
  - rewrite <- under_snoc. apply under_not_empty.
Qed.

(** Past entries that are not links, a host error on the next entry ends
    the resolution there: any code other than [EINVAL], except [ENOENT] on
    the very last segment, is thrown in normalized form, and no further
    call is made.  A missing directory in the middle of the path is such a
    case. *)
Theorem fsPath_stops_at_host_error
        (names : list string) (seg : string) (rest : list string)
        (thruLast : bool) (v : JsValue) (code : string) :
  Forall properSeg names -> properSeg seg ->
  Forall (rejectedWith "EINVAL") (descend _base names) ->
  readlink (under _base names ++ sepStr ++ seg) = Rejected v ->
  (forall m c k, v <> AnError (VFSError m c k)) ->
  thrown_code v = Some code ->
  code <> "EINVAL" ->
  (code = "ENOENT" -> rest <> []) ->
  _fsPath _base (names ++ seg :: rest) thruLast
  = (map CallReadlink (descend _base (names ++ [seg])),
     Throw (wrapVFSErr v)).
Proof.
  intros Hp Hs Hr Hv Hnot Hcode Hne Hmid.
  pose proof (loop_descend _base thruLast names [] (seg :: rest) _base true 0
                           [] Hp Hr) as H.
  cbn [app List.length Nat.add] in H.
  rewrite (loop_at_rejected _base thruLast names seg rest _ _ _ _ v Hs Hv Hnot)
    in H.
  cbv zeta in H. rewrite Hcode in H.
  assert (H1 : JS.oseq (Some code) "EINVAL" = false)
    by (now apply String.eqb_neq).
  assert (H2 : JS.oseq (Some code) "ENOENT"
               && match rest with [] => true | _ :: _ => false end = false).
  { destruct (String.eqb_spec code "ENOENT") as [E|E].
    - specialize (Hmid E). destruct rest; [congruence|].
      apply andb_false_r.
    - simpl. apply String.eqb_neq in E. now rewrite E. }
  rewrite H1, H2 in H.
  assert (Hsrc : exists s src', names ++ seg :: rest = s :: src').
  { destruct names; simpl; eauto. }
  destruct Hsrc as (s & src' & Hsrc).
  rewrite descend_snoc, map_app.
  revert H. rewrite Hsrc. intros H.
  now rewrite (fsPath_of_thrown _ _ _ _ _ H).
Qed.

End LiteralResults.

Lemma plain_rejects_d :
  rejectedWith (FS := Sample.plain) "EINVAL" "/root/d".
Proof.
  exists Sample.notALink. split; [reflexivity|]. split; [discriminate|].
  reflexivity.
Qed.

Lemma fsPath_without_links_witness :
  _fsPath (FS := Sample.plain) "/root" ["d"] true
  = ([CallReadlink "/root/d"], Ok "/root/d").
Proof.
  refine (proj1 (fsPath_without_links (FS := Sample.plain) "/root" ["d"] true
                                      _ _)).
  - repeat constructor; discriminate.
  - repeat constructor. exact plain_rejects_d.
Defined.

Lemma fsPath_missing_last_witness :
  _fsPath (FS := Sample.plain) "/root" ["d"; "new"] true
  = ([CallReadlink "/root/d"; CallReadlink "/root/d/new"], Ok "/root/d/new").
Proof.
  refine (fsPath_missing_last (FS := Sample.plain) "/root" ["d"] "new" true
                              _ _ _ _).
  - repeat constructor; discriminate.
  - repeat split; discriminate.
  - repeat constructor. exact plain_rejects_d.
  - exists Sample.missing. split; [reflexivity|]. split; [discriminate|].
    reflexivity.
Defined.

Lemma fsPath_stops_at_host_error_witness :
  _fsPath (FS := Sample.plain) "/root" ["d"; "gone"; "file"] true
  = ([CallReadlink "/root/d"; CallReadlink "/root/d/gone"],
     Throw (VFSError "no such file or directory" (Some "ENOENT")
                     (Some (HostError "Error"
                                      "ENOENT: no such file or directory"
                                      (Some "ENOENT"))))).
Proof.
  refine (fsPath_stops_at_host_error (FS := Sample.plain) "/root"
            ["d"] "gone" ["file"] true Sample.missing "ENOENT"
            _ _ _ _ _ _ _ _).
  - repeat constructor; discriminate.
  - repeat split; discriminate.
  - repeat constructor. exact plain_rejects_d.
  - reflexivity.
  - discriminate.
  - reflexivity.
  - discriminate.
  - discriminate.
Defined.

(** ** What resolution calls and what it throws *)

(** A logged call that is a [readlink]. *)
Definition isReadlink (c : HostCall) : Prop :=
  exists path, c = CallReadlink path.

(** The outcome of an operation, if it is a throw, throws a normalized
    error. *)
Definition throwsNormalized {A} (m : Op A) : Prop :=
  match outcome m with
  | Throw e => normalized e
  | Ok _ => True
  end.

Section LoopEffects.

Context {PL : PathLib} {FS : HostFS}.
Variable _base : string.
Variable thruLast : bool.

(** One pass: at most one call, a [readlink]; a throw is normalized. *)
Lemma body_calls st :
  (exists l, Vars.log (flowState (body _base thruLast st)) = Vars.log st ++ l /\
             Forall isReadlink l) /\
  (forall e st', body _base thruLast st = Raise e st' -> normalized e).
Proof.
  assert (Hnil : Forall isReadlink []) by constructor.
  assert (Hone : forall path, Forall isReadlink [CallReadlink path])
    by (intros path; repeat constructor; now exists path).
  unfold body. cbv zeta.
  destruct (JS.seq (nth (Vars.i st) (Vars.src st) "") "..").
  - split.
    + exists []. destruct (_ && _); simpl; now rewrite app_nil_r.
    + intros e st'. destruct (_ && _); discriminate.
  - destruct (readlink _) as [linkPath|err].
    + split.
      * eexists. split; [|apply Hone].
        destruct (40 <? _)%nat; [reflexivity|].
        destruct (negb thruLast && _); [reflexivity|].
        destruct (isAbsolute linkPath); reflexivity.
      * intros e st'. destruct (40 <? _)%nat.
        -- intros H. inversion H. now left.
        -- destruct (negb thruLast && _); [discriminate|].
           destruct (isAbsolute linkPath); discriminate.
    + split.
      * eexists. split; [|apply Hone].
        destruct err as [text|[n m c|m c k]]; simpl;
          repeat match goal with
                 | |- context [if ?b then _ else _] => destruct b
                 end; reflexivity.
      * intros e st' H.
        assert (Hw : forall v s,
                   (if JS.oseq (thrown_code v) "EINVAL" then Next s
                    else if JS.oseq (thrown_code v) "ENOENT"
                            && (Vars.i st =? List.length (Vars.src st) - 1)%nat
                         then Next s else Raise (wrapVFSErr v) s)
                   = Raise e st' -> normalized e).
        { intros v s.
          destruct (JS.oseq (thrown_code v) "EINVAL");
            [intros E; discriminate E|].
          destruct (JS.oseq (thrown_code v) "ENOENT" && _); intros E;
            [discriminate E|].
          inversion E. apply wrapVFSErr_normalized. }
        destruct err as [text|[n m c|m c k]].
        -- eapply Hw, H.
        -- eapply Hw, H.
        -- inversion H. now left.
Qed.

Lemma loop_calls st :
  (exists l, Vars.log (snd (loop _base thruLast st)) = Vars.log st ++ l /\
             Forall isReadlink l) /\
  (forall e, fst (loop _base thruLast st) = Thrown e -> normalized e).
Proof.
  set (P := fun (st : Vars.t) (r : Completion * Vars.t) =>
              (exists l, Vars.log (snd r) = Vars.log st ++ l /\
                         Forall isReadlink l) /\
              (forall e, fst r = Thrown e -> normalized e)).
  change (P st (loop _base thruLast st)).
  apply loop_ind; clear st; unfold P; clear P; cbn [fst snd].
  - intros st _. split; [|discriminate].
    exists []. split; [now rewrite app_nil_r|constructor].
  - intros st st' _ Hb ((l2 & Hl2 & Hf2) & Hthrow).
    destruct (body_calls st) as ((l1 & Hl1 & Hf1) & _).
    rewrite Hb in Hl1. cbn [flowState] in Hl1.
    change (Vars.log (incr st')) with (Vars.log st') in Hl2.
    split; [|exact Hthrow].
    exists (l1 ++ l2). split; [|now apply Forall_app].
    now rewrite Hl2, Hl1, app_assoc.
  - intros st st' _ Hb. split; [|discriminate].
    destruct (body_calls st) as (H & _). now rewrite Hb in H.
  - intros st st' _ Hb. split; [|discriminate].
    destruct (body_calls st) as (H & _). now rewrite Hb in H.
  - intros st e st' _ Hb.
    destruct (body_calls st) as (H & Hn). split.
    + now rewrite Hb in H.
    + intros e' E. inversion E; subst. eapply Hn, Hb.
Qed.

End LoopEffects.

Section ResolutionEffects.

Context {PL : PathLib} {FS : HostFS}.
Variable _base : string.

Lemma fsPath_calls src thruLast :
  Forall isReadlink (calls (_fsPath _base src thruLast)) /\
  throwsNormalized (_fsPath _base src thruLast).
Proof.
  destruct src as [|s src]; [split; [constructor|exact I]|].
  destruct (loop_calls _base thruLast (entry _base (s :: src)))
    as ((l & Hl & Hf) & Hn).
  cbn [entry Vars.log app] in Hl.
  unfold throwsNormalized, _fsPath, bind, calls, outcome.
  rewrite validatePath_unfold.
  destruct (loop _ _ _) as [[| |e] st]; cbn [fst snd] in *; subst.
  - destruct (_locOK _base (Vars.p st)); [destruct (Vars.p st)|]; simpl;
      rewrite ?app_nil_r; split; try assumption; try exact I; now left.
  - simpl. rewrite app_nil_r. split; [assumption|now left].
  - simpl. split; [assumption|]. now apply Hn.
Qed.

(** Resolution looks and does not touch: every call that [_fsPath] makes
    to the host is a [readlink], whatever the segments and the links. *)
Theorem fsPath_only_reads_links (src : list string) (thruLast : bool) :
  Forall isReadlink (calls (_fsPath _base src thruLast)).
Proof. apply fsPath_calls. Qed.

End ResolutionEffects.

(** ** The operations on top of resolution *)

Section OperationEffects.

Context {PL : PathLib} {PE : PathExtra} {FS : HostFS}.
Variable _base : string.

(** The calls of an operation are those of the resolution of [src], all
    of them [readlink]s, and, when the resolution has returned a path, one
    call more: [call] on that very path, which is inside the jail.  When
    the resolution has thrown there is no call more. *)
Definition actsInsideJail {A} (src : list string) (thruLast : bool)
           (call : string -> HostCall) (m : Op A) : Prop :=
  Forall isReadlink (calls (_fsPath _base src thruLast)) /\
  match outcome (_fsPath _base src thruLast) with
  | Ok R =>
      in_jail _base R /\
      calls m = calls (_fsPath _base src thruLast) ++ [call R]
  | Throw _ =>
      calls m = calls (_fsPath _base src thruLast)
  end.

(** What the resolution of [src] throws, the operation throws. *)
Definition refusedWith {A} (src : list string) (thruLast : bool) (m : Op A)
  : Prop :=
  forall e, outcome (_fsPath _base src thruLast) = Throw e ->
            outcome m = Throw e.

Lemma fsPath_result_in_jail src thruLast R :
  outcome (_fsPath _base src thruLast) = Ok R -> in_jail _base R.
Proof.
  destruct src as [|s src'].
  - simpl. intros H. inversion H. now left.
  - unfold _fsPath, bind, outcome. rewrite validatePath_unfold.
    destruct (loop _ _ _) as [[| |e] st]; simpl; try discriminate.
    destruct (_locOK _base (Vars.p st)) eqn:Hok; simpl; [|discriminate].
    destruct (Vars.p st) eqn:Hp; simpl; [discriminate|].
    intros H. inversion H; subst. now apply locOK_in_jail.
Qed.

Lemma after_resolution {B} src thruLast (call : string -> HostCall)
      (k : string -> Op B) :
  (forall path, calls (k path) = [call path]) ->
  (forall path, throwsNormalized (k path)) ->
  actsInsideJail src thruLast call (bind (_fsPath _base src thruLast) k) /\
  refusedWith src thruLast (bind (_fsPath _base src thruLast) k) /\
  throwsNormalized (bind (_fsPath _base src thruLast) k).
Proof.
  intros Hk Hn.
  destruct (fsPath_calls _base src thruLast) as [Hreads Hthrow].
  pose proof (fsPath_result_in_jail src thruLast) as Hjail.
  unfold actsInsideJail, refusedWith, throwsNormalized, bind, calls, outcome
    in *.
  destruct (_fsPath _base src thruLast) as [t [path|e]]; cbn [fst snd] in *.
  - specialize (Hjail path eq_refl). specialize (Hk path).
    specialize (Hn path).
    destruct (k path) as [t' r]. cbn [fst snd] in *. subst t'.
    split; [now repeat split|]. split; [discriminate|exact Hn].
  - split; [now split|]. split; [|exact Hthrow].
    intros e' H. inversion H. reflexivity.
Qed.

Lemma host_then {A B} c (r : HostResult A) (k : A -> Op B) :
  (forall a, calls (k a) = []) ->
  (forall a, throwsNormalized (k a)) ->
  calls (bind (host c r) k) = [c] /\ throwsNormalized (bind (host c r) k).
Proof.
  intros Hc Hn. unfold host, bind, withVFSErr, throwsNormalized, calls, outcome.
  destruct r as [a|v]; cbn [fst snd].
  - specialize (Hc a). specialize (Hn a).
    unfold throwsNormalized, calls, outcome in *.
    destruct (k a) as [t' r']. cbn [fst snd] in *. subst. now split.
  - split; [reflexivity|]. apply wrapVFSErr_normalized.
Qed.

Lemma host_alone {A} c (r : HostResult A) :
  calls (host c r) = [c] /\ throwsNormalized (host c r).
Proof.
  unfold host, withVFSErr, throwsNormalized, calls, outcome.
  destruct r; cbn [fst snd]; split; try reflexivity; try exact I.
  apply wrapVFSErr_normalized.
Qed.

Lemma relPath_throws src absolute :
  throwsNormalized (pure (_relPath _base src absolute)).
Proof.
  unfold throwsNormalized, pure, outcome, _relPath. cbn [snd].
  destruct (negb _); [now left|exact I].
Qed.

(** The target as [_symlink] computes it. *)
Lemma storedTarget_eq (target : list string) (relative : bool) :
  ((if relative then "" else _base ++ sepStr) ++ JS.join sepStr target)%string
  = storedTarget _base target relative.
Proof.
  unfold storedTarget. destruct relative; [reflexivity|].
  now rewrite app_assoc_s.
Qed.

Lemma exists_effects file :
  actsInsideJail file true CallStat (_exists _base file) /\
  throwsNormalized (_exists _base file).
Proof.
  destruct (after_resolution file true CallStat
              (fun path : string =>
                 bind (host (CallStat path) (stat path))
                      (fun _ => ret true)))
    as (Hact & _ & Hn).
  { intros path. now apply host_then. }
  { intros path. now apply host_then. }
  unfold _exists, try_catch.
  unfold actsInsideJail, throwsNormalized, calls, outcome in *.
  destruct Hact as [Hreads Hact]. split; [split; [exact Hreads|]|].
  - destruct (bind (_fsPath _base file true) _) as [t [b|e]];
      cbn [fst snd] in *; [exact Hact|].
    unfold ret, throw.
    destruct (instanceofVFSError e && _); cbn [fst snd];
      rewrite app_nil_r; exact Hact.
  - destruct (bind (_fsPath _base file true) _) as [t [b|e]];
      cbn [fst snd] in *; [exact I|].
    unfold ret, throw.
    destruct (instanceofVFSError e && _); cbn [fst snd]; [exact I|exact Hn].
Qed.

Lemma removeFile_effects file :
  actsInsideJail file false CallUnlink (_removeFile _base file) /\
  refusedWith file false (_removeFile _base file) /\
  throwsNormalized (_removeFile _base file).
Proof.
  apply after_resolution; intros path; apply host_alone.
Qed.

Lemma symlink_effects target link relative :
  actsInsideJail link true (CallSymlink (storedTarget _base target relative))
                 (_symlink _base target link relative) /\
  refusedWith link true (_symlink _base target link relative) /\
  throwsNormalized (_symlink _base target link relative).
Proof.
  unfold _symlink. cbv zeta. rewrite storedTarget_eq.
  apply after_resolution; intros path; apply host_alone.
Qed.

Lemma realPath_effects link :
  actsInsideJail link true CallRealpath (_realPath _base link) /\
  refusedWith link true (_realPath _base link) /\
  throwsNormalized (_realPath _base link).
Proof.
  apply after_resolution; intros path;
    (apply host_then; [reflexivity|intros a; apply relPath_throws]).
Qed.

Lemma readSymlink_effects link :
  actsInsideJail link false CallReadlink (_readSymlink _base link) /\
  refusedWith link false (_readSymlink _base link) /\
  throwsNormalized (_readSymlink _base link).
Proof.
  apply after_resolution; intros path;
    (apply host_then; [reflexivity|intros a; apply relPath_throws]).
Qed.

(** [_exists], [_removeFile], [_symlink], [_realPath] and [_readSymlink]
    first resolve, which only reads links.  When the resolution returns a
    path, that path is inside the jail and the operation makes exactly one
    call more, on that path: [stat], [unlink], [symlink] with the target
    as given, [realpath], [readlink].  When the resolution throws, the
    operation makes no call of its own, so a refused path is never
    statted, unlinked or linked; and all but [_exists] throw what the
    resolution threw. *)
Theorem operations_act_inside_jail
        (file target link : list string) (relative : bool) :
  actsInsideJail file true CallStat (_exists _base file) /\
  actsInsideJail file false CallUnlink (_removeFile _base file) /\
  actsInsideJail link true (CallSymlink (storedTarget _base target relative))
                 (_symlink _base target link relative) /\
  actsInsideJail link true CallRealpath (_realPath _base link) /\
  actsInsideJail link false CallReadlink (_readSymlink _base link) /\
  refusedWith file false (_removeFile _base file) /\
  refusedWith link true (_symlink _base target link relative) /\
  refusedWith link true (_realPath _base link) /\
  refusedWith link false (_readSymlink _base link).
Proof.
  destruct (exists_effects file) as [H1 _].
  destruct (removeFile_effects file) as (H2 & R2 & _).
  destruct (symlink_effects target link relative) as (H3 & R3 & _).
  destruct (realPath_effects link) as (H4 & R4 & _).
  destruct (readSymlink_effects link) as (H5 & R5 & _).
  refine (conj H1 (conj H2 (conj H3 (conj H4 (conj H5
            (conj R2 (conj R3 (conj R4 R5)))))))).
Qed.

(** Whatever the resolver and these operations throw is a [VFSError], or
    an [AbortError] handed through: a host error never reaches the caller
    in its raw form. *)
Theorem operations_throw_normalized
        (file target link : list string) (relative thruLast : bool) :
  throwsNormalized (_fsPath _base file thruLast) /\
  throwsNormalized (_exists _base file) /\
  throwsNormalized (_removeFile _base file) /\
  throwsNormalized (_symlink _base target link relative) /\
  throwsNormalized (_realPath _base link) /\
  throwsNormalized (_readSymlink _base link).
Proof.
  destruct (exists_effects file) as [_ H1].
  destruct (removeFile_effects file) as (_ & _ & H2).
  destruct (symlink_effects target link relative) as (_ & _ & H3).
  destruct (realPath_effects link) as (_ & _ & H4).
  destruct (readSymlink_effects link) as (_ & _ & H5).
  split; [apply fsPath_calls|]. repeat split; assumption.
Qed.

End OperationEffects.

(** ** The two modes, and the segments still to visit *)

(** Two states of the loop with the same running path, flag and counter
    and the same segments from [i] on. *)
Definition sameRest (a b : Vars.t) : Prop :=
  Vars.p a = Vars.p b /\ Vars.strict a = Vars.strict b /\
  Vars.depth a = Vars.depth b /\
  skipn (Vars.i a) (Vars.src a) = skipn (Vars.i b) (Vars.src b).

(** Two passes that end the same way, in states that agree on what the
    rest of the loop reads, after the same calls. *)
Definition sameFlow (fa fb : Flow) (a b : Vars.t) : Prop :=
  (exists l, Vars.log (flowState fa) = Vars.log a ++ l /\
             Vars.log (flowState fb) = Vars.log b ++ l) /\
  Vars.p (flowState fa) = Vars.p (flowState fb) /\
  Vars.strict (flowState fa) = Vars.strict (flowState fb) /\
  Vars.depth (flowState fa) = Vars.depth (flowState fb) /\
  match fa, fb with
  | Next a', Next b' =>
      skipn (S (Vars.i a')) (Vars.src a') = skipn (S (Vars.i b')) (Vars.src b')
  | Break _, Break _ => True
  | ReturnNull _, ReturnNull _ => True
  | Raise e _, Raise e' _ => e = e'
  | _, _ => False
  end.

Section Modes.

Context {PL : PathLib} {FS : HostFS}.
Variable _base : string.

Lemma symlinksRead_read log path target :
  readlink path = Resolved target ->
  symlinksRead (log ++ [CallReadlink path]) = S (symlinksRead log).
Proof.
  intros H. rewrite symlinksRead_app. unfold symlinksRead at 2. simpl.
  rewrite H. simpl. lia.
Qed.

(** A pass that reads no link does the same in both modes. *)
Lemma body_mode st :
  symlinksRead (Vars.log (flowState (body _base true st)))
  = symlinksRead (Vars.log st) ->
  body _base false st = body _base true st.
Proof.
  unfold body. cbv zeta.
  destruct (JS.seq (nth (Vars.i st) (Vars.src st) "") ".."); [reflexivity|].
  destruct (readlink _) as [linkPath|err] eqn:Hrl; [|reflexivity].
  intros H. exfalso. revert H.
  destruct (40 <? _)%nat;
    [|cbn [negb andb]; destruct (isAbsolute linkPath)];
    cbn [flowState Vars.log]; rewrite (symlinksRead_read _ _ _ Hrl); lia.
Qed.

Lemma loop_mode st :
  symlinksRead (Vars.log (snd (loop _base true st)))
  = symlinksRead (Vars.log st) ->
  loop _base false st = loop _base true st.
Proof.
  set (P := fun (st : Vars.t) (r : Completion * Vars.t) =>
              symlinksRead (Vars.log (snd r)) = symlinksRead (Vars.log st) ->
              loop _base false st = r).
  change (P st (loop _base true st)).
  apply loop_ind; clear st; unfold P; clear P; cbn [fst snd].
  - intros st Hge _. rewrite loop_eq.
    now replace (Vars.i st <? List.length (Vars.src st))%nat with false
      by (symmetry; apply Nat.ltb_ge; exact Hge).
  - intros st st' Hlt Hb IH H.
    destruct (loop_calls _base true (incr st')) as ((l2 & Hl2 & _) & _).
    destruct (body_calls _base true st) as ((l1 & Hl1 & _) & _).
    rewrite Hb in Hl1. cbn [flowState] in Hl1.
    change (Vars.log (incr st')) with (Vars.log st') in Hl2.
    rewrite Hl2, Hl1, !symlinksRead_app in H.
    assert (Hsame : body _base false st = body _base true st).
    { apply body_mode. rewrite Hb. cbn [flowState].
      rewrite Hl1, symlinksRead_app. lia. }
    rewrite loop_eq, Hsame, Hb.
    apply Nat.ltb_lt in Hlt. rewrite Hlt. apply IH.
    change (Vars.log (incr st')) with (Vars.log st').
    rewrite Hl2, Hl1, !symlinksRead_app. lia.
  - intros st st' Hlt Hb H. rewrite loop_eq.
    apply Nat.ltb_lt in Hlt. rewrite Hlt.
    rewrite body_mode by (now rewrite Hb). now rewrite Hb.
  - intros st st' Hlt Hb H. rewrite loop_eq.
    apply Nat.ltb_lt in Hlt. rewrite Hlt.
    rewrite body_mode by (now rewrite Hb). now rewrite Hb.
  - intros st e st' Hlt Hb H. rewrite loop_eq.
    apply Nat.ltb_lt in Hlt. rewrite Hlt.
    rewrite body_mode by (now rewrite Hb). now rewrite Hb.
Qed.

(** When resolving in full reads no symbolic link, resolving without
    following the last link does exactly the same: same calls, same
    outcome.  The modes differ only where there is a link. *)
Theorem fsPath_modes_agree_without_links (src : list string) :
  symlinksRead (calls (_fsPath _base src true)) = 0 ->
  _fsPath _base src false = _fsPath _base src true.
Proof.
  destruct src as [|s src]; [reflexivity|]. intros H.
  rewrite (proj1 (fsPath_of_loop _base s src true)) in H.
  assert (Hloop : loop _base false (entry _base (s :: src))
                  = loop _base true (entry _base (s :: src)))
    by (apply loop_mode; rewrite H; reflexivity).
  unfold _fsPath. now rewrite !validatePath_unfold, Hloop.
Qed.

End Modes.

Lemma fsPath_modes_agree_without_links_witness :
  _fsPath (FS := Sample.plain) "/root" ["d"; "new"] false
  = _fsPath (FS := Sample.plain) "/root" ["d"; "new"] true.
Proof.
  apply (fsPath_modes_agree_without_links (FS := Sample.plain)
                                          "/root" ["d"; "new"]).
  vm_compute. reflexivity.
Defined.

Section Rest.

Context {PL : PathLib} {FS : HostFS}.
Variable _base : string.
Variable thruLast : bool.

Lemma skipn_nth_cons (l : list string) : forall i,
  i < List.length l -> skipn i l = nth i l "" :: skipn (S i) l.
Proof.
  induction l as [|x l IH]; intros [|i] H; simpl in *; try lia.
  - reflexivity.
  - apply IH. lia.
Qed.

Lemma sameRest_facts a b :
  sameRest a b ->
  Vars.i a < List.length (Vars.src a) ->
  Vars.i b < List.length (Vars.src b) /\
  nth (Vars.i a) (Vars.src a) "" = nth (Vars.i b) (Vars.src b) "" /\
  skipn (S (Vars.i a)) (Vars.src a) = skipn (S (Vars.i b)) (Vars.src b) /\
  (Vars.i a =? List.length (Vars.src a) - 1)%nat
  = (Vars.i b =? List.length (Vars.src b) - 1)%nat.
Proof.
  intros (_ & _ & _ & Hrest) Hlt.
  assert (Hlen : List.length (Vars.src a) - Vars.i a
                 = List.length (Vars.src b) - Vars.i b)
    by (rewrite <- !length_skipn; now rewrite Hrest).
  assert (Hltb : Vars.i b < List.length (Vars.src b)) by lia.
  rewrite (skipn_nth_cons _ _ Hlt), (skipn_nth_cons _ _ Hltb) in Hrest.
  inversion Hrest. repeat split; try assumption.
  destruct (Nat.eqb_spec (Vars.i a) (List.length (Vars.src a) - 1));
    symmetry; [apply Nat.eqb_eq|apply Nat.eqb_neq]; lia.
Qed.

Lemma body_rest a b :
  sameRest a b ->
  Vars.i a < List.length (Vars.src a) ->
  sameFlow (body _base thruLast a) (body _base thruLast b) a b.
Proof.
  intros Hsame Hlt.
  destruct (sameRest_facts a b Hsame Hlt) as (_ & Hseg & Hrest & Hlast).
  destruct Hsame as (Hp & Hs & Hd & _).
  assert (Hnil : forall x y : list HostCall,
             exists l, x = x ++ l /\ y = y ++ l)
    by (intros x y; exists []; now rewrite !app_nil_r).
  assert (Hone : forall (x y : list HostCall) c,
             exists l, x ++ [c] = x ++ l /\ y ++ [c] = y ++ l)
    by (intros x y c; now exists [c]).
  unfold body, sameFlow. cbv zeta.
  rewrite Hseg, Hrest, Hlast, Hp, Hs, Hd.
  destruct (JS.seq (nth (Vars.i b) (Vars.src b) "") "..").
  - destruct (Vars.strict b && _); cbn [flowState Vars.log Vars.p
                                        Vars.strict Vars.depth Vars.i Vars.src];
      repeat split; try apply Hnil; assumption.
  - destruct (readlink _) as [linkPath|err].
    + destruct (40 <? _)%nat;
        [|destruct (negb thruLast && _); [|destruct (isAbsolute linkPath)]];
        cbn [flowState Vars.log Vars.p Vars.strict Vars.depth Vars.i Vars.src];
        repeat split; try apply Hone; reflexivity.
    + destruct err as [text|[n m c|m c k]];
        cbn [thrown_code err_code];
        repeat match goal with
               | |- context [if ?x then _ else _] => destruct x
               end;
        cbn [flowState Vars.log Vars.p Vars.strict Vars.depth Vars.i Vars.src];
        repeat split; try apply Hone; try assumption; reflexivity.
Qed.

Lemma loop_rest (a b : Vars.t) :
  sameRest a b ->
  fst (loop _base thruLast a) = fst (loop _base thruLast b) /\
  Vars.p (snd (loop _base thruLast a)) = Vars.p (snd (loop _base thruLast b)) /\
  exists l,
    Vars.log (snd (loop _base thruLast a)) = Vars.log a ++ l /\
    Vars.log (snd (loop _base thruLast b)) = Vars.log b ++ l.
Proof.
  set (P := fun (a : Vars.t) (r : Completion * Vars.t) =>
              forall b, sameRest a b ->
                fst r = fst (loop _base thruLast b) /\
                Vars.p (snd r) = Vars.p (snd (loop _base thruLast b)) /\
                exists l,
                  Vars.log (snd r) = Vars.log a ++ l /\
                  Vars.log (snd (loop _base thruLast b)) = Vars.log b ++ l).
  revert b. change (P a (loop _base thruLast a)).
  apply loop_ind; clear a; unfold P; clear P; cbn [fst snd].
  - intros a Hge b Hsame.
    assert (Hgeb : List.length (Vars.src b) <= Vars.i b).
    { destruct Hsame as (_ & _ & _ & Hrest).
      apply (f_equal (@List.length string)) in Hrest.
      rewrite !length_skipn in Hrest. lia. }
    rewrite loop_eq.
    replace (Vars.i b <? List.length (Vars.src b))%nat with false
      by (symmetry; now apply Nat.ltb_ge).
    cbn [fst snd]. split; [reflexivity|]. split; [apply Hsame|].
    exists []. now rewrite !app_nil_r.
  - intros a a' Hlt Hb IH b Hsame.
    pose proof (body_rest a b Hsame Hlt) as Hflow.
    destruct (sameRest_facts a b Hsame Hlt) as (Hltb & _).
    rewrite Hb in Hflow.
    destruct (body _base thruLast b) as [b'|b'|b'|e b'] eqn:Hbb;
      unfold sameFlow in Hflow; cbn [flowState] in Hflow;
      destruct Hflow as ((l1 & Hla & Hlb) & Hp & Hs & Hd & Hm);
      try contradiction.
    assert (Hnext : sameRest (incr a') (incr b'))
      by (unfold sameRest, incr; cbn; repeat split; assumption).
    destruct (IH (incr b') Hnext) as (Hc & Hpp & l2 & Hl2a & Hl2b).
    rewrite (loop_eq _ _ b), Hbb.
    apply Nat.ltb_lt in Hltb. rewrite Hltb.
    split; [exact Hc|]. split; [exact Hpp|].
    exists (l1 ++ l2).
    change (Vars.log (incr a')) with (Vars.log a') in Hl2a.
    change (Vars.log (incr b')) with (Vars.log b') in Hl2b.
    rewrite Hl2a, Hl2b, Hla, Hlb, !app_assoc. now split.
  - intros a a' Hlt Hb b Hsame.
    pose proof (body_rest a b Hsame Hlt) as Hflow.
    destruct (sameRest_facts a b Hsame Hlt) as (Hltb & _).
    rewrite Hb in Hflow.
    destruct (body _base thruLast b) as [b'|b'|b'|e b'] eqn:Hbb;
      unfold sameFlow in Hflow; cbn [flowState] in Hflow;
      destruct Hflow as (Hl & Hp & Hs & Hd & Hm); try contradiction.
    rewrite (loop_eq _ _ b), Hbb.
    apply Nat.ltb_lt in Hltb. rewrite Hltb. cbn [fst snd]. now repeat split.
  - intros a a' Hlt Hb b Hsame.
    pose proof (body_rest a b Hsame Hlt) as Hflow.
    destruct (sameRest_facts a b Hsame Hlt) as (Hltb & _).
    rewrite Hb in Hflow.
    destruct (body _base thruLast b) as [b'|b'|b'|e b'] eqn:Hbb;
      unfold sameFlow in Hflow; cbn [flowState] in Hflow;
      destruct Hflow as (Hl & Hp & Hs & Hd & Hm); try contradiction.
    rewrite (loop_eq _ _ b), Hbb.
    apply Nat.ltb_lt in Hltb. rewrite Hltb. cbn [fst snd]. now repeat split.
  - intros a e a' Hlt Hb b Hsame.
    pose proof (body_rest a b Hsame Hlt) as Hflow.
    destruct (sameRest_facts a b Hsame Hlt) as (Hltb & _).
    rewrite Hb in Hflow.
    destruct (body _base thruLast b) as [b'|b'|b'|e' b'] eqn:Hbb;
      unfold sameFlow in Hflow; cbn [flowState] in Hflow;
      destruct Hflow as (Hl & Hp & Hs & Hd & Hm); try contradiction.
    rewrite (loop_eq _ _ b), Hbb.
    apply Nat.ltb_lt in Hltb. rewrite Hltb. cbn [fst snd]. subst e'.
    now repeat split.
Qed.

(** From two states that agree on the running path, the flag, the counter
    and the segments still to visit, the loop ends the same way, at the
    same path, after the same calls: what lies before index [i] in [src]
    plays no part. *)
Theorem resolution_depends_on_rest (a b : Vars.t) :
  sameRest a b ->
  fst (loop _base thruLast a) = fst (loop _base thruLast b) /\
  Vars.p (snd (loop _base thruLast a)) = Vars.p (snd (loop _base thruLast b)) /\
  exists l,
    Vars.log (snd (loop _base thruLast a)) = Vars.log a ++ l /\
    Vars.log (snd (loop _base thruLast b)) = Vars.log b ++ l.
Proof. apply loop_rest. Qed.

(** A leading [.] or empty segment changes nothing but the log: the base
    directory is read once as a possible link, the host says it is none,
    and the rest is resolved as without that segment. *)
Theorem fsPath_ignores_leading_dot (seg : string) (src : list string) :
  seg = "." \/ seg = "" ->
  rejectedWith "EINVAL" _base ->
  _base <> "" ->
  outcome (_fsPath _base (seg :: src) thruLast)
  = outcome (_fsPath _base src thruLast) /\
  calls (_fsPath _base (seg :: src) thruLast)
  = CallReadlink _base :: calls (_fsPath _base src thruLast).
Proof.
  intros Hseg (v & Hv & Hnot & Hcode) Hbase.
  assert (Hchild : childOf _base seg = _base)
    by (destruct Hseg; subst; reflexivity).
  assert (Hdots : JS.seq seg ".." = false)
    by (destruct Hseg; subst; reflexivity).
  set (a := Vars.mk _base true 0 (seg :: src) 1 [CallReadlink _base]).
  assert (Hfirst : loop _base thruLast (entry _base (seg :: src))
                   = loop _base thruLast a).
  { set (st := entry _base (seg :: src)).
    assert (Hd : JS.seq (nth (Vars.i st) (Vars.src st) "") ".." = false)
      by exact Hdots.
    assert (Hrej : readlink (childOf (Vars.p st)
                                     (nth (Vars.i st) (Vars.src st) ""))
                   = Rejected v)
      by (change (readlink (childOf _base seg) = Rejected v);
          now rewrite Hchild).
    rewrite loop_eq, (body_rejected _base thruLast st v Hd Hrej Hnot).
    cbv zeta. rewrite Hcode.
    change (childOf (Vars.p st) (nth (Vars.i st) (Vars.src st) ""))
      with (childOf _base seg).
    rewrite Hchild. reflexivity. }
  assert (Hsame : sameRest a (entry _base src))
    by (unfold sameRest; cbn; repeat split).
  destruct (loop_rest a (entry _base src) Hsame) as (Hc & Hp & l & Hla & Hlb).
  cbn [a entry Vars.log app] in Hla, Hlb.
  destruct src as [|s src'].
  - unfold _fsPath, bind, calls, outcome. rewrite validatePath_unfold, Hfirst.
    unfold a. rewrite (loop_at_end _base thruLast _base true 0 [seg]).
    cbn [Vars.p Vars.log]. rewrite locOK_base.
    destruct _base; [congruence|]. split; reflexivity.
  - unfold _fsPath, bind, calls, outcome.
    rewrite !validatePath_unfold, Hfirst.
    destruct (loop _base thruLast a) as [ca sa].
    destruct (loop _base thruLast (entry _base (s :: src'))) as [cb sb].
    cbn [fst snd] in *. subst cb. rewrite Hla, Hlb, Hp.
    destruct ca as [| |e]; cbn [fst snd].
    + destruct (_locOK _base (Vars.p sb)); [destruct (Vars.p sb)|];
        cbn [fst snd]; rewrite ?app_nil_r; split; reflexivity.
    + split; reflexivity.
    + split; reflexivity.
Qed.

(** A leading [..] is refused before the host is asked anything, whenever
    the parent of the base directory fails the containment test. *)
Theorem fsPath_refuses_leading_dotdot (rest : list string) :
  _locOK _base (path_join [_base; ".."]) = false ->
  _fsPath _base (".." :: rest) thruLast = ([], Throw outsideBase).
Proof.
  intros Hout. unfold _fsPath, bind. rewrite validatePath_unfold, loop_eq.
  unfold entry, body.
  cbn [Vars.i Vars.src Vars.p Vars.strict nth List.length Nat.ltb Nat.leb].
  change (JS.seq ".." "..") with true. cbv iota zeta. rewrite Hout.
  reflexivity.
Qed.

End Rest.

Lemma resolution_depends_on_rest_witness :
  fst (loop (FS := Sample.plain) "/root" true
            (Vars.mk "/root" true 0 ["gone"; "x"; "d"] 2 []))
  = fst (loop (FS := Sample.plain) "/root" true (entry "/root" ["d"])).
Proof.
  apply (resolution_depends_on_rest (FS := Sample.plain) "/root" true).
  repeat split.
Defined.

Lemma fsPath_ignores_leading_dot_witness :
  outcome (_fsPath (FS := Sample.plain) "/root" ["."; "d"] true)
  = outcome (_fsPath (FS := Sample.plain) "/root" ["d"] true).
Proof.
  apply (fsPath_ignores_leading_dot (FS := Sample.plain) "/root" true "." ["d"]).
  - now left.
  - exists Sample.notALink. split; [reflexivity|]. split; [discriminate|].
    reflexivity.
  - discriminate.
Defined.

Lemma fsPath_refuses_leading_dotdot_witness :
  _fsPath (FS := Sample.plain) "/root" [".."; "etc"; "passwd"] true
  = ([], Throw outsideBase).
Proof.
  apply (fsPath_refuses_leading_dotdot (FS := Sample.plain) "/root" true).
  reflexivity.
Defined.

(** With the filesystem root as base directory the parent of the base is
    the base, and a leading [..] stays where it is. *)
Example dotdot_at_filesystem_root :
  _fsPath (FS := Sample.hostOf [] ["/"]) "/" [".."] true = ([], Ok "/").
Proof. reflexivity. Qed.

(** ** The notifier's call *)

Section NotifierCall.

Context {PL : PathLib} {PE : PathExtra}.
Variable _base : string.


End NotifierCall.

(** ** The registrations, continued *)

(** Every identity in the set is below the allocation counter, and no two
    entries share one. *)
Definition entriesInv (w : WatchState) : Prop :=
  NoDup (map cb_id (_watchCallbacks w)) /\
  forall cb, In cb (_watchCallbacks w) -> cb_id cb < entries w.

Lemma deleteEntry_incl entry cbs cb :
  In cb (deleteEntry entry cbs) -> In cb cbs.
Proof. unfold deleteEntry. intros H. now apply filter_In in H. Qed.

Lemma deleteEntry_NoDup entry cbs :
  NoDup (map cb_id cbs) -> NoDup (map cb_id (deleteEntry entry cbs)).
Proof.
  induction cbs as [|c cbs IH]; intros H; [constructor|].
  simpl in *. inversion H as [|x l Hnotin Hnd]; subst.
  destruct (negb (Nat.eqb (cb_id c) entry)).
  - simpl. constructor; [|now apply IH].
    intros Hin. apply Hnotin. apply in_map_iff in Hin as (c' & Hid & Hc').
    apply in_map_iff. exists c'. split; [exact Hid|].
    now apply deleteEntry_incl in Hc'.
  - now apply IH.
Qed.

Lemma entriesInv_step w c : entriesInv w -> entriesInv (fst (step w c)).
Proof.
  intros [Hnd Hlt].
  assert (Hadd : forall m,
             NoDup (map cb_id (_watchCallbacks w ++ [mkCallback (entries w) m]))
             /\ forall cb, In cb (_watchCallbacks w ++ [mkCallback (entries w) m])
                           -> cb_id cb < S (entries w)).
  { intros m. split.
    - rewrite map_app. simpl. apply NoDup_app; [exact Hnd|repeat constructor; intros []|].
      intros x Hin [<-|[]]. apply in_map_iff in Hin as (cb & Hid & Hcb).
      specialize (Hlt cb Hcb). lia.
    - intros cb Hin. apply in_app_or in Hin as [Hin|[<-|[]]].
      + specialize (Hlt cb Hin). lia.
      + simpl. lia. }
  assert (Hdel : forall entry,
             NoDup (map cb_id (deleteEntry entry (_watchCallbacks w)))
             /\ forall cb, In cb (deleteEntry entry (_watchCallbacks w))
                           -> cb_id cb < entries w).
  { intros entry. split; [now apply deleteEntry_NoDup|].
    intros cb Hin. apply Hlt. now apply deleteEntry_incl in Hin. }
  destruct c as [m native|entry native]; simpl.
  - unfold _watch, _watch_enter, _watch_resume.
    destruct (_watcher w); [apply (Hadd m)|].
    destruct native; apply (Hadd m).
  - unfold unsubscribe. specialize (Hdel entry).
    destruct (deleteEntry entry (_watchCallbacks w)) as [|cb cbs] eqn:E.
    + destruct (_watcher w); [destruct native|]; simpl;
        split; try constructor; intros ? [].
    + exact Hdel.
Qed.

(** Whatever requests were made and however they ended, no two
    registrations in the set share an identity, and every identity is one
    that [_watch] has handed out: the fan-out can tell the registrations
    apart. *)
Theorem registrations_stay_distinct (cs : list WatchCmd) :
  NoDup (map cb_id (_watchCallbacks (fst (run newWatchState cs)))) /\
  forall cb, In cb (_watchCallbacks (fst (run newWatchState cs))) ->
             cb_id cb < entries (fst (run newWatchState cs)).
Proof.
  assert (G : forall w, entriesInv w -> entriesInv (fst (run w cs))).
  { induction cs as [|c cs' IH]; intros w Hinv; [exact Hinv|].
    simpl. pose proof (entriesInv_step w c Hinv) as Hs.
    destruct (step w c) as [w' ok]. specialize (IH w' Hs).
    destruct (run w' cs') as [w'' ok']. exact IH. }
  apply G. split; [constructor|intros cb []].
Qed.

Lemma deleteEntry_twice entry cbs :
  deleteEntry entry (deleteEntry entry cbs) = deleteEntry entry cbs.
Proof.
  unfold deleteEntry. induction cbs as [|c cbs IH]; [reflexivity|].
  simpl. destruct (negb (Nat.eqb (cb_id c) entry)) eqn:E; [|exact IH].
  simpl. now rewrite E, IH.
Qed.

(** Unsubscribing while other registrations remain takes the entry out of
    the set and nothing else: the notifier is not called, the shared
    subscription stays, the request returns normally; and calling the same
    closure once more changes nothing. *)
Theorem unsubscribe_spares_the_others
        (w : WatchState) (entry : nat) (native native' : HostResult unit) :
  deleteEntry entry (_watchCallbacks w) <> [] ->
  unsubscribe entry native w
  = (mkWatch (deleteEntry entry (_watchCallbacks w)) (_watcher w)
             (issued w) (live w) (entries w), Ok tt) /\
  unsubscribe entry native' (fst (unsubscribe entry native w))
  = (fst (unsubscribe entry native w), Ok tt).
Proof.
  intros Hne.
  assert (H1 : unsubscribe entry native w
               = (mkWatch (deleteEntry entry (_watchCallbacks w)) (_watcher w)
                          (issued w) (live w) (entries w), Ok tt)).
  { unfold unsubscribe.
    destruct (deleteEntry entry (_watchCallbacks w)); [congruence|reflexivity]. }
  split; [exact H1|]. rewrite H1. cbn [fst].
  unfold unsubscribe. cbn [_watchCallbacks _watcher issued live entries].
  rewrite deleteEntry_twice.
  destruct (deleteEntry entry (_watchCallbacks w)); [congruence|reflexivity].
Qed.

Lemma unsubscribe_spares_the_others_witness :
  unsubscribe 0 (Rejected (NotAnError "unused"))
              (mkWatch [mkCallback 0 (String.eqb "/a");
                        mkCallback 1 (String.eqb "/b")]
                       (Some 0) 1 [0] 2)
  = (mkWatch [mkCallback 1 (String.eqb "/b")] (Some 0) 1 [0] 2, Ok tt).
Proof.
  apply (unsubscribe_spares_the_others
           (mkWatch [mkCallback 0 (String.eqb "/a");
                     mkCallback 1 (String.eqb "/b")]
                    (Some 0) 1 [0] 2)
           0 (Rejected (NotAnError "unused")) (Resolved tt)).
  discriminate.
Defined.

(** The closure that tore the subscription down, called again, throws the
    [TypeError] of reading [unsubscribe] from [undefined]: it is not a
    [VFSError] and has not gone through [wrapVFSErr].  The state stays as
    the first call left it. *)
Theorem unsubscribe_again_throws_TypeError
        (w : WatchState) (entry h : nat) (native : HostResult unit) :
  _watcher w = Some h ->
  deleteEntry entry (_watchCallbacks w) = [] ->
  unsubscribe entry native (fst (unsubscribe entry (Resolved tt) w))
  = (fst (unsubscribe entry (Resolved tt) w), Throw undefinedWatcher) /\
  ~ normalized undefinedWatcher.
Proof.
  intros Hw Hdel. split.
  - unfold unsubscribe. rewrite Hdel, Hw. reflexivity.
  - intros [H|[H|H]]; discriminate.
Qed.

Lemma unsubscribe_again_throws_TypeError_witness :
  snd (unsubscribe 0 (Resolved tt)
         (fst (unsubscribe 0 (Resolved tt)
                 (fst (_watch (String.eqb "/a") (Resolved tt)
                              newWatchState)))))
  = Throw undefinedWatcher.
Proof.
  pose proof (unsubscribe_again_throws_TypeError
                (fst (_watch (String.eqb "/a") (Resolved tt) newWatchState))
                0 0 (Resolved tt) eq_refl eq_refl) as [H _].
  now rewrite H.
Defined.

(** What holds once a first [_watch] has failed to subscribe: its entry is
    in the set, no call waits with that entry and no caller holds its
    closure, and every subscription the notifier has handed out is still
    live. *)
Definition pinned (m : Machine) : Prop :=
  (exists cb, In cb (_watchCallbacks (backend m)) /\ cb_id cb = 0) /\
  1 <= entries (backend m) /\
  ~ In 0 (waiting m) /\
  ~ In 0 (closures m) /\
  live (backend m) = rev (List.seq 0 (issued (backend m))).

Lemma existsb_eqb_In entry l :
  existsb (Nat.eqb entry) l = true -> In entry l.
Proof.
  intros H. apply existsb_exists in H as (x & Hin & Hx).
  apply Nat.eqb_eq in Hx. now subst.
Qed.

Lemma not_in_filter (P : nat -> bool) l x : ~ In x l -> ~ In x (filter P l).
Proof. intros H Hin. apply filter_In in Hin as [Hin _]. now apply H. Qed.

Lemma not_in_snoc (l : list nat) x y : ~ In x l -> x <> y -> ~ In x (l ++ [y]).
Proof.
  intros Hl Hy Hin. apply in_app_or in Hin as [Hin|[Hin|[]]];
    [now apply Hl|now apply Hy].
Qed.

Lemma pinned_act m a : pinned m -> pinned (act m a).
Proof.
  intros ((cb & Hin & Hid) & Hent & Hwait & Hclo & Hlive).
  destruct a as [matches|entry native|entry native]; unfold act.
  - assert (Hfresh : 0 <> entries (backend m)) by lia.
    unfold _watch_enter.
    destruct (_watcher (backend m)); cbn [backend waiting closures].
    + refine (conj _ (conj _ (conj _ (conj _ _))));
        cbn [backend waiting closures _watchCallbacks entries live issued cb_id].
      * exists cb. split; [apply in_or_app; now left|exact Hid].
      * lia.
      * exact Hwait.
      * now apply not_in_snoc.
      * exact Hlive.
    + refine (conj _ (conj _ (conj _ (conj _ _))));
        cbn [backend waiting closures _watchCallbacks entries live issued cb_id].
      * exists cb. split; [apply in_or_app; now left|exact Hid].
      * lia.
      * now apply not_in_snoc.
      * exact Hclo.
      * exact Hlive.
  - destruct (existsb (Nat.eqb entry) (waiting m)) eqn:Hex;
      [|now refine (conj (ex_intro _ cb (conj Hin Hid)) _)].
    apply existsb_eqb_In in Hex.
    assert (Hne : 0 <> entry) by (intros <-; now apply Hwait).
    unfold _watch_resume. destruct native as [u|v];
      cbn [backend waiting closures];
      refine (conj _ (conj _ (conj _ (conj _ _))));
      cbn [backend waiting closures _watchCallbacks entries live issued cb_id];
      try (exists cb; now split); try assumption;
      try (now apply not_in_filter); try (now apply not_in_snoc).
    rewrite Hlive, seq_S, rev_app_distr. reflexivity.
  - destruct (existsb (Nat.eqb entry) (closures m)) eqn:Hex;
      [|now refine (conj (ex_intro _ cb (conj Hin Hid)) _)].
    apply existsb_eqb_In in Hex.
    assert (Hne : 0 <> entry) by (intros <-; now apply Hclo).
    assert (Hkept : In cb (deleteEntry entry (_watchCallbacks (backend m)))).
    { unfold deleteEntry. apply filter_In. split; [exact Hin|].
      rewrite Hid. apply negb_true_iff, Nat.eqb_neq. exact Hne. }
    unfold unsubscribe.
    destruct (deleteEntry entry (_watchCallbacks (backend m))) as [|c cbs];
      [contradiction|].
    cbn [fst backend waiting closures].
    refine (conj _ (conj _ (conj _ (conj _ _))));
      cbn [backend waiting closures _watchCallbacks entries live issued cb_id]; try assumption.
    exists cb. now split.
Qed.

Lemma pinned_play acts : forall m, pinned m -> pinned (play m acts).
Proof.
  induction acts as [|a acts IH]; intros m Hm; [exact Hm|].
  apply IH. now apply pinned_act.
Qed.

(** When the notifier refuses the subscription of the very first
    [_watch], that call throws, yet its entry stays in the set, and the
    caller has no closure to remove it with.  From then on, whatever is
    called, in whatever order and with whatever overlap, the set never
    becomes empty again, so no subscription is ever given back: every
    subscription that the notifier has handed out stays live. *)
Theorem refused_first_watch_pins_subscription
        (matches : string -> bool) (v : JsValue) (acts : list WatchAct) :
  let m := play (play newMachine [Invoke matches; Settle 0 (Rejected v)])
                acts in
  _watchCallbacks (backend m) <> [] /\
  ~ In 0 (closures m) /\
  live (backend m) = rev (List.seq 0 (issued (backend m))).
Proof.
  assert (H0 : pinned (play newMachine
                            [Invoke matches; Settle 0 (Rejected v)])).
  { cbn. refine (conj _ (conj _ (conj _ (conj _ _)))); cbn;
      [eexists; split; [now left|reflexivity]|lia| | |reflexivity];
      intros []. }
  destruct (pinned_play acts _ H0) as ((cb & Hin & _) & _ & _ & Hclo & Hlive).
  cbv zeta. refine (conj _ (conj Hclo Hlive)).
  intros Hnil. rewrite Hnil in Hin. exact Hin.
Qed.

(** After a refused first call, two calls that overlap and whose closures
    are both called leave two subscriptions live. *)
Example refused_then_overlapping :
  let m :=
    play newMachine
         [Invoke (String.eqb "/a");
          Settle 0 (Rejected (AnError (HostError "Error" "no watcher" None)));
          Invoke (String.eqb "/b"); Invoke (String.eqb "/c");
          Settle 1 (Resolved tt); Settle 2 (Resolved tt);
          Release 1 (Resolved tt); Release 2 (Resolved tt)] in
  live (backend m) = [1; 0] /\
  map cb_id (_watchCallbacks (backend m)) = [0].
Proof. vm_compute. split; reflexivity. Qed.

(* ===================================================================== *)
(** * The remaining path-taking operations *)
(* ===================================================================== *)

From Stdlib Require Import ZArith.

(** What [stat] and [lstat] resolve with: the kind of the entry, which is
    what [isFile], [isDirectory] and [isSymbolicLink] report, and its
    size. *)
Record FileStat : Type := mkStat {
  st_kind : Stats;
  st_size : nat
}.

Definition isFile (k : Stats) : bool :=
  match k with StatFile => true | _ => false end.

Definition isDirectory (k : Stats) : bool :=
  match k with StatDir => true | _ => false end.

Definition isSymbolicLink (k : Stats) : bool :=
  match k with StatSymlink => true | _ => false end.

(** [VFSEntryType] *)
Inductive EntryType : Type := TypeFile | TypeDir | TypeSymlink.

Definition getEntryType (k : Stats) : option EntryType :=
  if isFile k then Some TypeFile
  else if isDirectory k then Some TypeDir
  else if isSymbolicLink k then Some TypeSymlink
  else None.

(** A directory entry as [readdir] with [withFileTypes] gives it. *)
Record Dirent : Type := mkDirent {
  d_name : string;
  d_kind : Stats
}.

(** [VFSDirent] *)
Record VFSDirent : Type := mkVFSDirent {
  v_type : EntryType;
  v_name : string
}.

(** The host calls of the operations below, next to the ones the resolver
    and the operations above make.  Bytes are written as they come. *)
Class HostIO : Type := {
  statFull : string -> HostResult FileStat;          (* fs.promises.stat *)
  lstatFull : string -> HostResult FileStat;         (* fs.promises.lstat *)
  readdir : string -> HostResult (list string);
  readdirTyped : string -> HostResult (list Dirent);
  readFile : string -> HostResult (list Byte.byte);
  writeFile : string -> list Byte.byte -> bool -> HostResult unit;
  truncate : string -> nat -> HostResult unit;
  rm : string -> bool -> HostResult unit;
  mkdir : string -> HostResult unit;
  openAt : string -> Z -> HostResult nat
}.

(** The [fs.constants] that [_openFile] combines. *)
Class OpenFlags : Type := {
  O_RDONLY : Z;
  O_WRONLY : Z;
  O_RDWR : Z;
  O_CREAT : Z;
  O_TRUNC : Z
}.

(** Their values on Linux. *)
Definition linuxFlags : OpenFlags :=
  {| O_RDONLY := 0; O_WRONLY := 1; O_RDWR := 2;
     O_CREAT := 64; O_TRUNC := 512 |}.

Inductive IoCall : Type :=
| Seen (c : HostCall)
| CallStatFull (path : string)
| CallLstat (path : string)
| CallReaddir (path : string)
| CallReadFile (path : string)
| CallWriteFile (path : string) (append : bool)
| CallTruncate (path : string) (to : nat)
| CallRm (path : string) (recursive : bool)
| CallMkdir (path : string)
| CallOpen (path : string) (flag : Z).

(** Operations over the larger set of calls. *)
Definition Io (A : Type) : Type := (list IoCall * Outcome A)%type.

Definition io_ret {A} (a : A) : Io A := ([], Ok a).

Definition io_throw {A} (e : JsError) : Io A := ([], Throw e).

Definition io_bind {A B} (m : Io A) (k : A -> Io B) : Io B :=
  match m with
  | (t, Ok a) => let (t', r) := k a in (t ++ t', r)
  | (t, Throw e) => (t, Throw e)
  end.

(** An operation of the first kind, among these. *)
Definition seen {A} (m : Op A) : Io A := (map Seen (fst m), snd m).

(** [withVFSErr(fs.promises.f(args))], recorded in the log *)
Definition io_host {A} (c : IoCall) (r : HostResult A) : Io A :=
  ([c], withVFSErr r).

Notation "x <~ m ;; k" := (io_bind m (fun x => k))
  (at level 61, m at next level, right associativity).

Section MoreOperations.

Context {PL : PathLib} {FS : HostFS} {IO : HostIO} {OF : OpenFlags}.
Variable _base : string.

Definition notADirectory (path : string) : JsError :=
  VFSError (path ++ " is not a directory") (Some "ENOTDIR") None.

Definition unknownFileType : JsError :=
  VFSError "unknown file type" (Some "ENOSYS") None.

Definition ensureDir (path : string) : Io string :=
  statInfo <~ io_host (CallStatFull path) (statFull path) ;;
  if negb (isDirectory (st_kind statInfo))
  then io_throw (notADirectory path)
  else io_ret path.

Definition _appendFile (file : list string) (data : list Byte.byte)
  : Io unit :=
  path <~ seen (_fsPath _base file true) ;;
  io_host (CallWriteFile path true) (writeFile path data true).

Definition _writeFile (file : list string) (data : list Byte.byte)
  : Io unit :=
  path <~ seen (_fsPath _base file true) ;;
  io_host (CallWriteFile path false) (writeFile path data false).

Definition _readFile (file : list string) : Io (list Byte.byte) :=
  path <~ seen (_fsPath _base file true) ;;
  io_host (CallReadFile path) (readFile path).

Definition _readDir (dir : list string) : Io (list string) :=
  path <~ seen (_fsPath _base dir true) ;;
  io_host (CallReaddir path) (readdir path).

(** [dirents.map(...).filter(ent => ent !== null)] *)
Definition typedEntries (dirents : list Dirent) : list VFSDirent :=
  let mapped :=
    map (fun ent =>
           match getEntryType (d_kind ent) with
           | Some type => Some (mkVFSDirent type (d_name ent))
           | None => None
           end) dirents in
  flat_map (fun ent =>
              match ent with
              | Some v => [v]
              | None => []
              end) mapped.

Definition _readDirent (dir : list string) : Io (list VFSDirent) :=
  path <~ seen (_fsPath _base dir true) ;;
  dirents <~ io_host (CallReaddir path) (readdirTyped path) ;;
  io_ret (typedEntries dirents).

Definition _removeDir (dir : list string) (recursive : bool) : Io unit :=
  path <~ seen (_fsPath _base dir true) ;;
  checked <~ ensureDir (path ++ "/") ;;
  io_host (CallRm checked recursive) (rm checked recursive).

Definition typed (s : FileStat) : Io (nat * EntryType) :=
  match getEntryType (st_kind s) with
  | None => io_throw unknownFileType
  | Some type => io_ret (st_size s, type)
  end.

Definition _stat (file : list string) : Io (nat * EntryType) :=
  path <~ seen (_fsPath _base file true) ;;
  s <~ io_host (CallStatFull path) (statFull path) ;;
  typed s.

Definition _lstat (file : list string) : Io (nat * EntryType) :=
  path <~ seen (_fsPath _base file false) ;;
  s <~ io_host (CallLstat path) (lstatFull path) ;;
  typed s.

Definition _truncate (file : list string) (to : nat) : Io unit :=
  path <~ seen (_fsPath _base file true) ;;
  io_host (CallTruncate path to) (truncate path to).

Definition _mkdir (dir : list string) : Io unit :=
  path <~ seen (_fsPath _base dir true) ;;
  io_host (CallMkdir (path ++ "/")) (mkdir (path ++ "/")).

(** The flag [_openFile] computes. *)
Definition openFlag (read write truncate : bool) : Z :=
  let flag :=
    if write
    then if read then Z.lor O_RDWR O_CREAT else Z.lor O_WRONLY O_CREAT
    else O_RDONLY in
  if truncate then Z.lor flag O_TRUNC else flag.

(** [_openFile]; the value is the handle the host opened, which
    [NodeVFSFileHandle] wraps. *)
Definition _openFile (file : list string) (read write truncate : bool)
  : Io nat :=
  path <~ seen (_fsPath _base file true) ;;
  io_host (CallOpen path (openFlag read write truncate))
          (openAt path (openFlag read write truncate)).

End MoreOperations.

(** ** Where these operations act *)

(** The outcome of an operation, if it is a throw, throws a normalized
    error. *)
Definition ioThrowsNormalized {A} (m : Io A) : Prop :=
  match snd m with
  | Throw e => normalized e
  | Ok _ => True
  end.

Section MoreOperationsEffects.

Context {PL : PathLib} {FS : HostFS} {IO : HostIO} {OF : OpenFlags}.
Variable _base : string.

(** The calls of an operation are those of the resolution of [src], all
    of them [readlink]s, and, when the resolution has returned a path,
    which is then inside the jail, the calls that [after] describes for
    that path.  When the resolution has thrown, there is no call more and
    the operation throws the same error. *)
Definition staysInsideJail {A} (src : list string) (thruLast : bool)
           (after : string -> list IoCall -> Prop) (m : Io A) : Prop :=
  Forall isReadlink (calls (_fsPath _base src thruLast)) /\
  match outcome (_fsPath _base src thruLast) with
  | Ok R =>
      in_jail _base R /\
      exists more,
        fst m = map Seen (calls (_fsPath _base src thruLast)) ++ more /\
        after R more
  | Throw e =>
      fst m = map Seen (calls (_fsPath _base src thruLast)) /\
      snd m = Throw e
  end.

(** One call, [call] on the resolved path. *)
Definition once (call : string -> IoCall) (R : string) (more : list IoCall)
  : Prop :=
  more = [call R].

(** [stat] on the resolved path with a slash after it, and then, or not,
    [rm] on the same. *)
Definition statThenRm (recursive : bool) (R : string) (more : list IoCall)
  : Prop :=
  more = [CallStatFull (R ++ "/")] \/
  more = [CallStatFull (R ++ "/"); CallRm (R ++ "/") recursive].

Lemma fsPath_jailed_result src thruLast R :
  outcome (_fsPath _base src thruLast) = Ok R -> in_jail _base R.
Proof.
  destruct src as [|s src'].
  - simpl. intros H. inversion H. now left.
  - unfold _fsPath, bind, outcome. rewrite validatePath_unfold.
    destruct (loop _ _ _) as [[| |e] st]; simpl; try discriminate.
    destruct (_locOK _base (Vars.p st)) eqn:Hok; simpl; [|discriminate].
    destruct (Vars.p st) eqn:Hp; simpl; [discriminate|].
    intros H. inversion H; subst. now apply locOK_in_jail.
Qed.

Lemma io_after_resolution {B} src thruLast
      (after : string -> list IoCall -> Prop) (k : string -> Io B) :
  (forall path, after path (fst (k path))) ->
  (forall path, ioThrowsNormalized (k path)) ->
  staysInsideJail src thruLast after
                  (io_bind (seen (_fsPath _base src thruLast)) k) /\
  ioThrowsNormalized (io_bind (seen (_fsPath _base src thruLast)) k).
Proof.
  intros Hk Hn.
  destruct (fsPath_calls _base src thruLast) as [Hreads Hthrow].
  pose proof (fsPath_jailed_result src thruLast) as Hjail.
  unfold staysInsideJail, ioThrowsNormalized, throwsNormalized, io_bind, seen,
    calls, outcome in *.
  destruct (_fsPath _base src thruLast) as [t [path|e]]; cbn [fst snd] in *.
  - specialize (Hk path). specialize (Hn path).
    destruct (k path) as [t' r]. cbn [fst snd] in *.
    split; [|exact Hn]. split; [exact Hreads|].
    split; [now apply Hjail|]. exists t'. now split.
  - split; [|exact Hthrow]. split; [exact Hreads|]. now split.
Qed.

Lemma io_host_calls {A} (call : string -> IoCall) path (r : HostResult A) :
  once call path (fst (io_host (call path) r)).
Proof. reflexivity. Qed.

Lemma io_host_throws {A} c (r : HostResult A) :
  ioThrowsNormalized (io_host c r).
Proof.
  unfold io_host, ioThrowsNormalized, withVFSErr. cbn [snd].
  destruct r; [exact I|apply wrapVFSErr_normalized].
Qed.

Lemma io_host_then_calls {A B} (call : string -> IoCall) path
      (r : HostResult A) (k : A -> Io B) :
  (forall a, fst (k a) = []) ->
  once call path (fst (io_bind (io_host (call path) r) k)).
Proof.
  intros Hk. unfold once, io_bind, io_host, withVFSErr.
  destruct r as [a|v]; cbn [fst snd]; [|reflexivity].
  specialize (Hk a). destruct (k a) as [t' r']. cbn [fst snd] in *.
  now subst t'.
Qed.

Lemma io_host_then_throws {A B} c (r : HostResult A) (k : A -> Io B) :
  (forall a, ioThrowsNormalized (k a)) ->
  ioThrowsNormalized (io_bind (io_host c r) k).
Proof.
  intros Hn. unfold io_bind, io_host, ioThrowsNormalized, withVFSErr in *.
  destruct r as [a|v]; cbn [fst snd].
  - specialize (Hn a). now destruct (k a) as [t' r'].
  - apply wrapVFSErr_normalized.
Qed.

Lemma typed_quiet s : fst (typed s) = [] /\ ioThrowsNormalized (typed s).
Proof.
  unfold typed, ioThrowsNormalized.
  destruct (getEntryType (st_kind s)); cbn [fst snd];
    split; try reflexivity; try exact I. now left.
Qed.

(** [ensureDir]: one [stat]; then the same path back, or a throw. *)
Lemma ensureDir_cases path :
  (exists s, statFull path = Resolved s /\
             isDirectory (st_kind s) = true /\
             ensureDir path = ([CallStatFull path], Ok path)) \/
  (exists e, ensureDir path = ([CallStatFull path], Throw e) /\
             normalized e).
Proof.
  unfold ensureDir, io_bind, io_host, withVFSErr.
  destruct (statFull path) as [s|v].
  - destruct (isDirectory (st_kind s)) eqn:Hd; cbn.
    + left. exists s. now repeat split.
    + right. eexists. split; [reflexivity|now left].
  - right. eexists. split; [reflexivity|]. apply wrapVFSErr_normalized.
Qed.

(** [rm] on a path only after [stat] called it a directory. *)
Definition rmOnlyDirectories (cs : list IoCall) : Prop :=
  Forall (fun c =>
            match c with
            | CallRm q _ => exists s, statFull q = Resolved s /\
                                      isDirectory (st_kind s) = true
            | _ => True
            end) cs.

Lemma removeDir_tail path recursive :
  statThenRm recursive path
    (fst (checked <~ ensureDir (path ++ "/") ;;
          io_host (CallRm checked recursive) (rm checked recursive))) /\
  ioThrowsNormalized
    (checked <~ ensureDir (path ++ "/") ;;
     io_host (CallRm checked recursive) (rm checked recursive)) /\
  rmOnlyDirectories
    (fst (checked <~ ensureDir (path ++ "/") ;;
          io_host (CallRm checked recursive) (rm checked recursive))).
Proof.
  destruct (ensureDir_cases (path ++ "/"))
    as [(s & Hs & Hd & ->)|(e & -> & He)].
  - unfold statThenRm, io_bind, io_host, ioThrowsNormalized, withVFSErr.
    cbn [fst snd app].
    split; [now right|]. split.
    + destruct (rm (path ++ "/") recursive);
        [exact I|apply wrapVFSErr_normalized].
    + repeat constructor. now exists s.
  - unfold statThenRm, io_bind, ioThrowsNormalized. cbn [fst snd].
    split; [now left|]. split; [exact He|]. now repeat constructor.
Qed.

Lemma io_ret_quiet {A} (a : A) :
  fst (io_ret a) = [] /\ ioThrowsNormalized (io_ret a).
Proof. now split. Qed.

(** After the resolution, one host call on the resolved path. *)
Lemma one_call {A} src thruLast (call : string -> IoCall)
      (r : string -> HostResult A) :
  staysInsideJail src thruLast (once call)
    (path <~ seen (_fsPath _base src thruLast) ;; io_host (call path) (r path))
  /\
  ioThrowsNormalized
    (path <~ seen (_fsPath _base src thruLast) ;; io_host (call path) (r path)).
Proof.
  apply io_after_resolution; intros path;
    [apply io_host_calls|apply io_host_throws].
Qed.

(** After the resolution, one host call and a step that calls nothing. *)
Lemma one_call_then {A B} src thruLast (call : string -> IoCall)
      (r : string -> HostResult A) (k : A -> Io B) :
  (forall a, fst (k a) = [] /\ ioThrowsNormalized (k a)) ->
  staysInsideJail src thruLast (once call)
    (path <~ seen (_fsPath _base src thruLast) ;;
     io_bind (io_host (call path) (r path)) k)
  /\
  ioThrowsNormalized
    (path <~ seen (_fsPath _base src thruLast) ;;
     io_bind (io_host (call path) (r path)) k).
Proof.
  intros Hk. apply io_after_resolution; intros path.
  - apply io_host_then_calls. intros a. apply Hk.
  - apply io_host_then_throws. intros a. apply Hk.
Qed.

Lemma removeDir_effects dir recursive :
  staysInsideJail dir true (statThenRm recursive)
                  (_removeDir _base dir recursive) /\
  ioThrowsNormalized (_removeDir _base dir recursive).
Proof.
  apply io_after_resolution; intros path; apply removeDir_tail.
Qed.

(** [_appendFile], [_writeFile], [_readFile], [_readDir], [_readDirent],
    [_removeDir], [_stat], [_lstat], [_truncate], [_mkdir] and [_openFile]
    first resolve, which only reads links.  When the resolution returns a
    path, that path is inside the jail and the operation makes one call
    more, on that path, or, for [_mkdir], on that path with a slash after
    it; [_removeDir] makes one or two, [stat] and then, or not, [rm], both
    on that path with a slash after it.  When the resolution throws, the
    operation makes no call of its own and throws the same error: nothing
    is read, written, created or removed. *)
Theorem io_operations_stay_inside_jail
        (file : list string) (data : list Byte.byte)
        (recursive read write trunc : bool) (to : nat) :
  staysInsideJail file true (once (fun R => CallWriteFile R true))
                  (_appendFile _base file data) /\
  staysInsideJail file true (once (fun R => CallWriteFile R false))
                  (_writeFile _base file data) /\
  staysInsideJail file true (once CallReadFile) (_readFile _base file) /\
  staysInsideJail file true (once CallReaddir) (_readDir _base file) /\
  staysInsideJail file true (once CallReaddir) (_readDirent _base file) /\
  staysInsideJail file true (statThenRm recursive)
                  (_removeDir _base file recursive) /\
  staysInsideJail file true (once CallStatFull) (_stat _base file) /\
  staysInsideJail file false (once CallLstat) (_lstat _base file) /\
  staysInsideJail file true (once (fun R => CallTruncate R to))
                  (_truncate _base file to) /\
  staysInsideJail file true (once (fun R => CallMkdir (R ++ "/")))
                  (_mkdir _base file) /\
  staysInsideJail file true
                  (once (fun R => CallOpen R (openFlag read write trunc)))
                  (_openFile _base file read write trunc).
Proof.
  refine (conj _ (conj _ (conj _ (conj _ (conj _ (conj _ (conj _
            (conj _ (conj _ (conj _ _)))))))))).
  - exact (proj1 (one_call file true (fun R => CallWriteFile R true)
                           (fun R => writeFile R data true))).
  - exact (proj1 (one_call file true (fun R => CallWriteFile R false)
                           (fun R => writeFile R data false))).
  - exact (proj1 (one_call file true CallReadFile readFile)).
  - exact (proj1 (one_call file true CallReaddir readdir)).
  - exact (proj1 (one_call_then file true CallReaddir readdirTyped
                                (fun ds => io_ret (typedEntries ds))
                                (fun ds => io_ret_quiet (typedEntries ds)))).
  - exact (proj1 (removeDir_effects file recursive)).
  - exact (proj1 (one_call_then file true CallStatFull statFull
                                typed typed_quiet)).
  - exact (proj1 (one_call_then file false CallLstat lstatFull
                                typed typed_quiet)).
  - exact (proj1 (one_call file true (fun R => CallTruncate R to)
                           (fun R => truncate R to))).
  - exact (proj1 (one_call file true (fun R => CallMkdir (R ++ "/"))
                           (fun R => mkdir (R ++ "/")))).
  - exact (proj1 (one_call file true
                           (fun R => CallOpen R (openFlag read write trunc))
                           (fun R => openAt R (openFlag read write trunc)))).
Qed.

(** What these operations throw is a [VFSError], their own ([ENOTDIR] of a
    non-directory, [ENOSYS] of an entry of unknown kind) or the host's
    error normalized, or an [AbortError] handed through. *)
Theorem io_operations_throw_normalized
        (file : list string) (data : list Byte.byte)
        (recursive read write trunc : bool) (to : nat) :
  ioThrowsNormalized (_appendFile _base file data) /\
  ioThrowsNormalized (_writeFile _base file data) /\
  ioThrowsNormalized (_readFile _base file) /\
  ioThrowsNormalized (_readDir _base file) /\
  ioThrowsNormalized (_readDirent _base file) /\
  ioThrowsNormalized (_removeDir _base file recursive) /\
  ioThrowsNormalized (_stat _base file) /\
  ioThrowsNormalized (_lstat _base file) /\
  ioThrowsNormalized (_truncate _base file to) /\
  ioThrowsNormalized (_mkdir _base file) /\
  ioThrowsNormalized (_openFile _base file read write trunc).
Proof.
  refine (conj _ (conj _ (conj _ (conj _ (conj _ (conj _ (conj _
            (conj _ (conj _ (conj _ _)))))))))).
  - exact (proj2 (one_call file true (fun R => CallWriteFile R true)
                           (fun R => writeFile R data true))).
  - exact (proj2 (one_call file true (fun R => CallWriteFile R false)
                           (fun R => writeFile R data false))).
  - exact (proj2 (one_call file true CallReadFile readFile)).
  - exact (proj2 (one_call file true CallReaddir readdir)).
  - exact (proj2 (one_call_then file true CallReaddir readdirTyped
                                (fun ds => io_ret (typedEntries ds))
                                (fun ds => io_ret_quiet (typedEntries ds)))).
  - exact (proj2 (removeDir_effects file recursive)).
  - exact (proj2 (one_call_then file true CallStatFull statFull
                                typed typed_quiet)).
  - exact (proj2 (one_call_then file false CallLstat lstatFull
                                typed typed_quiet)).
  - exact (proj2 (one_call file true (fun R => CallTruncate R to)
                           (fun R => truncate R to))).
  - exact (proj2 (one_call file true (fun R => CallMkdir (R ++ "/"))
                           (fun R => mkdir (R ++ "/")))).
  - exact (proj2 (one_call file true
                           (fun R => CallOpen R (openFlag read write trunc))
                           (fun R => openAt R (openFlag read write trunc)))).
Qed.

(** [_removeDir] removes directories only: whatever the path and the
    links on it, [rm] is called on a path only after [stat] on that same
    path has answered with a directory. *)
Theorem removeDir_removes_only_directories
        (dir : list string) (recursive : bool) :
  rmOnlyDirectories (fst (_removeDir _base dir recursive)).
Proof.
  unfold _removeDir, io_bind at 1, seen.
  destruct (_fsPath _base dir true) as [t [path|e]]; cbn [fst snd].
  - destruct (removeDir_tail path recursive) as (_ & _ & Hrm).
    destruct (io_bind (ensureDir (path ++ "/")) _) as [t' r'].
    cbn [fst] in *. apply Forall_app. split; [|exact Hrm].
    apply Forall_forall. intros c Hin.
    apply in_map_iff in Hin as (c0 & <- & _). exact I.
  - apply Forall_forall. intros c Hin.
    apply in_map_iff in Hin as (c0 & <- & _). exact I.
Qed.

End MoreOperationsEffects.

(** ** The flag of [_openFile] *)

Section OpenFlag.

Context {OF : OpenFlags}.

Lemma testbit_mode (a n : Z) :
  (0 <= a < 4)%Z -> (2 <= n)%Z -> Z.testbit a n = false.
Proof.
  intros Ha Hn. destruct (Z.eq_dec a 0) as [->|Hz]; [apply Z.bits_0|].
  apply Z.bits_above_log2; [lia|].
  assert (Z.log2 a < 2)%Z by (apply Z.log2_lt_pow2; simpl; lia). lia.
Qed.

Lemma land_pow2_3 (c : Z) : (2 <= c)%Z -> Z.land (2 ^ c) 3 = 0%Z.
Proof.
  intros Hc. apply Z.bits_inj'. intros n Hn.
  rewrite Z.land_spec, Z.bits_0, Z.pow2_bits_eqb by lia.
  destruct (Z.eqb_spec c n) as [<-|Hne]; [|reflexivity].
  simpl. apply testbit_mode; lia.
Qed.

(** On a platform where the access modes are 0, 1 and 2 and [O_CREAT] and
    [O_TRUNC] are two different bits above them, the flag says what was
    asked: the access mode is read-write when [read] and [write] are both
    set, write-only for [write] alone and read-only otherwise, [read]
    playing no part without [write]; the create bit is set exactly for
    [write]; the truncate bit is set exactly for [truncate], read-only
    opens included. *)
Theorem openFlag_encodes_intent (c t : Z) (read write truncate : bool) :
  O_RDONLY = 0%Z -> O_WRONLY = 1%Z -> O_RDWR = 2%Z ->
  O_CREAT = (2 ^ c)%Z -> O_TRUNC = (2 ^ t)%Z ->
  (2 <= c)%Z -> (2 <= t)%Z -> c <> t ->
  Z.land (openFlag read write truncate) 3
  = (if write then if read then 2 else 1 else 0)%Z /\
  Z.testbit (openFlag read write truncate) c = write /\
  Z.testbit (openFlag read write truncate) t = truncate.
Proof.
  intros Hro Hwo Hrw Hcr Htr Hc Ht Hne. unfold openFlag.
  rewrite Hro, Hwo, Hrw, Hcr, Htr.
  assert (Hct : (c =? t)%Z = false) by (now apply Z.eqb_neq).
  assert (Htc : (t =? c)%Z = false) by (apply Z.eqb_neq; congruence).
  destruct write, read, truncate;
    rewrite ?Z.land_lor_distr_l, ?land_pow2_3, ?Z.lor_0_r,
            ?Z.lor_spec, ?Z.pow2_bits_eqb, ?Z.eqb_refl, ?Hct, ?Htc,
            ?testbit_mode, ?Z.bits_0 by lia;
    repeat split; reflexivity.
Qed.

End OpenFlag.

Lemma openFlag_encodes_intent_witness :
  Z.land (openFlag (OF := linuxFlags) true true false) 3 = 2%Z /\
  Z.testbit (openFlag (OF := linuxFlags) true true false) 6 = true /\
  Z.testbit (openFlag (OF := linuxFlags) true true false) 9 = false.
Proof.
  apply (openFlag_encodes_intent (OF := linuxFlags) 6 9 true true false);
    try reflexivity; lia.
Defined.

(** ** Entries that are neither file, directory nor link *)

Section UnknownKinds.

Context {PL : PathLib} {FS : HostFS} {IO : HostIO} {OF : OpenFlags}.
Variable _base : string.

(** An entry whose kind [getEntryType] knows. *)
Definition knownKind (ent : Dirent) : bool :=
  match d_kind ent with
  | StatOther => false
  | _ => true
  end.

(** Sockets, pipes and devices: [_readDirent] leaves them out and lists
    all the other entries under their names and in the host's order,
    while [_stat] on such an entry throws the error of code [ENOSYS]. *)
Theorem unknown_kinds_hidden_or_refused
        (dirents : list Dirent) (file : list string) (path : string)
        (size : nat) :
  map v_name (typedEntries dirents) = map d_name (filter knownKind dirents) /\
  (outcome (_fsPath _base file true) = Ok path ->
   statFull path = Resolved (mkStat StatOther size) ->
   snd (_stat _base file) = Throw unknownFileType).
Proof.
  split.
  - unfold typedEntries, knownKind. cbv zeta.
    induction dirents as [|[name kind] ds IH]; [reflexivity|].
    destruct kind; simpl in *; now rewrite IH.
  - intros Hpath Hstat. unfold _stat, io_bind, seen, io_host, outcome in *.
    destruct (_fsPath _base file true) as [t [q|e]]; cbn [fst snd] in *;
      [|discriminate].
    inversion Hpath; subst. rewrite Hstat. reflexivity.
Qed.

End UnknownKinds.

(** A host for these operations where [/root/sock] is a socket and
    everything else a directory. *)
Definition sampleIO : HostIO :=
  {| statFull := fun path =>
       if String.eqb path "/root/sock" then Resolved (mkStat StatOther 0)
       else Resolved (mkStat StatDir 4096);
     lstatFull := fun path =>
       if String.eqb path "/root/sock" then Resolved (mkStat StatOther 0)
       else Resolved (mkStat StatDir 4096);
     readdir := fun _ => Resolved ["d"; "sock"];
     readdirTyped := fun _ =>
       Resolved [mkDirent "d" StatDir; mkDirent "sock" StatOther];
     readFile := fun _ => Rejected Sample.missing;
     writeFile := fun _ _ _ => Resolved tt;
     truncate := fun _ _ => Resolved tt;
     rm := fun _ _ => Resolved tt;
     mkdir := fun _ => Resolved tt;
     openAt := fun _ _ => Resolved 3 |}.

Lemma unknown_kinds_hidden_or_refused_witness :
  snd (_stat (FS := Sample.hostOf [] ["/root"; "/root/sock"]) (IO := sampleIO)
             "/root" ["sock"])
  = Throw unknownFileType.
Proof.
  apply (unknown_kinds_hidden_or_refused
           (FS := Sample.hostOf [] ["/root"; "/root/sock"]) (IO := sampleIO)
           "/root" [] ["sock"] "/root/sock" 0); reflexivity.
Defined.

(** ** Through an absolute link *)

Section AbsoluteLink.

Context {PL : PathLib} {FS : HostFS}.
Variable _base : string.

(** Following a link with an absolute target: the running path restarts at
    the root of the target, the first piece of the target's directory (the
    empty text before its first separator) is passed over, and the pieces
    after it are appended one by one, each after a separator.  Where the
    root itself ends with the separator, as [/] does, the path so built
    starts with two separators; it is that path which has to pass the
    containment test. *)
Theorem fsPath_through_absolute_link
        (seg target first : string) (ds : list string) :
  properSeg seg ->
  readlink (_base ++ sepStr ++ seg) = Resolved target ->
  isAbsolute target = true ->
  JS.split sep (dir (parse target)) = first :: ds ->
  Forall properSeg (ds ++ [base (parse target)]) ->
  Forall (rejectedWith "EINVAL")
         (descend (root (parse target)) (ds ++ [base (parse target)])) ->
  _fsPath _base [seg] true
  = (CallReadlink (_base ++ sepStr ++ seg)
       :: map CallReadlink
              (descend (root (parse target)) (ds ++ [base (parse target)])),
     if _locOK _base (under (root (parse target))
                            (ds ++ [base (parse target)]))
     then Ok (under (root (parse target)) (ds ++ [base (parse target)]))
     else Throw outsideBase).
Proof.
  intros Hseg Hlink Habs Hsplit Hp Hr.
  set (names := ds ++ [base (parse target)]) in *.
  set (r := root (parse target)) in *.
  assert (Hfirst : loop _base true (entry _base [seg])
                   = loop _base true
                       (Vars.mk r false 1 ([first] ++ names ++ [])
                                (List.length [first])
                                [CallReadlink (_base ++ sepStr ++ seg)])).
  { rewrite loop_eq. unfold entry, body.
    cbn [Vars.i Vars.src Vars.p Vars.depth Vars.log Vars.strict nth
         List.length Nat.ltb Nat.leb].
    rewrite (proper_not_dotdot _ Hseg), (childOf_proper _ _ Hseg), Hlink.
    cbn [Nat.ltb Nat.leb negb andb]. rewrite Habs, Hsplit.
    cbv zeta. unfold incr, names. cbn [Vars.i Vars.src Vars.p Vars.depth
                                       Vars.log Vars.strict skipn app].
    now rewrite app_nil_r. }
  rewrite (loop_descend _base true names [first] [] r false 1 _ Hp Hr)
    in Hfirst.
  rewrite app_nil_r in Hfirst.
  replace (List.length [first] + List.length names)
    with (List.length ([first] ++ names)) in Hfirst
    by (rewrite List.length_app; reflexivity).
  rewrite loop_at_end in Hfirst.
  unfold _fsPath, bind. rewrite validatePath_unfold, Hfirst.
  cbn [Vars.p Vars.log].
  destruct (_locOK _base (under r names));
    [|unfold throw; cbn [app]; now rewrite app_nil_r].
  pose proof (under_not_empty ds (base (parse target)) r) as Hne.
  fold names in Hne. destruct (under r names); [congruence|].
  unfold ret. cbn [app]. now rewrite app_nil_r.
Qed.

End AbsoluteLink.

(** On POSIX an absolute link that points into the base directory is
    refused: [/root/in -> /root/d] is resolved to [//root/d], which does
    not start with [/root]. *)
Lemma fsPath_through_absolute_link_witness :
  _fsPath (FS := Sample.hostOf [("/root/in", "/root/d")]
                               ["/root"; "/root/d"; "//root"; "//root/d"])
          "/root" ["in"] true
  = ([CallReadlink "/root/in"; CallReadlink "//root";
      CallReadlink "//root/d"],
     Throw outsideBase).
Proof.
  refine (fsPath_through_absolute_link
            (FS := Sample.hostOf [("/root/in", "/root/d")]
                                 ["/root"; "/root/d"; "//root"; "//root/d"])
            "/root" "in" "/root/d" "" ["root"] _ _ _ _ _ _).
  - repeat split; discriminate.
  - reflexivity.
  - reflexivity.
  - reflexivity.
  - repeat constructor; discriminate.
  - repeat constructor;
      (exists Sample.notALink; split; [reflexivity|];
       split; [discriminate|reflexivity]).
Defined.

(** ** A link as last segment, at any depth *)

Section FinalLink.

Context {PL : PathLib} {FS : HostFS}.
Variable _base : string.

(** Past entries that are not links, a last segment that is a link, with
    the last link not to be followed: the path of the link itself is
    returned, and the link's target plays no part.  This is the path that
    [_removeFile], [_lstat] and [_readSymlink] then act on. *)
Theorem fsPath_stops_at_final_link
        (names : list string) (seg target : string) :
  Forall properSeg names -> properSeg seg ->
  Forall (rejectedWith "EINVAL") (descend _base names) ->
  readlink (under _base names ++ sepStr ++ seg) = Resolved target ->
  _fsPath _base (names ++ [seg]) false
  = (map CallReadlink (descend _base (names ++ [seg])),
     Ok (under _base names ++ sepStr ++ seg)%string).
Proof.
  intros Hp Hs Hr Hlink.
  pose proof (loop_descend _base false names [] [seg] _base true 0 []
                           Hp Hr) as H.
  cbn [app List.length Nat.add] in H.
  rewrite (loop_eq _base false
             (Vars.mk (under _base names) true 0 (names ++ [seg])
                      (List.length names)
                      (map CallReadlink (descend _base names)))) in H.
  cbn [Vars.i Vars.src] in H.
  replace (List.length names <? List.length (names ++ [seg]))%nat with true
    in H by (symmetry; apply Nat.ltb_lt; rewrite List.length_app; simpl; lia).
  unfold body in H. cbv zeta in H.
  cbn [Vars.i Vars.src Vars.p Vars.depth Vars.log Vars.strict] in H.
  rewrite nth_middle_app, (proper_not_dotdot _ Hs), (childOf_proper _ _ Hs),
    Hlink in H.
  replace (List.length names =? List.length (names ++ [seg]) - 1)%nat
    with true in H
    by (symmetry; apply Nat.eqb_eq; rewrite List.length_app; simpl; lia).
  cbn [Nat.ltb Nat.leb negb andb] in H. cbv zeta in H.
  assert (Hsrc : exists s src', names ++ [seg] = s :: src')
    by (destruct names; simpl; eauto).
  destruct Hsrc as (s & src' & Hsrc).
  rewrite descend_snoc, map_app.
  revert H. rewrite Hsrc. intros H.
  rewrite (fsPath_of_exit _ _ _ _ _ H); cbn [Vars.p Vars.log].
  - reflexivity.
  - rewrite <- under_snoc. apply under_in_jail, locOK_base.
  - rewrite <- under_snoc. apply under_not_empty.
Qed.

End FinalLink.

Lemma fsPath_stops_at_final_link_witness :
  _fsPath (FS := Sample.hostOf [("/root/d/l", "../../etc/passwd")]
                               ["/root"; "/root/d"])
          "/root" ["d"; "l"] false
  = ([CallReadlink "/root/d"; CallReadlink "/root/d/l"], Ok "/root/d/l").
Proof.
  refine (fsPath_stops_at_final_link
            (FS := Sample.hostOf [("/root/d/l", "../../etc/passwd")]
                                 ["/root"; "/root/d"])
            "/root" ["d"] "l" "../../etc/passwd" _ _ _ _).
  - repeat constructor; discriminate.
  - repeat split; discriminate.
  - repeat constructor. exists Sample.notALink.
    split; [reflexivity|]. split; [discriminate|reflexivity].
  - reflexivity.
Defined.

(** ** What [_symlink] stores and what the resolver reads back *)

(** No character of the text is [c]. *)
Fixpoint freeOf (c : ascii) (s : string) : bool :=
  match s with
  | EmptyString => true
  | String x s' => negb (Ascii.eqb x c) && freeOf c s'
  end.

Section StoredTarget.

Context {PL : PathLib}.
Variable _base : string.

Lemma split_never_empty c s : JS.split c s <> [].
Proof.
  induction s as [|x s IH]; simpl; [discriminate|].
  destruct (Ascii.eqb x c); [discriminate|].
  destruct (JS.split c s); [congruence|discriminate].
Qed.

Lemma split_free_app c a b :
  freeOf c a = true ->
  JS.split c (a ++ String c b) = a :: JS.split c b.
Proof.
  induction a as [|x a IH]; intros H; simpl in *.
  - now rewrite Ascii.eqb_refl.
  - apply andb_true_iff in H as [Hx Ha]. apply negb_true_iff in Hx.
    rewrite Hx, (IH Ha). reflexivity.
Qed.

Lemma split_free c a : freeOf c a = true -> JS.split c a = [a].
Proof.
  induction a as [|x a IH]; intros H; simpl in *; [reflexivity|].
  apply andb_true_iff in H as [Hx Ha]. apply negb_true_iff in Hx.
  rewrite Hx, (IH Ha). reflexivity.
Qed.

(** The target that [_symlink] stores for a relative link splits back, at
    the separator, into the very segments it was made of, provided no
    segment contains the separator: these are the segments the resolver
    puts on its list when it later reads the link. *)
Theorem stored_target_splits_back (target : list string) :
  target <> [] ->
  Forall (fun seg => freeOf sep seg = true) target ->
  JS.split sep (storedTarget _base target true) = target.
Proof.
  unfold storedTarget, JS.join.
  induction target as [|x target IH]; intros Hne Hfree; [congruence|].
  inversion Hfree as [|? ? Hx Hrest]; subst.
  destruct target as [|y target]; [now apply split_free|].
  change (String.concat sepStr (x :: y :: target))
    with (x ++ String sep (String.concat sepStr (y :: target)))%string.
  rewrite (split_free_app _ _ _ Hx). f_equal.
  apply IH; [discriminate|exact Hrest].
Qed.

End StoredTarget.

Lemma stored_target_splits_back_witness :
  JS.split (sep (PathLib := Posix.pathLib))
           (storedTarget (PL := Posix.pathLib) "/root" ["d"; "sub"; "f.txt"]
                         true)
  = ["d"; "sub"; "f.txt"].
Proof.
  apply (stored_target_splits_back (PL := Posix.pathLib) "/root"
                                   ["d"; "sub"; "f.txt"]).
  - discriminate.
  - repeat constructor.
Defined.

(* ===================================================================== *)
(** * The operations on two paths *)
(* ===================================================================== *)

(** [_copyFile], [_rename] and [_copyDir] resolve their two paths under
    [Promise.all]: both tasks are started, each runs to its end whatever
    the other does, and their host calls come in an order that the
    scheduler decides.  That order is a parameter here, [sched], which
    says call by call whether the next one is the first task's; and so is
    [leftFirst], which says, when both tasks reject, whether the first
    one did so earlier, since [Promise.all] rejects with the earliest
    rejection.  What is proved below is proved for every value of the
    two. *)
Fixpoint interleave {T} (sched : list bool) (l r : list T) : list T :=
  match sched with
  | [] => l ++ r
  | first :: sched' =>
      match l, r with
      | [], _ => r
      | _, [] => l
      | x :: l', y :: r' =>
          if first then x :: interleave sched' l' r
          else y :: interleave sched' l r'
      end
  end.

(** [Promise.all([ma, mb])] *)
Definition all2 {A B} (sched : list bool) (leftFirst : bool)
           (ma : Io A) (mb : Io B) : Io (A * B) :=
  (interleave sched (fst ma) (fst mb),
   match snd ma, snd mb with
   | Ok a, Ok b => Ok (a, b)
   | Throw e, Ok _ => Throw e
   | Ok _, Throw e => Throw e
   | Throw ea, Throw eb => Throw (if leftFirst then ea else eb)
   end).

(** The host calls that take two paths. *)
Class HostPair : Type := {
  copyFile : string -> string -> HostResult unit;
  rename : string -> string -> HostResult unit;
  cp : string -> string -> bool -> HostResult unit
}.

Inductive PairCall : Type :=
| Single (c : IoCall)
| CallCopyFile (src dst : string)
| CallRename (src dst : string)
| CallCp (src dst : string) (recursive : bool).

Definition Pair (A : Type) : Type := (list PairCall * Outcome A)%type.

(** An operation of the kinds above, among these. *)
Definition single {A} (m : Io A) : Pair A := (map Single (fst m), snd m).

Definition pair_host {A} (c : PairCall) (r : HostResult A) : Pair A :=
  ([c], withVFSErr r).

Definition pair_bind {A B} (m : Pair A) (k : A -> Pair B) : Pair B :=
  match m with
  | (t, Ok a) => let (t', r) := k a in (t ++ t', r)
  | (t, Throw e) => (t, Throw e)
  end.

Section TwoPaths.

Context {PL : PathLib} {PE : PathExtra} {FS : HostFS} {IO : HostIO}
        {HP : HostPair}.
Variable _base : string.
Variable sched : list bool.
Variable leftFirst : bool.

Definition _copyDir (src dst : list string) : Pair unit :=
  pair_bind
    (single
       (all2 sched leftFirst
          (p <~ seen (_fsPath _base src true) ;; ensureDir p)
          (p <~ seen (_fsPath _base dst true) ;;
           _ <~ ensureDir (dirname p) ;;
           io_ret p)))
    (fun paths =>
       let '(srcPath, dstPath) := paths in
       pair_host (CallCp (srcPath ++ "/") (dstPath ++ "/") true)
                 (cp (srcPath ++ "/") (dstPath ++ "/") true)).

Definition _copyFile (src dst : list string) : Pair unit :=
  pair_bind
    (single
       (all2 sched leftFirst
          (seen (_fsPath _base src true)) (seen (_fsPath _base dst true))))
    (fun paths =>
       let '(srcPath, dstPath) := paths in
       pair_host (CallCopyFile srcPath dstPath) (copyFile srcPath dstPath)).

Definition _rename (src dst : list string) : Pair unit :=
  pair_bind
    (single
       (all2 sched leftFirst
          (seen (_fsPath _base src true)) (seen (_fsPath _base dst true))))
    (fun paths =>
       let '(srcPath, dstPath) := paths in
       pair_host (CallRename srcPath dstPath) (rename srcPath dstPath)).

End TwoPaths.

(** ** What the operations on two paths call *)

(** A [readlink] of a resolution, in the log of these operations. *)
Definition isSeenReadlink (c : PairCall) : Prop :=
  exists path, c = Single (Seen (CallReadlink path)).

(** The two paths of a call that takes two. *)
Definition pairPaths (c : PairCall) : option (string * string) :=
  match c with
  | Single _ => None
  | CallCopyFile src dst | CallRename src dst | CallCp src dst _ =>
      Some (src, dst)
  end.

Definition pairThrowsNormalized {A} (m : Pair A) : Prop :=
  match snd m with
  | Throw e => normalized e
  | Ok _ => True
  end.

Section TwoPathsEffects.

Context {PL : PathLib} {PE : PathExtra} {FS : HostFS} {IO : HostIO}
        {HP : HostPair}.
Variable _base : string.

(** The calls are the [readlink]s of the two resolutions and nothing
    else, with a throw that is the throw of one of the two; or those
    [readlink]s and after them one call on the two resolved paths, both
    inside the jail. *)
Definition needsBoth (src dst : list string) (m : Pair unit) : Prop :=
  exists reads,
    Forall isSeenReadlink reads /\
    ((fst m = reads /\
      exists e, snd m = Throw e /\
                (outcome (_fsPath _base src true) = Throw e \/
                 outcome (_fsPath _base dst true) = Throw e)) \/
     (exists s d c,
         fst m = reads ++ [c] /\ pairPaths c = Some (s, d) /\
         outcome (_fsPath _base src true) = Ok s /\
         outcome (_fsPath _base dst true) = Ok d /\
         in_jail _base s /\ in_jail _base d)).

(** The host's [stat] calls the entry at this path a directory. *)
Definition statsAsDirectory (q : string) : Prop :=
  exists s, statFull q = Resolved s /\ isDirectory (st_kind s) = true.

(** What a call of [_copyDir] can be. *)
Definition copyDirCall (src dst : list string) (c : PairCall) : Prop :=
  match c with
  | Single (Seen c) => isReadlink c
  | Single (CallStatFull q) =>
      outcome (_fsPath _base src true) = Ok q \/
      exists d, outcome (_fsPath _base dst true) = Ok d /\ q = dirname d
  | CallCp a b recursive =>
      exists s d,
        outcome (_fsPath _base src true) = Ok s /\
        outcome (_fsPath _base dst true) = Ok d /\
        a = (s ++ "/")%string /\ b = (d ++ "/")%string /\
        recursive = true /\
        in_jail _base s /\ in_jail _base d /\
        statsAsDirectory s /\ statsAsDirectory (dirname d)
  | _ => False
  end.

Lemma interleave_Forall {T} (P : T -> Prop) sched : forall l r,
  Forall P l -> Forall P r -> Forall P (interleave sched l r).
Proof.
  induction sched as [|first sched' IH]; intros l r Hl Hr.
  - simpl. apply Forall_app. now split.
  - destruct l as [|x l']; [exact Hr|].
    destruct r as [|y r']; [exact Hl|].
    cbn [interleave]. destruct first.
    + inversion Hl; subst. constructor; [assumption|now apply IH].
    + inversion Hr; subst. constructor; [assumption|now apply IH].
Qed.

Lemma interleave_In {T} (x : T) sched : forall l r,
  In x l \/ In x r -> In x (interleave sched l r).
Proof.
  induction sched as [|first sched' IH]; intros l r H.
  - simpl. apply in_or_app. exact H.
  - destruct l as [|a l'].
    + destruct H as [[]|H]. destruct r; exact H.
    + destruct r as [|b r'].
      * destruct H as [H|[]]. exact H.
      * cbn [interleave]. destruct first.
        -- destruct H as [[->|H]|H]; [now left| |]; right; apply IH;
             [now left|now right].
        -- destruct H as [H|[->|H]]; [|now left|]; right; apply IH;
             [now left|now right].
Qed.

Lemma seen_reads src thruLast :
  Forall isSeenReadlink
         (map Single (map Seen (calls (_fsPath _base src thruLast)))).
Proof.
  destruct (fsPath_calls _base src thruLast) as [Hreads _].
  apply Forall_forall. intros c Hin.
  apply in_map_iff in Hin as (c1 & <- & Hin).
  apply in_map_iff in Hin as (c0 & <- & Hin).
  rewrite Forall_forall in Hreads.
  destruct (Hreads c0 Hin) as [path ->]. now exists path.
Qed.

Lemma interleaved_reads sched src dst :
  Forall isSeenReadlink
         (map Single
              (interleave sched
                          (map Seen (calls (_fsPath _base src true)))
                          (map Seen (calls (_fsPath _base dst true))))).
Proof.
  pose proof (seen_reads src true) as Hs.
  pose proof (seen_reads dst true) as Hd.
  rewrite Forall_forall in *. intros c Hin.
  apply in_map_iff in Hin as (c1 & <- & Hin).
  assert (Hall : Forall (fun c1 => isSeenReadlink (Single c1))
                        (interleave sched
                           (map Seen (calls (_fsPath _base src true)))
                           (map Seen (calls (_fsPath _base dst true))))).
  { apply interleave_Forall; apply Forall_forall; intros c Hc.
    - apply Hs. now apply in_map.
    - apply Hd. now apply in_map. }
  rewrite Forall_forall in Hall. now apply Hall.
Qed.

(** The common shape of [_copyFile] and [_rename]. *)
Lemma two_paths_then sched leftFirst src dst
      (k : string * string -> PairCall * HostResult unit) :
  (forall s d, pairPaths (fst (k (s, d))) = Some (s, d)) ->
  needsBoth src dst
    (pair_bind
       (single (all2 sched leftFirst (seen (_fsPath _base src true))
                     (seen (_fsPath _base dst true))))
       (fun paths => pair_host (fst (k paths)) (snd (k paths)))) /\
  pairThrowsNormalized
    (pair_bind
       (single (all2 sched leftFirst (seen (_fsPath _base src true))
                     (seen (_fsPath _base dst true))))
       (fun paths => pair_host (fst (k paths)) (snd (k paths)))).
Proof.
  intros Hk.
  pose proof (interleaved_reads sched src dst) as Hreads.
  destruct (fsPath_calls _base src true) as [_ Hns].
  destruct (fsPath_calls _base dst true) as [_ Hnd].
  pose proof (fsPath_jailed_result _base src true) as Hjs.
  pose proof (fsPath_jailed_result _base dst true) as Hjd.
  unfold needsBoth, pairThrowsNormalized, pair_bind, single, all2, seen,
    pair_host, throwsNormalized, calls, outcome in *.
  destruct (_fsPath _base src true) as [ta [s|ea]];
    destruct (_fsPath _base dst true) as [tb [d|eb]];
    cbn [fst snd] in *.
  - split.
    + eexists. split; [exact Hreads|]. right.
      exists s, d, (fst (k (s, d))).
      repeat split; [apply Hk|now apply Hjs|now apply Hjd].
    + unfold withVFSErr. destruct (snd (k (s, d)));
        [exact I|apply wrapVFSErr_normalized].
  - split; [|exact Hnd].
    eexists. split; [exact Hreads|]. left. split; [reflexivity|].
    exists eb. split; [reflexivity|now right].
  - split; [|exact Hns].
    eexists. split; [exact Hreads|]. left. split; [reflexivity|].
    exists ea. split; [reflexivity|now left].
  - split; [|now destruct leftFirst].
    eexists. split; [exact Hreads|]. left. split; [reflexivity|].
    destruct leftFirst; eexists; split; try reflexivity; [now left|now right].
Qed.

(** [_copyFile] and [_rename] act only once both paths are resolved:
    whatever the order in which the two resolutions run, the host is asked
    to copy or to rename at most once, after all the [readlink]s, and then
    on the two resolved paths, both inside the jail; when either
    resolution throws, nothing is copied or renamed and the error thrown
    is that of one of the two.  What is thrown is normalized. *)
Theorem two_path_operations_need_both
        (sched : list bool) (leftFirst : bool) (src dst : list string) :
  needsBoth src dst (_copyFile _base sched leftFirst src dst) /\
  needsBoth src dst (_rename _base sched leftFirst src dst) /\
  pairThrowsNormalized (_copyFile _base sched leftFirst src dst) /\
  pairThrowsNormalized (_rename _base sched leftFirst src dst).
Proof.
  pose proof (two_paths_then sched leftFirst src dst
                (fun paths => (CallCopyFile (fst paths) (snd paths),
                               copyFile (fst paths) (snd paths)))
                (fun s d => eq_refl)) as [Hc Hcn].
  pose proof (two_paths_then sched leftFirst src dst
                (fun paths => (CallRename (fst paths) (snd paths),
                               rename (fst paths) (snd paths)))
                (fun s d => eq_refl)) as [Hr Hrn].
  assert (Ec : _copyFile _base sched leftFirst src dst
               = pair_bind
                   (single (all2 sched leftFirst
                                 (seen (_fsPath _base src true))
                                 (seen (_fsPath _base dst true))))
                   (fun paths =>
                      pair_host (CallCopyFile (fst paths) (snd paths))
                                (copyFile (fst paths) (snd paths)))).
  { unfold _copyFile, pair_bind.
    destruct (single _) as [t [[s d]|e]]; reflexivity. }
  assert (Er : _rename _base sched leftFirst src dst
               = pair_bind
                   (single (all2 sched leftFirst
                                 (seen (_fsPath _base src true))
                                 (seen (_fsPath _base dst true))))
                   (fun paths =>
                      pair_host (CallRename (fst paths) (snd paths))
                                (rename (fst paths) (snd paths)))).
  { unfold _rename, pair_bind.
    destruct (single _) as [t [[s d]|e]]; reflexivity. }
  rewrite Ec, Er. cbn [fst snd] in *. now repeat split.
Qed.

Lemma copyDir_source src dst :
  Forall (fun c => copyDirCall src dst (Single c))
         (fst (p <~ seen (_fsPath _base src true) ;; ensureDir p)) /\
  match snd (p <~ seen (_fsPath _base src true) ;; ensureDir p) with
  | Ok p => outcome (_fsPath _base src true) = Ok p /\
            in_jail _base p /\ statsAsDirectory p
  | Throw e => normalized e
  end.
Proof.
  destruct (fsPath_calls _base src true) as [Hreads Hn].
  pose proof (fsPath_jailed_result _base src true) as Hj.
  unfold throwsNormalized, calls, outcome in *.
  unfold io_bind, seen.
  assert (Hseen : forall t, Forall isReadlink t ->
                            Forall (fun c => copyDirCall src dst (Single c))
                                   (map Seen t)).
  { intros t Ht. apply Forall_forall. intros c Hin.
    apply in_map_iff in Hin as (c0 & <- & Hin).
    rewrite Forall_forall in Ht. exact (Ht c0 Hin). }
  destruct (_fsPath _base src true) as [t [s|e]] eqn:E; cbn [fst snd] in *.
  - destruct (ensureDir_cases s) as [(st & Hst & Hd & ->)|(e & -> & He)];
      cbn [fst snd].
    + split.
      * apply Forall_app. split; [now apply Hseen|].
        constructor; [|constructor]. cbn [copyDirCall]. left.
        unfold outcome. now rewrite E.
      * repeat split; [now apply Hj|now exists st].
    + split; [|exact He].
      apply Forall_app. split; [now apply Hseen|].
      constructor; [|constructor]. cbn [copyDirCall]. left.
      unfold outcome. now rewrite E.
  - split; [now apply Hseen|exact Hn].
Qed.

Lemma copyDir_destination src dst :
  Forall (fun c => copyDirCall src dst (Single c))
         (fst (p <~ seen (_fsPath _base dst true) ;;
               _ <~ ensureDir (dirname p) ;;
               io_ret p)) /\
  match snd (p <~ seen (_fsPath _base dst true) ;;
             _ <~ ensureDir (dirname p) ;;
             io_ret p) with
  | Ok p => outcome (_fsPath _base dst true) = Ok p /\
            in_jail _base p /\ statsAsDirectory (dirname p)
  | Throw e => normalized e
  end.
Proof.
  destruct (fsPath_calls _base dst true) as [Hreads Hn].
  pose proof (fsPath_jailed_result _base dst true) as Hj.
  unfold throwsNormalized, calls, outcome in *.
  unfold io_bind at 1 3, seen.
  assert (Hseen : forall t, Forall isReadlink t ->
                            Forall (fun c => copyDirCall src dst (Single c))
                                   (map Seen t)).
  { intros t Ht. apply Forall_forall. intros c Hin.
    apply in_map_iff in Hin as (c0 & <- & Hin).
    rewrite Forall_forall in Ht. exact (Ht c0 Hin). }
  destruct (_fsPath _base dst true) as [t [d|e]] eqn:E; cbn [fst snd] in *.
  - destruct (ensureDir_cases (dirname d))
      as [(st & Hst & Hd & ->)|(e & -> & He)];
      unfold io_bind, io_ret; cbn [fst snd app].
    + split.
      * apply Forall_app. split; [now apply Hseen|].
        constructor; [|constructor]. cbn [copyDirCall]. right.
        exists d. unfold outcome. now rewrite E.
      * repeat split; [now apply Hj|now exists st].
    + split; [|exact He].
      apply Forall_app. split; [now apply Hseen|].
      constructor; [|constructor]. cbn [copyDirCall]. right.
      exists d. unfold outcome. now rewrite E.
  - split; [now apply Hseen|exact Hn].
Qed.

(** [_copyDir] copies a directory into a directory: whatever the order in
    which its two tasks run, every call it makes is a [readlink] of one of
    the two resolutions, a [stat] of the resolved source or of the parent
    of the resolved destination, or the one recursive [cp]; and [cp] is
    called only when both paths have resolved inside the jail, the source
    is a directory and the parent of the destination is one, on the two
    resolved paths with a slash after each.  What is thrown is
    normalized. *)
Theorem copyDir_copies_directory_into_directory
        (sched : list bool) (leftFirst : bool) (src dst : list string) :
  Forall (copyDirCall src dst) (fst (_copyDir _base sched leftFirst src dst)) /\
  pairThrowsNormalized (_copyDir _base sched leftFirst src dst).
Proof.
  destruct (copyDir_source src dst) as [Hsc Hso].
  destruct (copyDir_destination src dst) as [Hdc Hdo].
  pose proof (interleave_Forall _ sched _ _ Hsc Hdc) as Hall.
  assert (Hlog : forall l, Forall (fun c => copyDirCall src dst (Single c)) l ->
                           Forall (copyDirCall src dst) (map Single l)).
  { intros l Hl. apply Forall_forall. intros c Hin.
    apply in_map_iff in Hin as (c0 & <- & Hin).
    rewrite Forall_forall in Hl. now apply Hl. }
  apply Hlog in Hall.
  unfold _copyDir, pairThrowsNormalized, pair_bind, single, all2, pair_host.
  cbn [fst snd].
  destruct (snd (p <~ seen (_fsPath _base src true) ;; ensureDir p))
    as [s|ea];
    destruct (snd (p <~ seen (_fsPath _base dst true) ;;
                   _ <~ ensureDir (dirname p) ;;
                   io_ret p)) as [d|eb];
    cbn [fst snd].
  - destruct Hso as (Hs & Hjs & Hds). destruct Hdo as (Hd & Hjd & Hdd).
    split.
    + apply Forall_app. split; [exact Hall|].
      constructor; [|constructor]. cbn [copyDirCall].
      exists s, d. now repeat split.
    + unfold withVFSErr. destruct (cp _ _ _);
        [exact I|apply wrapVFSErr_normalized].
  - split; [exact Hall|exact Hdo].
  - split; [exact Hall|exact Hso].
  - split; [exact Hall|now destruct leftFirst].
Qed.

(** [_copyDir] asks the host about the parent of the destination, wherever
    that is: once the destination has resolved, [stat] is called on
    [path.dirname] of the resolved path, whatever the source and the order
    of the two tasks.  For the destination [[]], which resolves to the
    base directory, that is the directory above the jail. *)
Theorem copyDir_stats_parent_of_destination
        (sched : list bool) (leftFirst : bool) (src dst : list string)
        (d : string) :
  outcome (_fsPath _base dst true) = Ok d ->
  In (Single (CallStatFull (dirname d)))
     (fst (_copyDir _base sched leftFirst src dst)).
Proof.
  intros Hd.
  assert (Hin : In (CallStatFull (dirname d))
                   (fst (p <~ seen (_fsPath _base dst true) ;;
                         _ <~ ensureDir (dirname p) ;;
                         io_ret p))).
  { unfold outcome in *. unfold io_bind at 1, seen.
    destruct (_fsPath _base dst true) as [t [d'|e]]; cbn [fst snd] in *;
      [|discriminate].
    inversion Hd; subst d'.
    destruct (ensureDir_cases (dirname d))
      as [(st & Hst & Hdir & ->)|(e & -> & He)];
      unfold io_bind, io_ret; cbn [fst snd app];
      apply in_or_app; right; now left. }
  assert (Hpar : In (Single (CallStatFull (dirname d)))
                    (map Single
                         (interleave sched
                            (fst (p <~ seen (_fsPath _base src true) ;;
                                  ensureDir p))
                            (fst (p <~ seen (_fsPath _base dst true) ;;
                                  _ <~ ensureDir (dirname p) ;;
                                  io_ret p))))).
  { apply in_map. apply interleave_In. now right. }
  unfold _copyDir, pair_bind, single, all2. cbn [fst snd].
  destruct (snd (p <~ seen (_fsPath _base src true) ;; ensureDir p));
    destruct (snd (p <~ seen (_fsPath _base dst true) ;;
                   _ <~ ensureDir (dirname p) ;;
                   io_ret p));
    cbn [fst snd pair_host]; try exact Hpar.
  apply in_or_app. now left.
Qed.

End TwoPathsEffects.

(** A host on which every copy and every rename succeeds. *)
Definition samplePair : HostPair :=
  {| copyFile := fun _ _ => Resolved tt;
     rename := fun _ _ => Resolved tt;
     cp := fun _ _ _ => Resolved tt |}.

Lemma copyDir_stats_parent_of_destination_witness :
  In (Single (CallStatFull "/"))
     (fst (_copyDir (FS := Sample.plain) (IO := sampleIO) (HP := samplePair)
                    "/root" [true; false] true ["d"] [])) /\
  _locOK "/root" "/" = false.
Proof.
  split; [|reflexivity].
  exact (copyDir_stats_parent_of_destination
           (FS := Sample.plain) (IO := sampleIO) (HP := samplePair)
           "/root" [true; false] true ["d"] [] "/root" eq_refl).
Defined.
